(** * MultiNBS data-import tools: shallow embedding and verification

    The development follows [MultiNBS/data_import_tools.py].  Each Python
    function is embedded under its own name:

    - [Combine]: [calc_combined_matrix] and its inner [min_max_normalize];
    - [Mutations]: [load_binary_mutation_data];
    - [Edges]: [filter_weighted_network];
    - [Net]: [degree_shuffNet], [label_shuffNet] and [load_network_file],
      over a store of [networkx] graph objects;
    - [Maf]: [process_TCGA_MAF], its list branch in full, the text of its
      matrix branch taken as given.

    [load_params] is not embedded.

    Conventions.  pandas and numpy compute with IEEE doubles.  A double is
    modelled by its value, a rational or an infinity, with NaN apart
    ([Arith]); every operation rounds its exact result and overflows to an
    infinity.  Rounded results are compared with [Qeq], the equality of
    rationals as numbers.  Printing to the console is left out. *)

From Stdlib Require Import QArith Qminmax Qround Qpower Lqa Lia Ascii.
From stdpp Require Import base option list strings gmap sorting.

(** Python exceptions raised by the modelled code and by the library calls
    it makes. *)
Inductive exn :=
| ValueError (msg : string)
| KeyError
| TypeError
| IndexError
| ZeroDivisionError
| NetworkXError
| NetworkXAlgorithmError.

(** A computation that returns or raises. *)
Inductive result (A : Type) :=
| Ok (a : A)
| Raise (e : exn).
Arguments Ok {A} a.
Arguments Raise {A} e.

Definition rbind {A B} (m : result A) (f : A → result B) : result B :=
  match m with
  | Ok a => f a
  | Raise e => Raise e
  end.

Notation "'let*' x ':=' m 'in' k" := (rbind m (λ x, k))
  (at level 10, x name, m at level 100, k at level 200).

(** [mapM] for [result], left to right, stopping at the first exception. *)
Fixpoint traverse {A B} (f : A → result B) (l : list A) : result (list B) :=
  match l with
  | [] => Ok []
  | a :: l' => let* b := f a in let* bs := traverse f l' in Ok (b :: bs)
  end.

(* ================================================================== *)
(** ** Numbers *)
(* ================================================================== *)

Module Arith.

(** pandas and numpy compute with IEEE-754 doubles.  A double is modelled
    by its value: a rational, an infinity, or NaN.  Every operation
    returns the exact result rounded by [rnd]; a rounded result beyond
    [fmax] in magnitude is an infinity.  The general statements use no
    more of the rounding function than the laws below; [binary64], at the
    end of this module, is the rounding of the doubles, round-to-nearest
    with ties to even, and [ArithFacts] proves the laws of it.

    - [rnd_mono], [rnd_idem], [rnd_0], [rnd_1]: rounding keeps the order,
      leaves a double as it is, and 0 and 1 are doubles;
    - [rnd_sub_0]: the difference of two different doubles does not round
      to 0 (gradual underflow);
    - [rnd_compl]: for [x] between 0 and 1, adding [x] and the rounded
      [1 - x] does not round above 1 (the error of [1 - x] is less than
      half the distance from 1 to the next double);
    - [fmax_ge_1]: 1 is in range.

    The sign of a zero is not modelled. *)
Class Rounding := {
  rnd : Q → Q;
  fmax : Q;
  rnd_proper : ∀ x y, (x == y)%Q → (rnd x == rnd y)%Q;
  rnd_mono : ∀ x y, (x <= y)%Q → (rnd x <= rnd y)%Q;
  rnd_idem : ∀ x, (rnd (rnd x) == rnd x)%Q;
  rnd_0 : (rnd 0 == 0)%Q;
  rnd_1 : (rnd 1 == 1)%Q;
  rnd_sub_0 : ∀ x y, (rnd x == x)%Q → (rnd y == y)%Q →
                     (rnd (x - y) == 0)%Q → (x == y)%Q;
  rnd_compl : ∀ x, (0 <= x <= 1)%Q → (rnd (x + rnd (1 - x)) <= 1)%Q;
  fmax_ge_1 : (1 <= fmax)%Q
}.

(** A double other than NaN. *)
Inductive num :=
| Fin (q : Q)
| PInf
| NInf.

Definition Qlt_bool (a b : Q) : bool := negb (Qle_bool b a).

Definition sign_inf (positive : bool) : num := if positive then PInf else NInf.

Section Operations.
Context {R : Rounding}.

(** The double returned for the exact result [q]. *)
Definition round (q : Q) : num :=
  if Qle_bool (rnd q) fmax then
    if Qle_bool (- fmax) (rnd q) then Fin (rnd q) else NInf
  else PInf.

(** [a + b]; [None] is NaN. *)
Definition nadd (a b : num) : option num :=
  match a, b with
  | Fin x, Fin y => Some (round (x + y))
  | Fin _, PInf => Some PInf
  | Fin _, NInf => Some NInf
  | PInf, Fin _ => Some PInf
  | PInf, PInf => Some PInf
  | PInf, NInf => None
  | NInf, Fin _ => Some NInf
  | NInf, PInf => None
  | NInf, NInf => Some NInf
  end.

Definition nopp (a : num) : num :=
  match a with
  | Fin x => Fin (- x)
  | PInf => NInf
  | NInf => PInf
  end.

(** [a - b] *)
Definition nsub (a b : num) : option num := nadd a (nopp b).

(** [a * b] *)
Definition nmul (a b : num) : option num :=
  match a, b with
  | Fin x, Fin y => Some (round (x * y))
  | Fin x, PInf => if Qeq_bool x 0 then None else Some (sign_inf (Qlt_bool 0 x))
  | Fin x, NInf => if Qeq_bool x 0 then None else Some (sign_inf (Qlt_bool x 0))
  | PInf, Fin y => if Qeq_bool y 0 then None else Some (sign_inf (Qlt_bool 0 y))
  | NInf, Fin y => if Qeq_bool y 0 then None else Some (sign_inf (Qlt_bool y 0))
  | PInf, PInf => Some PInf
  | PInf, NInf => Some NInf
  | NInf, PInf => Some NInf
  | NInf, NInf => Some PInf
  end.

(** [a / b] on arrays: a nonzero number over zero is an infinity (of the
    sign of the number, the zero taken as positive), zero over zero and
    infinity over infinity are NaN. *)
Definition ndiv (a b : num) : option num :=
  match a, b with
  | Fin x, Fin y =>
      if Qeq_bool y 0 then
        if Qeq_bool x 0 then None else Some (sign_inf (Qlt_bool 0 x))
      else Some (round (x / y))
  | Fin _, PInf => Some (Fin 0)
  | Fin _, NInf => Some (Fin 0)
  | PInf, Fin y => Some (sign_inf (negb (Qlt_bool y 0)))
  | NInf, Fin y => Some (sign_inf (Qlt_bool y 0))
  | PInf, PInf => None
  | PInf, NInf => None
  | NInf, PInf => None
  | NInf, NInf => None
  end.

End Operations.

(** The greater and the smaller of two numbers. *)
Definition nmax (a b : num) : num :=
  match a, b with
  | Fin x, Fin y => Fin (Qmax x y)
  | PInf, _ => PInf
  | _, PInf => PInf
  | NInf, c => c
  | c, NInf => c
  end.

Definition nmin (a b : num) : num :=
  match a, b with
  | Fin x, Fin y => Fin (Qmin x y)
  | NInf, _ => NInf
  | _, NInf => NInf
  | PInf, c => c
  | c, PInf => c
  end.

(** [a < b] *)
Definition nlt (a b : num) : bool :=
  match a, b with
  | Fin x, Fin y => Qlt_bool x y
  | NInf, Fin _ => true
  | NInf, PInf => true
  | Fin _, PInf => true
  | _, _ => false
  end.

(** Equality of numbers by value. *)
Definition num_eqv (a b : num) : Prop :=
  match a, b with
  | Fin x, Fin y => (x == y)%Q
  | PInf, PInf => True
  | NInf, NInf => True
  | _, _ => False
  end.

(** [q] is a finite double. *)
Definition is_double {R : Rounding} (q : Q) : Prop :=
  (rnd q == q)%Q ∧ (- fmax <= q <= fmax)%Q.

(** The largest double, [(2^53 - 1) * 2^971]. *)
Definition largest_double : Q := inject_Z ((2 ^ 53 - 1) * 2 ^ 971).

(** *** Round-to-nearest on doubles

    A positive double is [n * 2^q] with [n < 2^53] and [q >= -1074].  A
    positive number [x] with [2^e <= x < 2^(e+1)] is rounded to a multiple
    of [2^q], where [q] is [e - 52], or [-1074] if that is greater (the
    subnormal range); of the two nearest multiples the nearer one is
    taken, and of two equally near ones the even one.  The exponent is
    not bounded above here: [round] turns a result beyond [fmax] into an
    infinity. *)
Definition pow2 (e : Z) : Q := (2 ^ e)%Q.

(** The [e] with [2^e <= q < 2^(e+1)], for positive [q]. *)
Definition ilog2 (q : Q) : Z :=
  let k := (Z.log2 (Qnum q) - Z.log2 (Z.pos (Qden q)))%Z in
  if Qle_bool (pow2 k) q then k else (k - 1)%Z.

(** The nearest integer, ties to even. *)
Definition rne (q : Q) : Z :=
  let f := Qfloor q in
  match ((q - inject_Z f) ?= (1 # 2))%Q with
  | Lt => f
  | Gt => (f + 1)%Z
  | Eq => if Z.even f then f else (f + 1)%Z
  end.

Definition quantum (q : Q) : Z := Z.max (ilog2 q - 52) (-1074).

Definition round_pos (q : Q) : Q :=
  (inject_Z (rne (q / pow2 (quantum q))) * pow2 (quantum q))%Q.

Definition binary64 (q : Q) : Q :=
  match (q ?= 0)%Q with
  | Eq => 0%Q
  | Gt => round_pos q
  | Lt => (- round_pos (- q))%Q
  end.

End Arith.

(* ================================================================== *)
(** ** [calc_combined_matrix] *)
(* ================================================================== *)

Module Combine.
Export Arith.

(** A numeric cell of a DataFrame: a double, [None] being NaN. *)
Abbreviation cell := (option num).

(** [x == 0] on a cell: NaN and the infinities are not 0. *)
Definition cell_is_zero (a : cell) : bool :=
  match a with
  | Some (Fin x) => Qeq_bool x 0
  | _ => false
  end.

(** Equality of cells as numbers (NaN only matches NaN). *)
Definition cell_eqv : cell → cell → Prop := option_Forall2 num_eqv.
Definition col_eqv : list cell → list cell → Prop := Forall2 cell_eqv.

(** [Series.max()] and [Series.min()]: NaN entries are skipped and a column
    without any number yields NaN. *)
Definition nanmax (a b : cell) : cell :=
  match a, b with
  | Some x, Some y => Some (nmax x y)
  | Some x, None => Some x
  | None, _ => b
  end.

Definition nanmin (a b : cell) : cell :=
  match a, b with
  | Some x, Some y => Some (nmin x y)
  | Some x, None => Some x
  | None, _ => b
  end.

Definition col_max (col : list cell) : cell := foldr nanmax None col.
Definition col_min (col : list cell) : cell := foldr nanmin None col.

Section Frames.
Context {R : Rounding}.

(** Arithmetic on cells: NaN in, NaN out. *)
Definition cell_map2 (f : num → num → option num) (a b : cell) : cell :=
  match a, b with
  | Some x, Some y => f x y
  | _, _ => None
  end.

Definition cell_add := cell_map2 nadd.
Definition cell_sub := cell_map2 nsub.
Definition cell_mul := cell_map2 nmul.
Definition cell_div := cell_map2 ndiv.

(** The inner function of [calc_combined_matrix]:
<<
    def min_max_normalize(col):
        col_range = col.max() - col.min()
        if col_range == 0:
            return pd.Series(0, index=col.index)
        else:
            return (col - col.min()) / col_range
>> *)
Definition min_max_normalize (col : list cell) : list cell :=
  let col_range := cell_sub (col_max col) (col_min col) in
  if cell_is_zero col_range then
    map (λ _, Some (Fin 0)) col
  else
    map (λ x, cell_div (cell_sub x (col_min col)) col_range) col.

(** [sm_mat]: row labels and labelled columns, column-major.  Every column
    holds one cell per row label ([rect]). *)
Record DataFrame := {
  index : list string;
  columns : list (string * list cell)
}.

Definition labels (m : DataFrame) : list string := (columns m).*1.

Definition rect (m : DataFrame) : Prop :=
  Forall (λ c, length c.2 = length (index m)) (columns m).

(** [rna_mat]: its first column ([rna_mat.iloc[:, 0]]) holds the patient
    identifiers, the remaining columns are numeric gene columns keyed by
    their (distinct) labels.  The identifier column's own header is taken
    not to be a gene label. *)
Record ExprFrame := {
  pat_id : list string;
  genes : gmap string (list cell)
}.

Definition gene_cols (r : ExprFrame) : list (list cell) :=
  (map_to_list (genes r)).*2.

Definition rect_expr (r : ExprFrame) : Prop :=
  map_Forall (λ _ c, length c = length (pat_id r)) (genes r).

(** [df.isnull().values.any()] *)
Definition has_nan (col : list cell) : bool :=
  existsb (λ x, bool_decide (x = None)) col.
Definition isnull_any (cols : list (list cell)) : bool := existsb has_nan cols.

(** [df.fillna(0)] *)
Definition fillna (col : list cell) : list cell :=
  map (λ x, Some (default (Fin 0) x)) col.

Definition fillna_frame (m : DataFrame) : DataFrame :=
  {| index := index m; columns := prod_map id fillna <$> columns m |}.

Definition fillna_expr (r : ExprFrame) : ExprFrame :=
  {| pat_id := pat_id r; genes := fillna <$> genes r |}.

(** One cell of a reindexed column: the entry at the first position of
    label [s] in [ids], NaN when [s] is not among [ids]. *)
Definition take_row (ids : list string) (col : list cell) (s : string) : cell :=
  match list_find (λ k, k = s) ids with
  | Some (i, _) => default None (col !! i)
  | None => None
  end.

(** [df.set_index(ids).reindex(target)]: pandas returns the frame as it is
    when the two indexes are equal, refuses an index with repeated labels
    otherwise, and fills the rows of unknown labels with NaN. *)
Definition reindex (ids target : list string) (cols : gmap string (list cell))
  : result (gmap string (list cell)) :=
  if decide (ids = target) then Ok cols
  else if decide (NoDup ids) then
    Ok ((λ col, map (take_row ids col) target) <$> cols)
  else Raise (ValueError "cannot reindex on an axis with duplicate labels").

(** [df[labels]]: a label that is no column raises [KeyError]. *)
Definition select_columns (cols : gmap string (list cell)) (ls : list string)
  : result (list (list cell)) :=
  traverse (λ g, match cols !! g with
                 | Some c => Ok c
                 | None => Raise KeyError
                 end) ls.

Definition msg_beta : string :=
  "Alpha must be a value between 0 and 1, inclusive".
Definition msg_sm_nan : string :=
  "All sm_mat entries must have non NA values. If you wish to set these cells to 0, set replace_nan = True ".
Definition msg_rna_nan : string :=
  "All rna_mat entries must have non NA values. If you wish to set these cells to 0, set replace_nan = True ".

(** [beta * s + (1 - beta) * r] on cells, [beta] a finite double: two
    products, the difference [1 - beta] and a sum, each rounded. *)
Definition blend (beta : Q) (s r : cell) : cell :=
  cell_add (cell_mul (Some (Fin beta)) s)
           (cell_mul (cell_sub (Some (Fin 1)) (Some (Fin beta))) r).

(** The normalized expression matrix [rna_norm] of lines 260-282: the gene
    columns of [rna_mat] restricted to the genes of [sm_mat], re-indexed by
    [sm_mat]'s samples, ordered as [sm_mat]'s columns, each column min-max
    normalized. *)
Definition rna_norm (sm_mat : DataFrame) (rna_mat : ExprFrame)
  : result (list (list cell)) :=
  let pat_id := pat_id rna_mat in
  let rna_mat_filtered :=
    filter (λ kv, kv.1 ∈ labels sm_mat) (genes rna_mat) in
  let* rna_mat_clean := reindex pat_id (index sm_mat) rna_mat_filtered in
  let* rna_mat_clean := select_columns rna_mat_clean (labels sm_mat) in
  Ok (min_max_normalize <$> rna_mat_clean).

(** [beta * sm_mat + (1-beta) * rna_norm]; both frames carry the same row
    and column labels at this point, so the sum is taken position by
    position. *)
Definition weighted_sum (beta : Q) (sm_mat : DataFrame) (norm : list (list cell))
  : DataFrame :=
  {| index := index sm_mat;
     columns := zip_with (λ c n, (c.1, zip_with (blend beta) c.2 n))
                         (columns sm_mat) norm |}.

(** Keyword arguments [**save_args]: only [outdir] and [job_name] are read. *)
Record SaveArgs := {
  outdir : option string;
  job_name : option string
}.

Definition save_path (a : SaveArgs) : option string :=
  match outdir a with
  | Some d =>
      match job_name a with
      | Some j => Some (d +:+ j +:+ "combined_mat.csv")
      | None => Some (d +:+ "combined_mat.csv")
      end
  | None => None
  end.

(** The part of [calc_combined_matrix] before the result is saved. *)
Definition combine (sm_mat : DataFrame) (rna_mat : ExprFrame) (beta : Q)
    (replace_nan : bool) : result DataFrame :=
  if Qlt_bool beta 0 || Qlt_bool 1 beta then
    Raise (ValueError msg_beta)
  else if isnull_any (columns sm_mat).*2 then
    Raise (ValueError msg_sm_nan)
  else if isnull_any (gene_cols rna_mat) then
    Raise (ValueError msg_rna_nan)
  else
    let sm_mat := if replace_nan then fillna_frame sm_mat else sm_mat in
    let rna_mat := if replace_nan then fillna_expr rna_mat else rna_mat in
    let* norm := rna_norm sm_mat rna_mat in
    Ok (weighted_sum beta sm_mat norm).

(** [calc_combined_matrix(sm_mat, rna_mat, beta, replace_nan, **save_args)].
    [fs] is the file system, mapping a path to the table stored there; the
    function returns its result (or the exception) and the file system it
    leaves behind. *)
Definition calc_combined_matrix (sm_mat : DataFrame) (rna_mat : ExprFrame)
    (beta : Q) (replace_nan : bool) (save_args : SaveArgs)
    (fs : gmap string DataFrame) : result DataFrame * gmap string DataFrame :=
  match combine sm_mat rna_mat beta replace_nan with
  | Raise e => (Raise e, fs)
  | Ok combined_mat =>
      match save_path save_args with
      | Some p => (Ok combined_mat, <[p := combined_mat]> fs)
      | None => (Ok combined_mat, fs)
      end
  end.

(** A column of finite numbers. *)
Definition finite_col (col : list cell) : Prop :=
  Forall (λ y, ∃ x, y = Some (Fin x)) col.

(** The finite numbers of the column are doubles. *)
Definition doubles (col : list cell) : Prop :=
  ∀ x, Some (Fin x) ∈ col → is_double x.

(** The difference of any two numbers of the column is in range: the
    range [col.max() - col.min()] does not overflow. *)
Definition no_overflow (col : list cell) : Prop :=
  ∀ x y, Some (Fin x) ∈ col → Some (Fin y) ∈ col → (rnd (x - y) <= fmax)%Q.

(** Every gene column of [rna_mat] holds finite numbers whose range does
    not overflow. *)
Definition finite_ranges (r : ExprFrame) : Prop :=
  map_Forall (λ _ c, finite_col c ∧ no_overflow c) (genes r).

(** A column of [n] finite numbers whose range does not overflow. *)
Definition clean_col (n : nat) (c : list cell) : Prop :=
  length c = n ∧ finite_col c ∧ no_overflow c.

(** Every cell of the frame is a finite double. *)
Definition double_frame (m : DataFrame) : Prop :=
  Forall (λ c, Forall (λ y, ∃ x, y = Some (Fin x) ∧ is_double x) c.2)
         (columns m).

End Frames.

(** The column holds no infinity. *)
Definition no_inf (col : list cell) : Prop :=
  (Some PInf ∉ col) ∧ (Some NInf ∉ col).

(** [m] is a least (greatest) number of the column. *)
Definition is_min (col : list cell) (m : Q) : Prop :=
  Some (Fin m) ∈ col ∧ ∀ x, Some (Fin x) ∈ col → (m <= x)%Q.
Definition is_max (col : list cell) (m : Q) : Prop :=
  Some (Fin m) ∈ col ∧ ∀ x, Some (Fin x) ∈ col → (x <= m)%Q.

(** A number in the closed unit interval. *)
Definition unit_cell (y : cell) : Prop :=
  ∃ v, y = Some (Fin v) ∧ (0 <= v <= 1)%Q.

(** The expression frame covers the mutation frame: every gene of [sm] is a
    gene column of [rna], every sample of [sm] is listed among the patient
    identifiers of [rna], and no identifier is listed twice. *)
Definition aligned (sm : DataFrame) (rna : ExprFrame) : Prop :=
  (∀ g, g ∈ labels sm → is_Some (genes rna !! g)) ∧
  (∀ s, s ∈ index sm → s ∈ pat_id rna) ∧
  NoDup (pat_id rna).

(** The cell of column [j] at row [i]. *)
Definition entry (m : DataFrame) (j i : nat) : option cell :=
  c ← columns m !! j; c.2 !! i.

Definition norm_entry (norm : list (list cell)) (j i : nat) : option cell :=
  c ← norm !! j; c !! i.

(** Two frames with the same labels whose cells agree as numbers. *)
Definition frame_eqv (m n : DataFrame) : Prop :=
  index m = index n ∧
  Forall2 (λ c d, c.1 = d.1 ∧ col_eqv c.2 d.2) (columns m) (columns n).

(** Every cell of the frame is the number 0 or the number 1. *)
Definition binary (m : DataFrame) : Prop :=
  Forall (λ c, Forall (λ x, ∃ b, x = Some (Fin b) ∧ (b == 0 ∨ b == 1)%Q) c.2)
         (columns m).

(** The normalized expression columns under [sm_mat]'s labels. *)
Definition norm_frame (sm_mat : DataFrame) (norm : list (list cell)) : DataFrame :=
  {| index := index sm_mat; columns := zip (labels sm_mat) norm |}.

(** Example inputs. *)
Definition no_save : SaveArgs := {| outdir := None; job_name := None |}.

Definition sm_three : DataFrame :=
  {| index := ["s1"; "s2"; "s3"];
     columns := [("g", [Some (Fin 1); Some (Fin 0); Some (Fin 1)])] |}.

Definition rna_two : ExprFrame :=
  {| pat_id := ["s1"; "s2"];
     genes := {[ "g" := [Some (Fin 1); Some (Fin 3)] ]} |}.

Definition rna_three : ExprFrame :=
  {| pat_id := ["s3"; "s1"; "s2"];
     genes := {[ "g" := [Some (Fin 5); Some (Fin 1); Some (Fin 3)] ]} |}.

Definition sm_missing : DataFrame :=
  {| index := ["s1"; "s2"];
     columns := [("g", [Some (Fin 1); None])] |}.

(** Two samples whose expression values are doubles far apart: their
    difference is beyond the largest double, [(2^53 - 1) * 2^971]. *)
Definition sm_two : DataFrame :=
  {| index := ["s1"; "s2"];
     columns := [("g", [Some (Fin 1); Some (Fin 1)])] |}.

Definition col_far : list cell :=
  [Some (Fin (- inject_Z (2 ^ 1023))); Some (Fin (inject_Z (2 ^ 1023)))].

Definition col_gaps : list cell :=
  [Some (Fin 1); None; Some (Fin 5); Some (Fin 3)].

Definition rna_far : ExprFrame :=
  {| pat_id := ["s1"; "s2"];
     genes := {[ "g" := col_far ]} |}.

End Combine.

(* ================================================================== *)
(** ** [load_binary_mutation_data] *)
(* ================================================================== *)

Module Mutations.
Import Combine.

(** [s.split(sep)] for a one-character separator: the fields between the
    separators, at least one. *)
Fixpoint split_on (sep : ascii) (s : string) : list string :=
  match s with
  | EmptyString => [EmptyString]
  | String c s' =>
      if Ascii.eqb c sep then EmptyString :: split_on sep s'
      else match split_on sep s' with
           | [] => [String c EmptyString]
           | w :: ws => String c w :: ws
           end
  end.

Definition tab : ascii := "009"%char.

(** [(line.split('\t')[0], line.split('\t')[1])]: a line without a tab
    has no second field. *)
Definition parse_line (line : string) : result (string * string) :=
  match split_on tab line with
  | a :: b :: _ => Ok (a, b)
  | _ => Raise IndexError
  end.

(** Insertion sort by [String.leb], the order of Python's string
    comparison on ASCII text. *)
Fixpoint insert_sorted (a : string) (l : list string) : list string :=
  match l with
  | [] => [a]
  | b :: l' => if String.leb a b then a :: b :: l' else b :: insert_sorted a l'
  end.

Definition sort_labels (l : list string) : list string :=
  foldr insert_sorted [] l.

(** The level values of a [MultiIndex]: distinct and sorted. *)
Definition levels (l : list string) : list string :=
  sort_labels (remove_dups l).

Definition msg_duplicates : string :=
  "Index contains duplicate entries, cannot reshape".
Definition msg_filetype : string :=
  "'filetype' must be either 'matrix' or 'list'.".

(** [pd.DataFrame(1, index=MultiIndex.from_tuples(pairs), columns=[0])[0]
    .unstack()]: one row per sample, one column per gene, 1 where the pair
    is listed and NaN elsewhere; a repeated pair cannot be reshaped. *)
Definition unstack (pairs : list (string * string)) : result DataFrame :=
  if decide (NoDup pairs) then
    let samples := levels pairs.*1 in
    let genes := levels pairs.*2 in
    Ok {| index := samples;
          columns :=
            (λ g, (g, (λ s, if decide ((s, g) ∈ pairs) then Some (Fin 1) else None)
                        <$> samples)) <$> genes |}
  else Raise (ValueError msg_duplicates).

Section Loader.

(** [pd.read_csv(filename, delimiter=delimiter, index_col=0).astype(int)],
    pandas' parser of a dense matrix file, is taken as given. *)
Variable read_csv_int : list string → string → result DataFrame.

(** [load_binary_mutation_data(filename, filetype, delimiter)], on the
    lines of the file ([f.read().splitlines()]). *)
Definition load_binary_mutation_data (lines : list string)
    (filetype : string) (delimiter : string) : result DataFrame :=
  if decide (filetype = "list") then
    let* binary_mat_data := traverse parse_line lines in
    let* binary_mat := unstack binary_mat_data in
    Ok (fillna_frame binary_mat)
  else if decide (filetype = "matrix") then
    read_csv_int lines delimiter
  else Raise (ValueError msg_filetype).

End Loader.

(** Example file: three mutations of two patients. *)
Definition tabbed (a b : string) : string := a +:+ String tab b.
Definition three_lines : list string :=
  [tabbed "p2" "TP53"; tabbed "p1" "KRAS"; tabbed "p1" "TP53"].

(** [c in s] for a character. *)
Fixpoint occurs (c : ascii) (s : string) : bool :=
  match s with
  | EmptyString => false
  | String d s' => Ascii.eqb d c || occurs c s'
  end.

(** The characters at which [str.splitlines] ends a line, among the first
    256 code points: LF, VT, FF, CR, FS, GS, RS and NEL. *)
Definition is_linebreak (c : ascii) : bool :=
  existsb (N.eqb (N_of_ascii c)) [10; 11; 12; 13; 28; 29; 30; 133]%N.

(** [text.splitlines()]: the lines of a text.  CR LF is one line break,
    and a text that ends in a line break has no empty last line. *)
Fixpoint splitlines (text : string) : list string :=
  match text with
  | EmptyString => []
  | String c text' =>
      if is_linebreak c then
        EmptyString ::
          (if Ascii.eqb c "013" then
             match text' with
             | String d text'' =>
                 if Ascii.eqb d "010" then splitlines text''
                 else splitlines text'
             | EmptyString => splitlines text'
             end
           else splitlines text')
      else
        match splitlines text' with
        | [] => [String c EmptyString]
        | l :: ls => String c l :: ls
        end
  end.

(** Some character of the string ends a line. *)
Fixpoint has_linebreak (s : string) : bool :=
  match s with
  | EmptyString => false
  | String c s' => is_linebreak c || has_linebreak s'
  end.

(** The order of [String.leb] as a relation. *)
Definition label_le (a b : string) : Prop := String.leb a b = true.

End Mutations.

(* ================================================================== *)
(** ** [filter_weighted_network] *)
(* ================================================================== *)

Module Edges.
Import Arith.

(** A cell of the table [pd.read_csv] returns: a number, a text, or a
    missing value. *)
Inductive value :=
| Num (x : num)
| Str (s : string)
| NaN.

(** The table, column by column; without a header line its columns are
    labelled 0, 1, 2, ... so a column's label is its position. *)
Abbreviation Table := (list (list value)).

Definition msg_header : string :=
  "Passing negative integer to header is invalid. For no header, use header=None instead".

(** [pd.read_csv(path, sep=delimiter, header=header)] on a file that holds
    the table [contents].  pandas checks [header] before it opens the
    file and refuses a negative one; the parsing itself is not modelled,
    the table read is the table the file holds. *)
Definition read_csv (header : Z) (contents : Table) : result Table :=
  if (header <? 0)%Z then Raise (ValueError msg_header) else Ok contents.

(** [score > q_score] on one cell: false on a missing value, on either
    side. *)
Definition above (q_score : option num) (v : value) : bool :=
  match q_score, v with
  | Some t, Num x => nlt t x
  | _, _ => false
  end.

(** [col[mask]]: the entries a boolean mask keeps. *)
Fixpoint keep {A} (mask : list bool) (col : list A) : list A :=
  match mask, col with
  | b :: mask, v :: col => if b then v :: keep mask col else keep mask col
  | _, _ => []
  end.

(** [data.columns[[a, b, c]]] then [data[...]]: columns by position; a
    position past the last column is an [IndexError]. *)
Definition take_columns (data : Table) (positions : list nat) : result Table :=
  traverse (λ p, match data !! p with
                 | Some c => Ok c
                 | None => Raise IndexError
                 end) positions.

Section Filter.

(** [Series.quantile(q)], the interpolated percentile numpy computes, is
    taken as given. *)
Variable quantile : list value → Q → result (option num).

(** [filter_weighted_network(network_file_path, save_path, nodeA_col,
    nodeB_col, score_col, q)]; [contents] is the table the network file
    holds.  [fs] maps a path to the table written there; the function
    returns nothing.  The file is read with [header=-1] (line 160). *)
Definition filter_weighted_network (contents : Table) (save_path : string)
    (nodeA_col nodeB_col score_col : nat) (q : Q)
    (fs : gmap string Table) : result unit * gmap string Table :=
  match
    (let* data := read_csv (-1) contents in
     let* scores := match data !! score_col with
                    | Some c => Ok c
                    | None => Raise KeyError
                    end in
     let* q_score := quantile scores q in
     let mask := above q_score <$> scores in
     let* picked := take_columns data [nodeA_col; nodeB_col; score_col] in
     Ok (keep mask <$> picked))
  with
  | Ok data_filt => (Ok (), <[save_path := data_filt]> fs)
  | Raise e => (Raise e, fs)
  end.

End Filter.

(** Example: five scored edges. *)
Definition five_edges : Table :=
  [ [Str "a"; Str "b"; Str "c"; Str "d"; Str "e"];
    [Str "b"; Str "c"; Str "d"; Str "e"; Str "a"];
    [Num (Fin 1); Num (Fin 5); Num (Fin 3); Num (Fin 2); Num (Fin 4)] ].

End Edges.

(* ================================================================== *)
(** ** [degree_shuffNet] and [label_shuffNet] *)
(* ================================================================== *)

Module Net.

(** Nodes are the strings [nx.read_edgelist] reads. *)
Abbreviation node := string.

(** A [networkx.Graph]: its adjacency [_adj], from a node to the set of its
    neighbours.  A self-loop lists the node among its own neighbours. *)
Abbreviation Graph := (gmap string (gset string)).

(** [G[u]] *)
Definition adj (G : Graph) (u : node) : gset node := default ∅ (G !! u).

(** [list(G.nodes)], also the order of [for n in G]. *)
Definition nodes (G : Graph) : list node := (map_to_list G).*1.

(** [G.degree(n)] is [len(nbrs) + (n in nbrs)]: a self-loop counts twice. *)
Definition degree (G : Graph) (n : node) : nat :=
  size (adj G n) + (if decide (n ∈ adj G n) then 1 else 0).

(** [G.edges], as [EdgeView.__iter__] yields them:
<<
    seen = {}
    for n, nbrs in self._nodes_nbrs():
        for nbr in list(nbrs):
            if nbr not in seen:
                yield (n, nbr)
        seen[n] = 1
>> *)
Fixpoint edges_from (seen : gset node) (nbrs : list (node * gset node))
  : list (node * node) :=
  match nbrs with
  | [] => []
  | (n, ns) :: rest =>
      ((λ nbr, (n, nbr)) <$> filter (λ nbr, nbr ∉ seen) (elements ns))
      ++ edges_from ({[n]} ∪ seen) rest
  end.

Definition edges (G : Graph) : list (node * node) :=
  edges_from ∅ (map_to_list G).

(** [G.add_node(n)] *)
Definition add_node (n : node) (G : Graph) : Graph :=
  match G !! n with
  | Some _ => G
  | None => <[n := ∅]> G
  end.

(** [G.add_edge(u, v)]: both nodes are added when new, then
    [_adj[u][v]] and [_adj[v][u]] are set. *)
Definition add_edge (u v : node) (G : Graph) : Graph :=
  let G := add_node v (add_node u G) in
  let G := <[u := {[v]} ∪ adj G u]> G in
  <[v := {[u]} ∪ adj G v]> G.

(** [G.remove_edge(u, v)]:
<<
    try:
        del self._adj[u][v]
        if u != v:
            del self._adj[v][u]
    except KeyError as err:
        raise NetworkXError(...)
>>
    The graph as the call leaves it, and whether the call returned. *)
Definition remove_edge (u v : node) (G : Graph) : Graph * bool :=
  if decide (v ∈ adj G u) then
    let G := <[u := adj G u ∖ {[v]}]> G in
    if decide (u = v) then (G, true)
    else if decide (u ∈ adj G v) then (<[v := adj G v ∖ {[u]}]> G, true)
    else (G, false)
  else (G, false).

(** The undirected representation: adjacency is symmetric. *)
Definition wf (G : Graph) : Prop := ∀ u v, v ∈ adj G u → u ∈ adj G v.

(** No node is its own neighbour. *)
Definition loopless (G : Graph) : Prop := ∀ u, u ∉ adj G u.

(** *** The store and the random generator

    Graph objects live in a store and are passed by reference; Python's
    global [random] generator is a source of numbers read at an advancing
    position.  [skipped] counts the draws a swap loop gave up on
    ([continue]); nothing in the modelled code reads it. *)
Abbreviation loc := nat.

Record state := {
  heap : list Graph;
  rng : nat → nat;
  pos : nat;
  skipped : nat
}.

Inductive outcome (A : Type) :=
| Ret (a : A)
| Exn (e : exn)
| OutOfFuel.
Arguments Ret {A} a.
Arguments Exn {A} e.
Arguments OutOfFuel {A}.

Definition M (A : Type) : Type := state → outcome A * state.

Definition ret {A} (a : A) : M A := λ st, (Ret a, st).
Definition raise {A} (e : exn) : M A := λ st, (Exn e, st).
Definition bind {A B} (m : M A) (k : A → M B) : M B := λ st,
  match m st with
  | (Ret a, st') => k a st'
  | (Exn e, st') => (Exn e, st')
  | (OutOfFuel, st') => (OutOfFuel, st')
  end.

Notation "'let!' x ':=' m 'in' k" := (bind m (λ x, k))
  (at level 10, x name, m at level 100, k at level 200).

(** [try: m  except: h] with a bare [except], which catches every
    exception. *)
Definition try_except {A} (m : M A) (h : M A) : M A := λ st,
  match m st with
  | (Exn _, st') => h st'
  | r => r
  end.

Definition with_heap (h : list Graph) (st : state) : state :=
  {| heap := h; rng := rng st; pos := pos st; skipped := skipped st |}.

(** Reading the object behind a reference. *)
Definition get_graph (G : loc) : M Graph := λ st,
  match heap st !! G with
  | Some g => (Ret g, st)
  | None => (Exn TypeError, st)
  end.

(** A new object. *)
Definition alloc (g : Graph) : M loc := λ st,
  (Ret (length (heap st)), with_heap (heap st ++ [g]) st).

(** [G.copy()] *)
Definition copy (G : loc) : M loc :=
  let! g := get_graph G in alloc g.

(** In-place [G.add_edge(u, v)] and [G.remove_edge(u, v)]. *)
Definition add_edge_at (G : loc) (u v : node) : M unit := λ st,
  match heap st !! G with
  | Some g => (Ret (), with_heap (<[G := add_edge u v g]> (heap st)) st)
  | None => (Exn TypeError, st)
  end.

Definition remove_edge_at (G : loc) (u v : node) : M unit := λ st,
  match heap st !! G with
  | Some g =>
      let '(g', ok) := remove_edge u v g in
      (if ok then Ret () else Exn NetworkXError,
       with_heap (<[G := g']> (heap st)) st)
  | None => (Exn TypeError, st)
  end.

(** [random._randbelow(n)]: the next number of the source, below [n]. *)
Definition randbelow (n : nat) : M nat := λ st,
  (Ret (rng st (pos st) mod n),
   {| heap := heap st; rng := rng st; pos := S (pos st); skipped := skipped st |}).

(** [random.choice(seq)] *)
Definition choice {A} (seq : list A) : M A :=
  match seq with
  | [] => raise IndexError
  | _ =>
      let! i := randbelow (length seq) in
      match seq !! i with
      | Some a => ret a
      | None => raise IndexError
      end
  end.

(** A [continue] of the swap loop. *)
Definition note_skip : M unit := λ st,
  (Ret (),
   {| heap := heap st; rng := rng st; pos := pos st; skipped := S (skipped st) |}).

(** The swap proper, inside the loop of [networkx.double_edge_swap]:
<<
        if (x not in G[u]) and (y not in G[v]):  # don't create parallel edges
            G.add_edge(u, x)
            G.add_edge(v, y)
            G.remove_edge(u, v)
            G.remove_edge(x, y)
            swapcount += 1
>>
    It returns the new [swapcount]. *)
Definition try_swap (G : loc) (u x v y : node) (swapcount : nat) : M nat :=
  let! g := get_graph G in
  if decide ((x ∉ adj g u) ∧ (y ∉ adj g v)) then
    let! _ := add_edge_at G u x in
    let! _ := add_edge_at G v y in
    let! _ := remove_edge_at G u v in
    let! _ := remove_edge_at G x y in
    ret (swapcount + 1)
  else ret swapcount.

(** The loop of [networkx.double_edge_swap] (library code, networkx 3.x):
<<
    while swapcount < nswap:
        (ui, xi) = discrete_sequence(2, cdistribution=cdf, seed=seed)
        if ui == xi:
            continue  # same source, skip
        u = keys[ui]  # convert index to label
        x = keys[xi]
        v = seed.choice(list(G[u]))
        y = seed.choice(list(G[x]))
        if v == y:
            continue  # same target, skip
        if (x not in G[u]) and (y not in G[v]):
            ...
        if n >= max_tries:
            raise nx.NetworkXAlgorithmError(e)
        n += 1
    return G
>>
    The two source indices are drawn by degree; here any index may come
    out, which only adds behaviours.  [fuel] bounds the number of
    iterations, as a [continue] does not count against [max_tries]. *)
Fixpoint swap_loop (fuel : nat) (G : loc) (keys : list node)
    (nswap max_tries n swapcount : nat) : M unit :=
  if decide (swapcount < nswap) then
    match fuel with
    | 0 => λ st, (OutOfFuel, st)
    | S fuel =>
        let! ui := randbelow (length keys) in
        let! xi := randbelow (length keys) in
        if decide (ui = xi) then
          let! _ := note_skip in
          swap_loop fuel G keys nswap max_tries n swapcount
        else
          let u := default ""%string (keys !! ui) in
          let x := default ""%string (keys !! xi) in
          let! g := get_graph G in
          let! v := choice (elements (adj g u)) in
          let! y := choice (elements (adj g x)) in
          if decide (v = y) then
            let! _ := note_skip in
            swap_loop fuel G keys nswap max_tries n swapcount
          else
            let! swapcount := try_swap G u x v y swapcount in
            if decide (max_tries ≤ n) then raise NetworkXAlgorithmError
            else swap_loop fuel G keys nswap max_tries (n + 1) swapcount
    end
  else ret ().

(** [networkx.double_edge_swap(G, nswap, max_tries)] on an undirected
    graph:
<<
    if nswap > max_tries:
        raise nx.NetworkXError("Number of swaps > number of tries allowed.")
    if len(G) < 4:
        raise nx.NetworkXError("Graph has fewer than four nodes.")
    if len(G.edges) < 2:
        raise nx.NetworkXError("Graph has fewer than 2 edges")
    n = 0
    swapcount = 0
    keys, degrees = nodes of G, degrees of G
    cdf = nx.utils.cumulative_distribution(degrees)
>>
    (networkx 2.x has no test on the number of edges; there the cumulative
    distribution divides by the sum of the degrees.) *)
Definition double_edge_swap (fuel : nat) (G : loc) (nswap max_tries : nat)
  : M unit :=
  let! g := get_graph G in
  if decide (max_tries < nswap) then raise NetworkXError
  else if decide (size g < 4) then raise NetworkXError
  else if decide (length (edges g) < 2) then raise NetworkXError
  else
    let keys := nodes g in
    if decide (sum_list (degree g <$> keys) = 0) then raise ZeroDivisionError
    else swap_loop fuel G keys nswap max_tries 0 0.

(** The report printed under [verbose] divides by [float(edge_len)]. *)
Definition report_similarity (verbose : bool) (edge_len : nat) : M unit :=
  if verbose then
    if decide (edge_len = 0) then raise ZeroDivisionError else ret ()
  else ret ().

(** [degree_shuffNet(network, verbose)] *)
Definition degree_shuffNet (fuel : nat) (network : loc) (verbose : bool)
  : M loc :=
  let! g := get_graph network in
  let edge_len := length (edges g) in
  let! shuff_net := copy network in
  let! _ := try_except
              (double_edge_swap fuel shuff_net edge_len (edge_len * 10))
              (ret ()) in
  let! _ := report_similarity verbose edge_len in
  ret shuff_net.

(** [x[i], x[j] = x[j], x[i]] *)
Definition exchange (i j : nat) (x : list node) : list node :=
  match x !! i, x !! j with
  | Some xi, Some xj => <[j := xi]> (<[i := xj]> x)
  | _, _ => x
  end.

(** [random.shuffle(x)]:
<<
    for i in reversed(range(1, len(x))):
        j = randbelow(i + 1)
        x[i], x[j] = x[j], x[i]
>> *)
Fixpoint shuffle_from (i : nat) (x : list node) : M (list node) :=
  match i with
  | 0 => ret x
  | S i' =>
      let! j := randbelow (i + 1) in
      shuffle_from i' (exchange i j x)
  end.

Definition shuffle (x : list node) : M (list node) :=
  shuffle_from (length x - 1) x.

(** [for i in range(k): random.shuffle(x)] *)
Fixpoint shuffle_times (k : nat) (x : list node) : M (list node) :=
  match k with
  | 0 => ret x
  | S k => let! x := shuffle x in shuffle_times k x
  end.

(** [{keys[i]: values[i] for i in range(len(keys))}]: a later item
    replaces an earlier one with the same key. *)
Definition dict_of (keys values : list node) : gmap node node :=
  list_to_map (reverse (zip keys values)).

(** [mapping.get(n, n)] *)
Definition relabel (mapping : gmap node node) (n : node) : node :=
  default n (mapping !! n).

(** [networkx.relabel_nodes(G, mapping, copy=True)] builds a new graph:
<<
    H = G.__class__()
    H.add_nodes_from(mapping.get(n, n) for n in G)
    new_edges = [(mapping.get(n1, n1), mapping.get(n2, n2), d.copy())
                 for (n1, n2, d) in G.edges(data=True)]
    H.add_edges_from(new_edges)
    return H
>> *)
Definition relabel_copy (g : Graph) (mapping : gmap node node) : Graph :=
  let H := foldl (λ H n, add_node (relabel mapping n) H) ∅ (nodes g) in
  foldl (λ H e, add_edge (relabel mapping e.1) (relabel mapping e.2) H)
        H (edges g).

Definition relabel_nodes (G : loc) (mapping : gmap node node) : M loc :=
  let! g := get_graph G in alloc (relabel_copy g mapping).

(** [label_shuffNet(network, verbose)].  [shuff_nodes] starts as a copy of
    [network_nodes] ([list(network_nodes)]), so the shuffles leave
    [network_nodes] in its order. *)
Definition label_shuffNet (network : loc) (verbose : bool) : M loc :=
  let! g := get_graph network in
  let edge_len := length (edges g) in
  let network_nodes := nodes g in
  let! shuff_nodes := shuffle_times 10 network_nodes in
  let network_relabel_map := dict_of network_nodes shuff_nodes in
  let! shuff_net := relabel_nodes network network_relabel_map in
  let! _ := report_similarity verbose edge_len in
  ret shuff_net.

(** The graph of an edge list, as [nx.read_edgelist] builds it. *)
Definition graph_of (es : list (node * node)) : Graph :=
  foldl (λ G e, add_edge e.1 e.2 G) ∅ es.

(** The indicator of a decidable proposition. *)
Definition ind (P : Prop) `{Decision P} : nat := if decide P then 1 else 0.

(** The degree of a node that [G.edges] still has to account for, once the
    nodes in [seen] are done. *)
Definition deg_from (seen : gset node) (p : node * gset node) : nat :=
  size (p.2 ∖ seen) + ind (p.1 ∈ p.2).

(** *** Specifications of store computations

    [wp m Q st]: run from [st], [m] ends in an outcome and a state that
    satisfy [Q]. *)
Definition wp {A} (m : M A) (Q : outcome A → state → Prop) (st : state) : Prop :=
  Q (m st).1 (m st).2.

(** What a step may change: only the object at [G] (and the generator). *)
Definition frame (G : loc) (st st' : state) : Prop :=
  length (heap st') = length (heap st) ∧
  ∀ l, l ≠ G → heap st' !! l = heap st !! l.

(** The object at [G] is a symmetric graph without self-loops, with the
    nodes and the degrees of [g0]. *)
Definition good (g0 : Graph) (G : loc) (h : list Graph) : Prop :=
  ∃ g, h !! G = Some g ∧ wf g ∧ loopless g ∧ dom g = dom g0 ∧
       ∀ n, degree g n = degree g0 n.

(** What a run of the swap loop guarantees, from state [st] on. *)
Definition loop_post (G : loc) (max_tries fuel n : nat) (st : state)
    (r : outcome unit) (st' : state) : Prop :=
  frame G st st' ∧
  (∀ g0, good g0 G (heap st) → good g0 G (heap st')) ∧
  skipped st ≤ skipped st' ∧
  (r = OutOfFuel → n ≤ max_tries →
   fuel + skipped st + n ≤ skipped st' + max_tries).

(** What a call of [double_edge_swap] guarantees, however it ends. *)
Definition swap_post (G : loc) (max_tries fuel : nat) (st : state)
    (r : outcome unit) (st' : state) : Prop :=
  frame G st st' ∧
  (∀ g0, good g0 G (heap st) → good g0 G (heap st')) ∧
  skipped st ≤ skipped st' ∧
  (r = OutOfFuel → fuel + skipped st ≤ skipped st' + max_tries).

(** [f] carries [g] onto [h]: a bijection of the labels that maps the
    nodes of [g] onto the nodes of [h] and edges to edges, both ways. *)
Definition isomorphism (f : node → node) (g h : Graph) : Prop :=
  Inj (=) (=) f ∧
  (∀ n', n' ∈ dom h ↔ ∃ n, n ∈ dom g ∧ n' = f n) ∧
  (∀ a b, b ∈ adj g a ↔ f b ∈ adj h (f a)).

(** The graph [label_shuffNet] returns for [g]: some permutation [f] of
    the node labels of [g] carries [g] onto it. *)
Definition relabelled (g h : Graph) : Prop :=
  wf h ∧
  ∃ f, isomorphism f g h ∧
       (∀ n, n ∈ dom g → f n ∈ dom g) ∧
       (∀ n', n' ∈ dom g → ∃ n, n ∈ dom g ∧ n' = f n).

(** Example graphs and random sources. *)
Definition two_loops : Graph := graph_of [("a", "a"); ("b", "b"); ("c", "d")].
Definition path5 : Graph :=
  graph_of [("a", "b"); ("b", "c"); ("c", "d"); ("d", "e")].

Definition mix : nat → nat := λ k, (k * 5 + k / 3) mod 11.

Definition store (g : Graph) (numbers : nat → nat) : state :=
  {| heap := [g]; rng := numbers; pos := 0; skipped := 0 |}.

(** [load_network_file] and the shapes of its results. *)
(** [load_network_file(network_file_path, delimiter, degree_shuffle,
    label_shuffle, verbose)], on the edges [nx.read_edgelist(...,
    data=False)] reads from the file (the first two fields of each line):
    the graph is built edge by edge and shuffled as asked. *)
Definition load_network_file (fuel : nat) (edge_list : list (node * node))
    (degree_shuffle label_shuffle verbose : bool) : M loc :=
  let! network := alloc (graph_of edge_list) in
  let! network :=
    (if degree_shuffle then degree_shuffNet fuel network verbose
     else ret network) in
  let! network :=
    (if label_shuffle then label_shuffNet network verbose
     else ret network) in
  ret network.

(** Two graphs with the same degree sequence up to the names of the nodes:
    a bijection of the labels carries the nodes of [g] onto the nodes of
    [h] and keeps every degree. *)
Definition same_degree_sequence (g h : Graph) : Prop :=
  ∃ f : node → node,
    Inj (=) (=) f ∧
    (∀ n', n' ∈ dom h ↔ ∃ n, n ∈ dom g ∧ n' = f n) ∧
    ∀ n, degree h (f n) = degree g n.

(** A store without objects. *)
Definition empty_store (numbers : nat → nat) : state :=
  {| heap := []; rng := numbers; pos := 0; skipped := 0 |}.

End Net.

(* ================================================================== *)
(** ** [process_TCGA_MAF] *)
(* ================================================================== *)

Module Maf.
Import Mutations.

(** The columns of the MAF table that [process_TCGA_MAF] reads, row by
    row; a missing cell is [None].  Barcodes and gene symbols are text,
    Entrez identifiers are numbers, as [pd.read_csv] types them. *)
Record MafRow := {
  Tumor_Sample_Barcode : option string;
  Hugo_Symbol : option string;
  Entrez_Gene_Id : option Z
}.

(** [pat[:12]] *)
Definition trim (pat : string) : string := String.substring 0 12 pat.

(** [barcode in s] on strings: [barcode] occurs somewhere in [s]. *)
Fixpoint is_substring (barcode s : string) : bool :=
  String.prefix barcode s ||
  match s with
  | EmptyString => false
  | String _ s' => is_substring barcode s'
  end.

Fixpoint insert_by {A} (leb : A → A → bool) (a : A) (l : list A) : list A :=
  match l with
  | [] => [a]
  | b :: l' => if leb a b then a :: b :: l' else b :: insert_by leb a l'
  end.

Definition sort_by {A} (leb : A → A → bool) (l : list A) : list A :=
  foldr (insert_by leb) [] l.

Section Keys.
Context {G : Type} `{EqDecision G}.
Variable gene_leb : G → G → bool.

(** The order of the group keys: by barcode, then by gene. *)
Definition pair_leb (x y : string * G) : bool :=
  if decide (x.1 = y.1) then gene_leb x.2 y.2 else String.leb x.1 y.1.

(** The rows with both keys present; [groupby] drops the others. *)
Definition complete (keys : list (option string * option G)) : list (string * G) :=
  omap (λ k, a ← k.1; b ← k.2; Some (a, b)) keys.

(** [list(TCGA_MAF.groupby([...]).size().index)]: the distinct key pairs,
    sorted. *)
Definition groupby_size_index (keys : list (option string * option G))
  : list (string * G) :=
  sort_by pair_leb (remove_dups (complete keys)).

(** [TCGA_sm_mat.index] after trimming: one label per distinct barcode. *)
Definition trimmed_index (TCGA_sm : list (string * G)) : list string :=
  trim <$> levels TCGA_sm.*1.

(** [index.value_counts()] of one label. *)
Definition value_count (ids : list string) (id : string) : nat :=
  length (filter (λ x, x = id) ids).

(** [dup_IDs]: the trimmed labels counted more than once (in the order
    [value_counts] lists them, which the list branch does not depend
    on). *)
Definition dup_IDs (TCGA_sm : list (string * G)) : list string :=
  filter (λ id, 1 < value_count (trimmed_index TCGA_sm) id)
         (remove_dups (trimmed_index TCGA_sm)).

(** [[i for i in index_list if not any([barcode in i[0] ...
    for barcode in dup_IDs])]] *)
Definition index_list_filt (TCGA_sm : list (string * G)) : list (string * G) :=
  filter (λ i, existsb (λ barcode, is_substring barcode i.1) (dup_IDs TCGA_sm)
               = false)
         TCGA_sm.

End Keys.

(** [sm[0][:12]+'\t'+sm[1]], one element per line written. *)
Definition write_list (pairs : list (string * string)) : list string :=
  (λ sm, trim sm.1 +:+ String tab sm.2) <$> pairs.

Section Process.

(** What pandas makes of [unstack] on a series without entries (a MAF
    table without a complete row) is taken as given, and so is the text
    [to_csv] writes for the dense matrix. *)
Variable unstack_empty : result unit.
Variable matrix_csv : list MafRow → string → list string.

Definition reshaped {G} (TCGA_sm : list (string * G)) : result unit :=
  match TCGA_sm with
  | [] => unstack_empty
  | _ => Ok ()
  end.

(** [process_TCGA_MAF(maf_file, save_path, filetype, gene_naming)], on the
    table read from the MAF file.  [fs] maps a path to the lines of the
    file there.  With Entrez naming the gene is a number, so the first
    line to write fails on [str + int], after the file has been opened
    for writing. *)
Definition process_TCGA_MAF (maf : list MafRow)
    (save_path filetype gene_naming : string) (fs : gmap string (list string))
  : result unit * gmap string (list string) :=
  if decide (gene_naming = "Entrez") then
    let TCGA_sm :=
      groupby_size_index Z.leb
        ((λ r, (Tumor_Sample_Barcode r, Entrez_Gene_Id r)) <$> maf) in
    match reshaped TCGA_sm with
    | Raise e => (Raise e, fs)
    | Ok _ =>
        if decide (filetype = "list") then
          match index_list_filt TCGA_sm with
          | [] => (Ok (), <[save_path := []]> fs)
          | _ :: _ => (Raise TypeError, <[save_path := []]> fs)
          end
        else (Ok (), <[save_path := matrix_csv maf gene_naming]> fs)
    end
  else
    let TCGA_sm :=
      groupby_size_index String.leb
        ((λ r, (Tumor_Sample_Barcode r, Hugo_Symbol r)) <$> maf) in
    match reshaped TCGA_sm with
    | Raise e => (Raise e, fs)
    | Ok _ =>
        if decide (filetype = "list") then
          (Ok (), <[save_path := write_list (index_list_filt TCGA_sm)]> fs)
        else (Ok (), <[save_path := matrix_csv maf gene_naming]> fs)
    end.

End Process.

(** The text of a file written line by line, each line followed by
    ['\n']. *)
Definition file_text (lines : list string) : string :=
  foldr (λ line text, line +:+ String "010" text) EmptyString lines.

(** A row of the table lists gene [g] for barcode [bc]. *)
Definition listed (maf : list MafRow) (bc g : string) : Prop :=
  ∃ r, r ∈ maf ∧ Tumor_Sample_Barcode r = Some bc ∧ Hugo_Symbol r = Some g.

Definition listed_entrez (maf : list MafRow) (bc : string) (g : Z) : Prop :=
  ∃ r, r ∈ maf ∧ Tumor_Sample_Barcode r = Some bc ∧ Entrez_Gene_Id r = Some g.

(** Two different barcodes of the table have the same first twelve
    characters, and these occur in [bc]. *)
Definition clashes (barcodes : list string) (bc : string) : Prop :=
  ∃ bc1 bc2, bc1 ∈ barcodes ∧ bc2 ∈ barcodes ∧ bc1 ≠ bc2 ∧
             trim bc1 = trim bc2 ∧ is_substring (trim bc1) bc = true.

Definition barcodes (maf : list MafRow) : list string :=
  omap (λ r, bc ← Tumor_Sample_Barcode r; _ ← Hugo_Symbol r; Some bc) maf.
Definition barcodes_entrez (maf : list MafRow) : list string :=
  omap (λ r, bc ← Tumor_Sample_Barcode r; _ ← Entrez_Gene_Id r; Some bc) maf.

(** Sample [s] (a trimmed barcode) keeps gene [g]: a row lists [g] for a
    barcode that starts with [s] and does not clash. *)
Definition kept (maf : list MafRow) (s g : string) : Prop :=
  ∃ bc, listed maf bc g ∧ s = trim bc ∧ ¬ clashes (barcodes maf) bc.

(** An example table: two samples of one patient, and one of another. *)
Definition maf_row (bc g : string) (e : Z) : MafRow :=
  {| Tumor_Sample_Barcode := Some bc; Hugo_Symbol := Some g;
     Entrez_Gene_Id := Some e |}.
Definition maf_three : list MafRow :=
  [ maf_row "TCGA-AA-0001-01A" "TP53" 7157;
    maf_row "TCGA-AA-0001-02A" "KRAS" 3845;
    maf_row "TCGA-BB-0002-01A" "TP53" 7157;
    maf_row "TCGA-BB-0002-01A" "TP53" 7157;
    maf_row "TCGA-BB-0002-01A" "EGFR" 1956 ].

End Maf.

(* ================================================================== *)
(** ** Facts about the numbers *)
(* ================================================================== *)

Module ArithFacts.
Import Arith.

Lemma Qlt_bool_iff a b : Qlt_bool a b = true ↔ (a < b)%Q.
Proof.
  unfold Qlt_bool. rewrite negb_true_iff. split.
  - intros H. apply Qnot_le_lt. intros Hle. apply Qle_bool_iff in Hle. congruence.
  - intros H. destruct (Qle_bool b a) eqn:E; [|done].
    apply Qle_bool_iff in E. exfalso. by apply (Qlt_not_le a b).
Qed.

Section Laws.
Context {R : Rounding}.

Lemma fmax_pos : (0 <= fmax)%Q.
Proof. pose proof fmax_ge_1. lra. Qed.

Lemma rnd_nonneg q : (0 <= q)%Q → (0 <= rnd q)%Q.
Proof.
  intros H. eapply Qle_trans; [|apply (rnd_mono _ _ H)].
  pose proof rnd_0. lra.
Qed.

Lemma rnd_le_1 q : (q <= 1)%Q → (rnd q <= 1)%Q.
Proof.
  intros H. eapply Qle_trans; [apply (rnd_mono _ _ H)|].
  pose proof rnd_1. lra.
Qed.

Lemma rnd_zero q : (q == 0)%Q → (rnd q == 0)%Q.
Proof. intros H. rewrite (rnd_proper _ _ H). apply rnd_0. Qed.

Lemma rnd_one q : (q == 1)%Q → (rnd q == 1)%Q.
Proof. intros H. rewrite (rnd_proper _ _ H). apply rnd_1. Qed.

Lemma rnd_double q x : (q == x)%Q → (rnd x == x)%Q → (rnd q == x)%Q.
Proof. intros H Hx. by rewrite (rnd_proper _ _ H). Qed.

(** A result in range is the rounded number. *)
Lemma round_fin q :
  (- fmax <= rnd q <= fmax)%Q → round q = Fin (rnd q).
Proof.
  intros [H1 H2]. unfold round.
  apply Qle_bool_iff in H1, H2. by rewrite H1, H2.
Qed.

Lemma round_unit q :
  (0 <= q <= 1)%Q → round q = Fin (rnd q) ∧ (0 <= rnd q <= 1)%Q.
Proof.
  intros [H0 H1]. pose proof (rnd_nonneg q H0). pose proof (rnd_le_1 q H1).
  pose proof fmax_ge_1. split; [|done]. apply round_fin. lra.
Qed.

Lemma round_overflow q : (fmax < rnd q)%Q → round q = PInf.
Proof.
  intros H. unfold round. destruct (Qle_bool (rnd q) fmax) eqn:E; [|done].
  apply Qle_bool_iff in E. lra.
Qed.

End Laws.

(** *** Powers of two and binades *)

Lemma pow2_pos e : (0 < pow2 e)%Q.
Proof. apply Qpower_0_lt. reflexivity. Qed.

Lemma pow2_add a b : (pow2 (a + b) == pow2 a * pow2 b)%Q.
Proof. apply Qpower_plus. discriminate. Qed.

Lemma pow2_sub a b : (pow2 (a - b) == pow2 a / pow2 b)%Q.
Proof. apply Qpower_minus. discriminate. Qed.

Lemma pow2_le a b : (a <= b)%Z → (pow2 a <= pow2 b)%Q.
Proof. intros H. apply Qpower_le_compat_l; [done|discriminate]. Qed.

Lemma pow2_lt a b : (a < b)%Z → (pow2 a < pow2 b)%Q.
Proof. intros H. apply Qpower_lt_compat_l; [done|reflexivity]. Qed.

Lemma pow2_lt_inv a b : (pow2 a < pow2 b)%Q → (a < b)%Z.
Proof. intros H. eapply Qpower_lt_compat_l_inv; [exact H|reflexivity]. Qed.

Lemma pow2_le_inv a b : (pow2 a <= pow2 b)%Q → (a <= b)%Z.
Proof. intros H. eapply Qpower_le_compat_l_inv; [exact H|reflexivity]. Qed.

Lemma pow2_Z n : (0 <= n)%Z → (pow2 n == inject_Z (2 ^ n))%Q.
Proof. intros H. unfold pow2. by rewrite Zpower_Qpower. Qed.

Lemma pow2_0 : (pow2 0 == 1)%Q.
Proof. reflexivity. Qed.

Lemma pow2_succ e : (pow2 (e + 1) == 2 * pow2 e)%Q.
Proof. rewrite pow2_add. change (pow2 1) with 2%Q. ring. Qed.

(** The binade of a positive number is unique. *)
Lemma binade_unique q e e' :
  (pow2 e <= q < pow2 (e + 1))%Q → (pow2 e' <= q < pow2 (e' + 1))%Q → e = e'.
Proof.
  intros [H1 H2] [H3 H4].
  assert (pow2 e < pow2 (e' + 1))%Q as Ha by lra.
  assert (pow2 e' < pow2 (e + 1))%Q as Hb by lra.
  apply pow2_lt_inv in Ha, Hb. lia.
Qed.

Lemma Z_log2_bounds n : (0 < n)%Z → (2 ^ Z.log2 n <= n < 2 ^ (Z.log2 n + 1))%Z.
Proof. intros H. pose proof (Z.log2_spec n H). lia. Qed.

Lemma ilog2_spec q : (0 < q)%Q → (pow2 (ilog2 q) <= q < pow2 (ilog2 q + 1))%Q.
Proof.
  intros Hq. destruct q as [n d]. unfold ilog2. simpl Qnum. simpl Qden.
  assert (0 < n)%Z as Hn.
  { unfold Qlt in Hq. simpl in Hq. lia. }
  set (a := Z.log2 n). set (b := Z.log2 (Z.pos d)).
  pose proof (Z_log2_bounds n Hn) as [Ha1 Ha2]. fold a in Ha1, Ha2.
  pose proof (Z_log2_bounds (Z.pos d) ltac:(lia)) as [Hb1 Hb2]. fold b in Hb1, Hb2.
  assert (0 <= a)%Z as Ha0 by apply Z.log2_nonneg.
  assert (0 <= b)%Z as Hb0 by apply Z.log2_nonneg.
  assert (n # d == inject_Z n / inject_Z (Z.pos d))%Q as Eq by apply Qmake_Qdiv.
  assert (pow2 a <= inject_Z n)%Q as A1.
  { rewrite pow2_Z by done. by rewrite <- Zle_Qle. }
  assert (inject_Z n < pow2 (a + 1))%Q as A2.
  { rewrite pow2_Z by lia. by rewrite <- Zlt_Qlt. }
  assert (pow2 b <= inject_Z (Z.pos d))%Q as B1.
  { rewrite pow2_Z by done. by rewrite <- Zle_Qle. }
  assert (inject_Z (Z.pos d) < pow2 (b + 1))%Q as B2.
  { rewrite pow2_Z by lia. by rewrite <- Zlt_Qlt. }
  assert (0 < inject_Z (Z.pos d))%Q as Hd by reflexivity.
  pose proof (pow2_pos b) as Pb. pose proof (pow2_pos (b + 1)) as Pb1.
  pose proof (pow2_pos a) as Pa.
  (* pow2 (a - b - 1) < q < pow2 (a - b + 1) *)
  assert (pow2 (a - b - 1) < n # d)%Q as Lo.
  { rewrite Eq. apply Qlt_shift_div_l; [done|].
    replace (a - b - 1)%Z with (a - (b + 1))%Z by lia. rewrite pow2_sub.
    apply Qlt_le_trans with (pow2 a / pow2 (b + 1) * pow2 (b + 1))%Q.
    - apply Qmult_lt_l; [|done]. apply Qlt_shift_div_l; [done|]. nra.
    - assert (pow2 a / pow2 (b + 1) * pow2 (b + 1) == pow2 a)%Q as ->
        by (field; lra). done. }
  assert (n # d < pow2 (a - b + 1))%Q as Hi.
  { rewrite Eq. apply Qlt_shift_div_r; [done|].
    replace (a - b + 1)%Z with (a + 1 - b)%Z by lia. rewrite pow2_sub.
    apply Qlt_le_trans with (pow2 (a + 1) / pow2 b * pow2 b)%Q.
    - assert (pow2 (a + 1) / pow2 b * pow2 b == pow2 (a + 1))%Q as ->
        by (field; lra). done.
    - apply Qmult_le_l; [|done]. apply Qlt_shift_div_l; [done|].
      pose proof (pow2_pos (a + 1)). nra. }
  destruct (Qle_bool (pow2 (a - b)) (n # d)) eqn:E.
  - apply Qle_bool_iff in E. done.
  - assert (n # d < pow2 (a - b))%Q as Hlt.
    { apply Qnot_le_lt. intros H. apply Qle_bool_iff in H. congruence. }
    replace (a - b - 1 + 1)%Z with (a - b)%Z by lia. split; [lra|done].
Qed.

Lemma ilog2_unique q e :
  (pow2 e <= q < pow2 (e + 1))%Q → ilog2 q = e.
Proof.
  intros H. assert (0 < q)%Q as Hq by (pose proof (pow2_pos e); lra).
  exact (binade_unique q _ _ (ilog2_spec q Hq) H).
Qed.

Lemma ilog2_proper x y : (0 < x)%Q → (x == y)%Q → ilog2 x = ilog2 y.
Proof.
  intros Hx E. apply ilog2_unique. rewrite E.
  apply ilog2_spec. by rewrite <- E.
Qed.

Lemma ilog2_mono x y : (0 < x)%Q → (x <= y)%Q → (ilog2 x <= ilog2 y)%Z.
Proof.
  intros Hx Hxy. assert (0 < y)%Q as Hy by lra.
  destruct (ilog2_spec x Hx) as [H1 _]. destruct (ilog2_spec y Hy) as [_ H2].
  assert (pow2 (ilog2 x) < pow2 (ilog2 y + 1))%Q as H by lra.
  apply pow2_lt_inv in H. lia.
Qed.

(** *** Rounding to the nearest integer, ties to even *)

Lemma rne_proper x y : (x == y)%Q → rne x = rne y.
Proof.
  intros E. unfold rne. rewrite (Qfloor_comp _ _ E).
  assert (x - inject_Z (Qfloor y) == y - inject_Z (Qfloor y))%Q as -> by (rewrite E; reflexivity).
  reflexivity.
Qed.

Lemma rne_floor q : (Qfloor q <= rne q <= Qfloor q + 1)%Z.
Proof.
  unfold rne. destruct (_ ?= _)%Q; [destruct (Z.even _)|..]; lia.
Qed.

Lemma rne_int n : rne (inject_Z n) = n.
Proof.
  unfold rne. rewrite Qfloor_Z.
  assert ((inject_Z n - inject_Z n ?= 1 # 2)%Q = Lt) as ->; [|done].
  apply Qlt_alt. assert (inject_Z n - inject_Z n == 0)%Q as -> by ring. reflexivity.
Qed.

Lemma rne_ge_int q n : (inject_Z n <= q)%Q → (n <= rne q)%Z.
Proof.
  intros H. apply Qfloor_resp_le in H. rewrite Qfloor_Z in H.
  pose proof (rne_floor q). lia.
Qed.

Lemma floor_lt_int q n : (q < inject_Z n)%Q → (Qfloor q < n)%Z.
Proof.
  intros H. pose proof (Qfloor_le q) as Hf.
  assert (inject_Z (Qfloor q) < inject_Z n)%Q as Hlt by lra.
  by rewrite <- Zlt_Qlt in Hlt.
Qed.

Lemma rne_le_int q n : (q <= inject_Z n)%Q → (rne q <= n)%Z.
Proof.
  intros H. destruct (Qlt_le_dec q (inject_Z n)) as [Hlt|Hge].
  - apply floor_lt_int in Hlt. pose proof (rne_floor q). lia.
  - assert (q == inject_Z n)%Q as E by lra.
    rewrite (rne_proper _ _ E), rne_int. lia.
Qed.

Lemma rne_mono x y : (x <= y)%Q → (rne x <= rne y)%Z.
Proof.
  intros H. pose proof (Qfloor_resp_le _ _ H) as Hf.
  destruct (decide (Qfloor x = Qfloor y)) as [E|N].
  - unfold rne. rewrite E.
    destruct (Qcompare_spec (x - inject_Z (Qfloor y)) (1 # 2)) as [Hx|Hx|Hx];
      destruct (Qcompare_spec (y - inject_Z (Qfloor y)) (1 # 2)) as [Hy|Hy|Hy];
      try destruct (Z.even _); try lia; exfalso; lra.
  - pose proof (rne_floor x). pose proof (rne_floor y). lia.
Qed.

Lemma rne_near q : (q - (1 # 2) <= inject_Z (rne q) <= q + (1 # 2))%Q.
Proof.
  pose proof (Qfloor_le q) as H1. pose proof (Qlt_floor q) as H2.
  rewrite inject_Z_plus in H2. change (inject_Z 1) with 1%Q in H2.
  unfold rne.
  destruct (Qcompare_spec (q - inject_Z (Qfloor q)) (1 # 2)) as [H|H|H];
    [destruct (Z.even _)|..]; rewrite ?inject_Z_plus;
    change (inject_Z 1) with 1%Q; lra.
Qed.

Lemma rne_nonneg q : (0 <= q)%Q → (0 <= rne q)%Z.
Proof. intros H. by apply rne_ge_int. Qed.

(** *** Rounding a positive number *)

Lemma quantum_proper x y : (0 < x)%Q → (x == y)%Q → quantum x = quantum y.
Proof. intros Hx E. unfold quantum. by rewrite (ilog2_proper x y Hx E). Qed.

Lemma quantum_mono x y : (0 < x)%Q → (x <= y)%Q → (quantum x <= quantum y)%Z.
Proof. intros Hx H. unfold quantum. pose proof (ilog2_mono x y Hx H). lia. Qed.

Lemma quantum_min q : (-1074 <= quantum q)%Z.
Proof. unfold quantum. lia. Qed.

Lemma round_pos_proper x y : (0 < x)%Q → (x == y)%Q → (round_pos x == round_pos y)%Q.
Proof.
  intros Hx E. unfold round_pos. rewrite (quantum_proper x y Hx E).
  assert (x / pow2 (quantum y) == y / pow2 (quantum y))%Q as E' by (by rewrite E).
  by rewrite (rne_proper _ _ E').
Qed.

Lemma round_pos_nonneg x : (0 <= x)%Q → (0 <= round_pos x)%Q.
Proof.
  intros Hx. unfold round_pos. pose proof (pow2_pos (quantum x)) as Hp.
  apply Qmult_le_0_compat; [|lra].
  change 0%Q with (inject_Z 0). rewrite <- Zle_Qle. apply rne_nonneg.
  apply Qle_shift_div_l; [done|]. lra.
Qed.

(** A multiple of the quantum is a bound of the number if and only if it
    is one of the rounded number. *)
Lemma round_pos_le x n :
  (x <= inject_Z n * pow2 (quantum x))%Q →
  (round_pos x <= inject_Z n * pow2 (quantum x))%Q.
Proof.
  intros H. unfold round_pos. pose proof (pow2_pos (quantum x)) as Hp.
  apply Qmult_le_compat_r; [|lra]. rewrite <- Zle_Qle. apply rne_le_int.
  by apply Qle_shift_div_r.
Qed.

Lemma round_pos_ge x n :
  (inject_Z n * pow2 (quantum x) <= x)%Q →
  (inject_Z n * pow2 (quantum x) <= round_pos x)%Q.
Proof.
  intros H. unfold round_pos. pose proof (pow2_pos (quantum x)) as Hp.
  apply Qmult_le_compat_r; [|lra]. rewrite <- Zle_Qle. apply rne_ge_int.
  by apply Qle_shift_div_l.
Qed.

(** A power of two at or above the quantum is a multiple of it. *)
Lemma pow2_multiple k e :
  (e <= k)%Z → (pow2 k == inject_Z (2 ^ (k - e)) * pow2 e)%Q.
Proof.
  intros H. rewrite <- pow2_Z by lia. rewrite <- pow2_add.
  by replace (k - e + e)%Z with k by lia.
Qed.

Lemma round_pos_le_pow2 x k :
  (quantum x <= k)%Z → (x <= pow2 k)%Q → (round_pos x <= pow2 k)%Q.
Proof.
  intros Hk H. rewrite (pow2_multiple k (quantum x) Hk) in *.
  by apply round_pos_le.
Qed.

Lemma round_pos_ge_pow2 x k :
  (quantum x <= k)%Z → (pow2 k <= x)%Q → (pow2 k <= round_pos x)%Q.
Proof.
  intros Hk H. rewrite (pow2_multiple k (quantum x) Hk) in *.
  by apply round_pos_ge.
Qed.

Lemma round_pos_mono x y : (0 < x)%Q → (x <= y)%Q → (round_pos x <= round_pos y)%Q.
Proof.
  intros Hx H. assert (0 < y)%Q as Hy by lra.
  pose proof (quantum_mono x y Hx H) as Hq.
  destruct (decide (quantum x = quantum y)) as [E|N].
  - unfold round_pos. rewrite E. pose proof (pow2_pos (quantum y)) as Hp.
    apply Qmult_le_compat_r; [|lra]. rewrite <- Zle_Qle. apply rne_mono.
    apply Qmult_le_compat_r; [done|]. apply Qinv_le_0_compat. lra.
  - assert (quantum x < quantum y)%Z as Hlt by lia.
    assert (ilog2 x < ilog2 y ∧ -1074 < ilog2 y - 52)%Z as [Hl Hn].
    { unfold quantum in *. lia. }
    destruct (ilog2_spec x Hx) as [_ Hx2]. destruct (ilog2_spec y Hy) as [Hy1 _].
    apply Qle_trans with (pow2 (ilog2 y)).
    + apply round_pos_le_pow2; [unfold quantum; lia|].
      apply Qle_trans with (pow2 (ilog2 x + 1)); [lra|]. apply pow2_le. lia.
    + apply round_pos_ge_pow2; [unfold quantum; lia|done].
Qed.

(** A multiple of its own quantum is left as it is. *)
Lemma round_pos_multiple y m :
  (0 < y)%Q → (y == inject_Z m * pow2 (quantum y))%Q → (round_pos y == y)%Q.
Proof.
  intros Hy E. unfold round_pos. pose proof (pow2_pos (quantum y)) as Hp.
  assert (y / pow2 (quantum y) == inject_Z m)%Q as E'.
  { rewrite E at 1. field. lra. }
  rewrite (rne_proper _ _ E'), rne_int. by rewrite <- E.
Qed.

(** The numbers [n * 2^k] with [n < 2^53] and [k >= -1074] are doubles. *)
Lemma round_pos_repr_lt n k :
  (0 < n < 2 ^ 53)%Z → (-1074 <= k)%Z →
  (round_pos (inject_Z n * pow2 k) == inject_Z n * pow2 k)%Q.
Proof.
  intros [Hn0 Hn] Hk. set (y := (inject_Z n * pow2 k)%Q).
  pose proof (pow2_pos k) as Hp.
  assert (1 <= inject_Z n)%Q as Hn1.
  { change 1%Q with (inject_Z 1). rewrite <- Zle_Qle. lia. }
  assert (inject_Z n < pow2 53)%Q as Hn2.
  { rewrite pow2_Z by lia. by rewrite <- Zlt_Qlt. }
  assert (0 < y)%Q as Hy by (unfold y; nra).
  assert (y < pow2 (53 + k))%Q as Hy2.
  { rewrite pow2_add. unfold y. by apply Qmult_lt_compat_r. }
  destruct (ilog2_spec y Hy) as [Hl _].
  assert (pow2 (ilog2 y) < pow2 (53 + k))%Q as Hlt by lra.
  apply pow2_lt_inv in Hlt.
  assert (quantum y <= k)%Z as Hq by (unfold quantum; lia).
  pose proof (pow2_multiple k (quantum y) Hq) as E.
  revert E. generalize (2 ^ (k - quantum y))%Z. intros m E.
  apply (round_pos_multiple y (n * m) Hy).
  rewrite inject_Z_mult. revert E. generalize (pow2 (quantum y)). intros p E.
  unfold y. rewrite E. ring.
Qed.

Lemma round_pos_repr n k :
  (0 < n <= 2 ^ 53)%Z → (-1074 <= k)%Z →
  (round_pos (inject_Z n * pow2 k) == inject_Z n * pow2 k)%Q.
Proof.
  intros [Hn0 Hn] Hk. destruct (decide (n = 2 ^ 53)%Z) as [->|N].
  - assert (inject_Z (2 ^ 53) * pow2 k == inject_Z (2 ^ 52) * pow2 (k + 1))%Q as E.
    { rewrite pow2_succ.
      change (inject_Z (2 ^ 53)) with (2 * inject_Z (2 ^ 52))%Q. ring. }
    assert (0 < inject_Z (2 ^ 53) * pow2 k)%Q as Hpos.
    { pose proof (pow2_pos k). apply Qmult_lt_0_compat; [reflexivity|done]. }
    rewrite (round_pos_proper _ _ Hpos E), E.
    apply round_pos_repr_lt; lia.
  - apply round_pos_repr_lt; lia.
Qed.

(** The rounded number is [n * 2^q] with [0 <= n <= 2^53], [q] the quantum. *)
Lemma round_pos_mantissa x :
  (0 < x)%Q → (0 <= rne (x / pow2 (quantum x)) <= 2 ^ 53)%Z.
Proof.
  intros Hx. pose proof (pow2_pos (quantum x)) as Hp. split.
  - apply rne_nonneg. apply Qle_shift_div_l; [done|]. lra.
  - apply rne_le_int. apply Qle_shift_div_r; [done|].
    rewrite <- pow2_Z by lia. rewrite <- pow2_add.
    destruct (ilog2_spec x Hx) as [_ H].
    apply Qle_trans with (pow2 (ilog2 x + 1)); [lra|].
    apply pow2_le. unfold quantum. lia.
Qed.

Lemma round_pos_idem x :
  (0 < x)%Q →
  (round_pos x == 0)%Q ∨ (0 < round_pos x)%Q ∧ (round_pos (round_pos x) == round_pos x)%Q.
Proof.
  intros Hx. pose proof (round_pos_mantissa x Hx) as [H0 H53].
  pose proof (pow2_pos (quantum x)) as Hp.
  destruct (decide (rne (x / pow2 (quantum x)) = 0%Z)) as [E|N].
  - left. unfold round_pos. rewrite E. ring.
  - right. split.
    + unfold round_pos. apply Qmult_lt_0_compat; [|done].
      change 0%Q with (inject_Z 0). rewrite <- Zlt_Qlt. lia.
    + unfold round_pos at 2 3. apply round_pos_repr; [lia|apply quantum_min].
Qed.

(** The rounded number is a multiple of [2^-1074]. *)
Lemma round_pos_grid x : ∃ m, (round_pos x == inject_Z m * pow2 (-1074))%Q.
Proof.
  exists (rne (x / pow2 (quantum x)) * 2 ^ (quantum x - -1074))%Z.
  pose proof (pow2_multiple (quantum x) (-1074) (quantum_min x)) as E.
  unfold round_pos. rewrite inject_Z_mult. revert E.
  generalize (rne (x / pow2 (quantum x))). intros n.
  generalize (2 ^ (quantum x - -1074))%Z, (pow2 (quantum x)).
  intros m p E. rewrite E. ring.
Qed.

(** Below 1 the rounded number exceeds the number by [2^-54] at most. *)
Lemma round_pos_error x :
  (0 < x)%Q → (x < 1)%Q → (round_pos x <= x + pow2 (-54))%Q.
Proof.
  intros Hx H1. pose proof (pow2_pos (quantum x)) as Hp.
  destruct (ilog2_spec x Hx) as [Hl _].
  assert (pow2 (ilog2 x) < pow2 0)%Q as Hlt by (rewrite pow2_0; lra).
  apply pow2_lt_inv in Hlt.
  assert (quantum x <= -53)%Z as Hq by (unfold quantum; lia).
  destruct (rne_near (x / pow2 (quantum x))) as [_ Hn].
  unfold round_pos.
  apply Qle_trans with ((x / pow2 (quantum x) + (1 # 2)) * pow2 (quantum x))%Q.
  - apply Qmult_le_compat_r; [done|lra].
  - assert ((x / pow2 (quantum x) + (1 # 2)) * pow2 (quantum x)
            == x + (1 # 2) * pow2 (quantum x))%Q as -> by (field; lra).
    assert (pow2 (quantum x) <= pow2 (-53))%Q as Hle by (by apply pow2_le).
    assert (pow2 (-53) == 2 * pow2 (-54))%Q as E by (rewrite <- pow2_succ; reflexivity).
    lra.
Qed.

(** The rounded number is within half a quantum of the number. *)
Lemma round_pos_nearest x :
  (0 < x)%Q →
  (x - (1 # 2) * pow2 (quantum x) <= round_pos x <= x + (1 # 2) * pow2 (quantum x))%Q.
Proof.
  intros Hx. pose proof (pow2_pos (quantum x)) as Hp.
  destruct (rne_near (x / pow2 (quantum x))) as [Hl Hu].
  unfold round_pos. revert Hl Hu. generalize (rne (x / pow2 (quantum x))). intros n Hl Hu.
  assert (x == x / pow2 (quantum x) * pow2 (quantum x))%Q as E by (field; lra).
  revert Hl Hu E. generalize (x / pow2 (quantum x))%Q. intros t.
  revert Hp. generalize (pow2 (quantum x)).
  intros p Hp Hl Hu E. rewrite E. split.
  - assert (t * p - (1 # 2) * p == (t - (1 # 2)) * p)%Q as -> by ring.
    apply Qmult_le_compat_r; lra.
  - assert (t * p + (1 # 2) * p == (t + (1 # 2)) * p)%Q as -> by ring.
    apply Qmult_le_compat_r; lra.
Qed.

(** *** Rounding *)

Lemma binary64_pos x : (0 < x)%Q → binary64 x = round_pos x.
Proof.
  intros H. unfold binary64.
  assert ((x ?= 0)%Q = Gt) as -> by (by apply Qgt_alt). reflexivity.
Qed.

Lemma binary64_neg x : (x < 0)%Q → binary64 x = (- round_pos (- x))%Q.
Proof.
  intros H. unfold binary64.
  assert ((x ?= 0)%Q = Lt) as -> by (by apply Qlt_alt). reflexivity.
Qed.

Lemma binary64_zero x : (x == 0)%Q → binary64 x = 0%Q.
Proof.
  intros H. unfold binary64.
  assert ((x ?= 0)%Q = Eq) as -> by (by apply Qeq_alt). reflexivity.
Qed.

Lemma binary64_proper x y : (x == y)%Q → (binary64 x == binary64 y)%Q.
Proof.
  intros E. destruct (Q_dec x 0) as [[H|H]|H].
  - rewrite (binary64_neg x H), (binary64_neg y) by lra.
    assert (0 < - x)%Q as Hx by lra. assert (- x == - y)%Q as E' by lra.
    by rewrite (round_pos_proper _ _ Hx E').
  - rewrite (binary64_pos x H), (binary64_pos y) by lra.
    by apply round_pos_proper.
  - rewrite (binary64_zero x H), (binary64_zero y) by lra. reflexivity.
Qed.

Lemma binary64_sign x :
  ((0 <= x)%Q → (0 <= binary64 x)%Q) ∧ ((x <= 0)%Q → (binary64 x <= 0)%Q).
Proof.
  destruct (Q_dec x 0) as [[H|H]|H].
  - rewrite (binary64_neg x H). pose proof (round_pos_nonneg (- x)).
    split; intros; lra.
  - rewrite (binary64_pos x H). pose proof (round_pos_nonneg x).
    split; intros; lra.
  - rewrite (binary64_zero x H). split; intros; lra.
Qed.

Lemma binary64_mono x y : (x <= y)%Q → (binary64 x <= binary64 y)%Q.
Proof.
  intros H. destruct (Qlt_le_dec 0 x) as [Hx|Hx].
  - rewrite (binary64_pos x Hx), (binary64_pos y) by lra.
    by apply round_pos_mono.
  - destruct (Qlt_le_dec y 0) as [Hy|Hy].
    + rewrite (binary64_neg y Hy), (binary64_neg x) by lra.
      apply Qopp_le_compat. apply round_pos_mono; lra.
    + destruct (binary64_sign x) as [_ H1]. destruct (binary64_sign y) as [H2 _].
      specialize (H1 Hx). specialize (H2 Hy). lra.
Qed.

Lemma binary64_idem x : (binary64 (binary64 x) == binary64 x)%Q.
Proof.
  destruct (Q_dec x 0) as [[H|H]|H].
  - rewrite (binary64_neg x H).
    destruct (round_pos_idem (- x)) as [E|[Hp E]]; [lra|..].
    + assert (- round_pos (- x) == 0)%Q as E' by lra.
      rewrite (binary64_zero _ E'). lra.
    + rewrite binary64_neg by lra.
      assert (- - round_pos (- x) == round_pos (- x))%Q as E' by ring.
      assert (0 < - - round_pos (- x))%Q as Hp' by lra.
      rewrite (round_pos_proper _ _ Hp' E'). by rewrite E.
  - rewrite (binary64_pos x H).
    destruct (round_pos_idem x H) as [E|[Hp E]].
    + rewrite (binary64_zero _ E). lra.
    + by rewrite (binary64_pos _ Hp).
  - rewrite (binary64_zero x H). reflexivity.
Qed.

Lemma binary64_0 : (binary64 0 == 0)%Q.
Proof. reflexivity. Qed.

Lemma binary64_1 : (binary64 1 == 1)%Q.
Proof. by vm_compute. Qed.

Lemma binary64_grid x : ∃ m, (binary64 x == inject_Z m * pow2 (-1074))%Q.
Proof.
  destruct (Q_dec x 0) as [[H|H]|H].
  - rewrite (binary64_neg x H). destruct (round_pos_grid (- x)) as [m E].
    exists (- m)%Z. rewrite E, inject_Z_opp. ring.
  - rewrite (binary64_pos x H). apply round_pos_grid.
  - rewrite (binary64_zero x H). exists 0%Z. ring.
Qed.

Lemma binary64_least : (binary64 (pow2 (-1074)) == pow2 (-1074))%Q.
Proof.
  rewrite (binary64_pos _ (pow2_pos _)).
  assert (pow2 (-1074) == inject_Z 1 * pow2 (-1074))%Q as E by ring.
  pose proof (round_pos_repr 1 (-1074) ltac:(lia) ltac:(lia)) as Hr.
  rewrite <- (round_pos_proper _ _ (pow2_pos _) E) in Hr.
  rewrite Hr. ring.
Qed.

Lemma binary64_opp x : (binary64 (- x) == - binary64 x)%Q.
Proof.
  destruct (Q_dec x 0) as [[H|H]|H].
  - rewrite (binary64_neg x H), binary64_pos by lra. ring.
  - rewrite (binary64_pos x H), binary64_neg by lra.
    assert (- - x == x)%Q as E by ring. assert (0 < - - x)%Q as Hp by lra.
    by rewrite (round_pos_proper _ _ Hp E).
  - rewrite (binary64_zero x H), binary64_zero by lra. reflexivity.
Qed.

(** Gradual underflow: two doubles whose difference rounds to 0 are equal. *)
Lemma binary64_sub_0 x y :
  (binary64 x == x)%Q → (binary64 y == y)%Q →
  (binary64 (x - y) == 0)%Q → (x == y)%Q.
Proof.
  intros Hx Hy H0.
  destruct (binary64_grid x) as [m Em]. destruct (binary64_grid y) as [m' Em'].
  rewrite Hx in Em. rewrite Hy in Em'.
  pose proof (pow2_pos (-1074)) as Hu. pose proof binary64_least as Hl.
  destruct (Z.lt_trichotomy m m') as [Hlt|[->|Hgt]].
  - exfalso. assert (inject_Z m + 1 <= inject_Z m')%Q as Hle.
    { change 1%Q with (inject_Z 1). rewrite <- inject_Z_plus, <- Zle_Qle. lia. }
    assert (x - y <= - pow2 (-1074))%Q as Hd by (rewrite Em, Em'; nra).
    pose proof (binary64_mono _ _ Hd) as Hm.
    rewrite binary64_opp, Hl, H0 in Hm. lra.
  - by rewrite Em, Em'.
  - exfalso. assert (inject_Z m' + 1 <= inject_Z m)%Q as Hle.
    { change 1%Q with (inject_Z 1). rewrite <- inject_Z_plus, <- Zle_Qle. lia. }
    assert (pow2 (-1074) <= x - y)%Q as Hd by (rewrite Em, Em'; nra).
    pose proof (binary64_mono _ _ Hd) as Hm.
    rewrite Hl, H0 in Hm. lra.
Qed.

Lemma binary64_above_1 : (binary64 (1 + pow2 (-54)) == 1)%Q.
Proof. by vm_compute. Qed.

Lemma binary64_compl x :
  (0 <= x <= 1)%Q → (binary64 (x + binary64 (1 - x)) <= 1)%Q.
Proof.
  intros [H0 H1].
  assert (binary64 (1 - x) <= 1 - x + pow2 (-54))%Q as He.
  { pose proof (pow2_pos (-54)) as Hp.
    destruct (Q_dec x 0) as [[H|H]|H]; [lra|..].
    - destruct (Q_dec x 1) as [[H'|H']|H']; [|lra|].
      + rewrite binary64_pos by lra. apply round_pos_error; lra.
      + rewrite binary64_zero by lra. lra.
    - assert (1 - x == 1)%Q as E by lra.
      rewrite (binary64_proper _ _ E), binary64_1. lra. }
  assert (x + binary64 (1 - x) <= 1 + pow2 (-54))%Q as Hs by lra.
  pose proof (binary64_mono _ _ Hs) as Hm. by rewrite binary64_above_1 in Hm.
Qed.

Lemma largest_double_ge_1 : (1 <= largest_double)%Q.
Proof. by vm_compute. Qed.

(** The largest double is a double, and the next multiple of its quantum
    is not in range. *)
Lemma largest_double_is_double : (binary64 largest_double == largest_double)%Q.
Proof. by vm_compute. Qed.

(** The arithmetic of the doubles: round-to-nearest with ties to even,
    overflow beyond the largest double. *)
#[export] Instance binary64_rounding : Rounding :=
  {| rnd := binary64;
     fmax := largest_double;
     rnd_proper := binary64_proper;
     rnd_mono := binary64_mono;
     rnd_idem := binary64_idem;
     rnd_0 := binary64_0;
     rnd_1 := binary64_1;
     rnd_sub_0 := binary64_sub_0;
     rnd_compl := binary64_compl;
     fmax_ge_1 := largest_double_ge_1 |}.

End ArithFacts.

(* ================================================================== *)
(** ** Facts about [calc_combined_matrix] *)
(* ================================================================== *)

Module CombineFacts.
Import Combine ArithFacts.

Lemma traverse_length {A B} (f : A → result B) l bs :
  traverse f l = Ok bs → length bs = length l.
Proof.
  revert bs. induction l as [|a l IH]; simpl; intros bs H.
  - by inversion H.
  - destruct (f a) as [b|]; simpl in H; [|done].
    destruct (traverse f l) as [bs'|]; simpl in H; [|done].
    inversion H; subst. simpl. f_equal. by apply IH.
Qed.

Lemma traverse_lookup {A B} (f : A → result B) l bs i a :
  traverse f l = Ok bs → l !! i = Some a → ∃ b, f a = Ok b ∧ bs !! i = Some b.
Proof.
  revert bs i. induction l as [|a' l IH]; simpl; intros bs i H Hi; [done|].
  destruct (f a') as [b|] eqn:Hb; simpl in H; [|done].
  destruct (traverse f l) as [bs'|]; simpl in H; [|done].
  inversion H; subst. destruct i as [|i]; simpl in *.
  - inversion Hi; subst. eauto.
  - eauto.
Qed.

Lemma traverse_ok {A B} (f : A → result B) l :
  (∀ a, a ∈ l → ∃ b, f a = Ok b) → ∃ bs, traverse f l = Ok bs.
Proof.
  induction l as [|a l IH]; simpl; intros H; [eauto|].
  destruct (H a) as [b Hb]; [left|]. rewrite Hb. simpl.
  destruct IH as [bs Hbs]; [intros; apply H; by right|].
  rewrite Hbs. simpl. eauto.
Qed.

(** *** Column minimum and maximum *)

Lemma no_inf_cons c col : no_inf (c :: col) → no_inf col.
Proof. intros [H1 H2]. split; intros H; [apply H1|apply H2]; by right. Qed.

Lemma is_min_cons_None col m : is_min col m → is_min (None :: col) m.
Proof.
  intros [Hin Hle]. split; [by right|]. intros x Hx.
  apply elem_of_cons in Hx as [?|Hx]; [done|]. by apply Hle.
Qed.

Lemma is_max_cons_None col m : is_max col m → is_max (None :: col) m.
Proof.
  intros [Hin Hle]. split; [by right|]. intros x Hx.
  apply elem_of_cons in Hx as [?|Hx]; [done|]. by apply Hle.
Qed.

(** On a column without infinities [col.min()] is NaN when the column holds
    no number, and a least number of the column otherwise. *)
Lemma col_min_spec col :
  no_inf col →
  match col_min col with
  | None => Forall (λ x, x = None) col
  | Some (Fin m) => is_min col m
  | Some _ => False
  end.
Proof.
  induction col as [|c col IH]; intros Hni; simpl; [constructor|].
  specialize (IH (no_inf_cons _ _ Hni)).
  destruct c as [[x| |]|]; simpl.
  - destruct (col_min col) as [[m| |]|]; simpl; try done.
    + destruct IH as [Hin Hle].
      unfold Qmin, GenericMinMax.gmin. destruct (x ?= m)%Q eqn:E.
      * apply Qeq_alt in E. split; [by left|]. intros y Hy.
        apply elem_of_cons in Hy as [[= ->]|Hy]; [apply Qle_refl|].
        rewrite E. by apply Hle.
      * apply Qlt_alt in E. split; [by left|]. intros y Hy.
        apply elem_of_cons in Hy as [[= ->]|Hy]; [apply Qle_refl|].
        specialize (Hle y Hy). lra.
      * apply Qgt_alt in E. split; [by right|]. intros y Hy.
        apply elem_of_cons in Hy as [[= ->]|Hy]; [lra|]. by apply Hle.
    + split; [by left|]. intros y Hy.
      apply elem_of_cons in Hy as [[= ->]|Hy]; [apply Qle_refl|].
      rewrite Forall_forall in IH. by specialize (IH _ Hy).
  - exfalso. destruct Hni as [H _]. apply H. by left.
  - exfalso. destruct Hni as [_ H]. apply H. by left.
  - destruct (col_min col) as [[m| |]|]; try done.
    + by apply is_min_cons_None.
    + by constructor.
Qed.

Lemma col_max_spec col :
  no_inf col →
  match col_max col with
  | None => Forall (λ x, x = None) col
  | Some (Fin m) => is_max col m
  | Some _ => False
  end.
Proof.
  induction col as [|c col IH]; intros Hni; simpl; [constructor|].
  specialize (IH (no_inf_cons _ _ Hni)).
  destruct c as [[x| |]|]; simpl.
  - destruct (col_max col) as [[m| |]|]; simpl; try done.
    + destruct IH as [Hin Hle].
      unfold Qmax, GenericMinMax.gmax. destruct (x ?= m)%Q eqn:E.
      * apply Qeq_alt in E. split; [by left|]. intros y Hy.
        apply elem_of_cons in Hy as [[= ->]|Hy]; [apply Qle_refl|].
        rewrite E. by apply Hle.
      * apply Qlt_alt in E. split; [by right|]. intros y Hy.
        apply elem_of_cons in Hy as [[= ->]|Hy]; [lra|]. by apply Hle.
      * apply Qgt_alt in E. split; [by left|]. intros y Hy.
        apply elem_of_cons in Hy as [[= ->]|Hy]; [apply Qle_refl|].
        specialize (Hle y Hy). lra.
    + split; [by left|]. intros y Hy.
      apply elem_of_cons in Hy as [[= ->]|Hy]; [apply Qle_refl|].
      rewrite Forall_forall in IH. by specialize (IH _ Hy).
  - exfalso. destruct Hni as [H _]. apply H. by left.
  - exfalso. destruct Hni as [_ H]. apply H. by left.
  - destruct (col_max col) as [[m| |]|]; try done.
    + by apply is_max_cons_None.
    + by constructor.
Qed.

Lemma col_min_is_min col m :
  no_inf col → is_min col m → ∃ m', col_min col = Some (Fin m') ∧ (m' == m)%Q.
Proof.
  intros Hni [Hin Hle]. pose proof (col_min_spec col Hni) as H.
  destruct (col_min col) as [[m'| |]|]; try done.
  - destruct H as [Hin' Hle']. exists m'. split; [done|].
    apply Qle_antisym; auto.
  - rewrite Forall_forall in H. by specialize (H _ Hin).
Qed.

Lemma col_max_is_max col m :
  no_inf col → is_max col m → ∃ m', col_max col = Some (Fin m') ∧ (m' == m)%Q.
Proof.
  intros Hni [Hin Hle]. pose proof (col_max_spec col Hni) as H.
  destruct (col_max col) as [[m'| |]|]; try done.
  - destruct H as [Hin' Hle']. exists m'. split; [done|].
    apply Qle_antisym; auto.
  - rewrite Forall_forall in H. by specialize (H _ Hin).
Qed.

Lemma col_extremes col x :
  no_inf col → Some (Fin x) ∈ col →
  ∃ mn mx, col_min col = Some (Fin mn) ∧ col_max col = Some (Fin mx) ∧
           is_min col mn ∧ is_max col mx.
Proof.
  intros Hni Hx.
  pose proof (col_min_spec col Hni) as Hmin.
  pose proof (col_max_spec col Hni) as Hmax.
  destruct (col_min col) as [[mn| |]|]; try done; cycle 1.
  { rewrite Forall_forall in Hmin. by specialize (Hmin _ Hx). }
  destruct (col_max col) as [[mx| |]|]; try done; cycle 1.
  { rewrite Forall_forall in Hmax. by specialize (Hmax _ Hx). }
  by exists mn, mx.
Qed.

Section Normalize.
Context {R : Rounding}.

Lemma min_max_normalize_length col : length (min_max_normalize col) = length col.
Proof. unfold min_max_normalize. destruct (cell_is_zero _); by rewrite length_map. Qed.

(** The range of a column with least number [mn] and greatest [mx], when
    it does not overflow, and what becomes of a number [x] of the
    column. *)
Lemma range_fin mn mx :
  (mn <= mx)%Q → (rnd (mx - mn) <= fmax)%Q →
  cell_sub (Some (Fin mx)) (Some (Fin mn)) = Some (Fin (rnd (mx - mn))) ∧
  (0 <= rnd (mx - mn))%Q.
Proof.
  intros Hle Hr. assert (0 <= rnd (mx - mn))%Q as H0 by (apply rnd_nonneg; lra).
  split; [|done]. simpl. f_equal. apply round_fin.
  pose proof fmax_pos. change (mx + - mn)%Q with (mx - mn)%Q. lra.
Qed.

Lemma shifted_fin mn mx x :
  (mn <= x <= mx)%Q → (rnd (mx - mn) <= fmax)%Q →
  cell_sub (Some (Fin x)) (Some (Fin mn)) = Some (Fin (rnd (x - mn))) ∧
  (0 <= rnd (x - mn) <= rnd (mx - mn))%Q.
Proof.
  intros [Hlo Hhi] Hr.
  assert (0 <= rnd (x - mn))%Q as H0 by (apply rnd_nonneg; lra).
  assert (rnd (x - mn) <= rnd (mx - mn))%Q as H1 by (apply rnd_mono; lra).
  split; [|done]. simpl. f_equal. apply round_fin.
  pose proof fmax_pos. change (x + - mn)%Q with (x - mn)%Q. lra.
Qed.

Lemma quotient_fin a r :
  (0 <= a <= r)%Q → ¬ (r == 0)%Q →
  cell_div (Some (Fin a)) (Some (Fin r)) = Some (Fin (rnd (a / r))) ∧
  (0 <= rnd (a / r) <= 1)%Q.
Proof.
  intros [Ha Har] Hr. assert (0 < r)%Q as Hpos by lra.
  assert (0 <= a / r <= 1)%Q as Hq.
  { split; [apply Qle_shift_div_l; [done|lra]|apply Qle_shift_div_r; [done|lra]]. }
  destruct (round_unit _ Hq) as [Hround Hunit].
  split; [|done]. simpl.
  destruct (Qeq_bool r 0) eqn:E; [apply Qeq_bool_iff in E; done|].
  by rewrite Hround.
Qed.

(** What [min_max_normalize] makes of a number of a column without
    infinities whose range does not overflow. *)
Lemma normalize_number col i x :
  no_inf col → no_overflow col →
  col !! i = Some (Some (Fin x)) →
  ∃ y, min_max_normalize col !! i = Some (Some (Fin y)) ∧
       (0 <= y <= 1)%Q ∧ (rnd y == y)%Q.
Proof.
  intros Hni Hov Hi.
  assert (Some (Fin x) ∈ col) as Hx by by eapply list_elem_of_lookup_2.
  destruct (col_extremes col x Hni Hx) as (mn & mx & Hmn & Hmx & Hmin & Hmax).
  pose proof Hmin as [Hmn_in Hmn_le]. pose proof Hmax as [Hmx_in Hmx_le].
  assert (mn <= x <= mx)%Q as Hb by (split; auto).
  assert (rnd (mx - mn) <= fmax)%Q as Hr by by apply Hov.
  destruct (range_fin mn mx) as [Hrange Hr0]; [lra|done|].
  unfold min_max_normalize. rewrite Hmn, Hmx, Hrange. simpl cell_is_zero.
  destruct (Qeq_bool (rnd (mx - mn)) 0) eqn:Hz.
  - rewrite list_lookup_fmap, Hi. simpl. exists 0%Q.
    split; [done|]. split; [lra|apply rnd_0].
  - apply Qeq_bool_neq in Hz.
    rewrite list_lookup_fmap, Hi. cbn [fmap option_fmap option_map].
    destruct (shifted_fin mn mx x Hb Hr) as [-> Ha].
    destruct (quotient_fin (rnd (x - mn)) (rnd (mx - mn)) Ha Hz) as [-> Hq].
    eexists. split; [done|]. split; [done|]. apply rnd_idem.
Qed.

(** Claim C4, as amended: for a column of doubles without infinities, with
    least number [mn] and greatest number [mx], whose range [mx - mn] does
    not overflow, [min_max_normalize] maps every entry to 0 when the column
    is constant; otherwise it maps a number [x] to the double nearest
    [(x - mn) / (mx - mn)] as numpy computes it (the rounded quotient of the
    rounded differences), the minimum to 0 and the maximum to 1, and leaves
    a missing entry missing. *)
Theorem min_max_normalize_spec (col : list cell) (mn mx : Q) :
  no_inf col → doubles col → is_min col mn → is_max col mx →
  (rnd (mx - mn) <= fmax)%Q →
  ((mx == mn)%Q → min_max_normalize col = map (λ _, Some (Fin 0)) col) ∧
  (¬ (mx == mn)%Q →
     ∀ i x, col !! i = Some x →
       match x with
       | Some (Fin x) =>
           ∃ y, min_max_normalize col !! i = Some (Some (Fin y)) ∧
                (y == rnd (rnd (x - mn) / rnd (mx - mn)))%Q ∧
                ((x == mn)%Q → (y == 0)%Q) ∧
                ((x == mx)%Q → (y == 1)%Q)
       | _ => min_max_normalize col !! i = Some None
       end).
Proof.
  intros Hni Hd Hmin Hmax Hr.
  destruct (col_min_is_min _ _ Hni Hmin) as (mn' & Hmn & Emn).
  destruct (col_max_is_max _ _ Hni Hmax) as (mx' & Hmx & Emx).
  pose proof Hmin as [Hmn_in Hmn_le]. pose proof Hmax as [Hmx_in Hmx_le].
  assert (mn <= mx)%Q as Hle by by apply Hmn_le.
  assert (rnd (mx' - mn') == rnd (mx - mn))%Q as Er.
  { apply rnd_proper. by rewrite Emn, Emx. }
  destruct (range_fin mn' mx') as [Hrange Hr0]; [lra|lra|].
  unfold min_max_normalize. rewrite Hmn, Hmx, Hrange. simpl cell_is_zero.
  split.
  - intros E. assert (rnd (mx' - mn') == 0)%Q as Hz.
    { apply rnd_zero. lra. }
    apply Qeq_bool_iff in Hz. by rewrite Hz.
  - intros NE.
    destruct (Qeq_bool (rnd (mx' - mn')) 0) eqn:Hz.
    { exfalso. apply Qeq_bool_iff in Hz. apply NE.
      assert (rnd (mx - mn) == 0)%Q as Hz' by lra.
      apply (rnd_sub_0 mx mn); [apply (Hd mx Hmx_in)|apply (Hd mn Hmn_in)|done]. }
    apply Qeq_bool_neq in Hz.
    intros i c Hi. rewrite list_lookup_fmap, Hi. cbn [fmap option_fmap option_map].
    destruct c as [[x| |]|].
    + assert (Some (Fin x) ∈ col) as Hx by by eapply list_elem_of_lookup_2.
      assert (mn' <= x <= mx')%Q as Hb.
      { pose proof (Hmn_le x Hx). pose proof (Hmx_le x Hx). lra. }
      destruct (shifted_fin mn' mx' x Hb) as [-> Ha]; [lra|].
      destruct (quotient_fin (rnd (x - mn')) (rnd (mx' - mn')) Ha Hz) as [-> Hq].
      assert (rnd (x - mn') == rnd (x - mn))%Q as Ea.
      { apply rnd_proper. by rewrite Emn. }
      eexists. split; [done|]. split; [|split].
      * apply rnd_proper. by rewrite Ea, Er.
      * intros E. apply rnd_zero.
        assert (rnd (x - mn') == 0)%Q as -> by (apply rnd_zero; lra).
        field. done.
      * intros E. apply rnd_one.
        assert (rnd (x - mn') == rnd (mx' - mn'))%Q as ->
          by (apply rnd_proper; lra).
        field. done.
    + exfalso. destruct Hni as [H _]. apply H. by eapply list_elem_of_lookup_2.
    + exfalso. destruct Hni as [_ H]. apply H. by eapply list_elem_of_lookup_2.
    + done.
Qed.

(** *** Missing values *)

Lemma has_nan_false col : has_nan col = false ↔ Forall is_Some col.
Proof.
  induction col as [|x col IH]; simpl.
  - split; [constructor|done].
  - rewrite orb_false_iff, IH, Forall_cons. destruct x; simpl; split.
    + intros [_ ?]. split; [by eexists|done].
    + intros [_ ?]. done.
    + intros [? _]. done.
    + intros [[? ?] _]. done.
Qed.

Lemma isnull_any_false cols :
  isnull_any cols = false ↔ Forall (λ c, has_nan c = false) cols.
Proof.
  induction cols as [|c cols IH]; simpl.
  - split; [constructor|done].
  - rewrite orb_false_iff, IH, Forall_cons. done.
Qed.

Lemma fillna_id col : has_nan col = false → fillna col = col.
Proof.
  rewrite has_nan_false. induction 1 as [|x col [q ->] _ IH]; simpl; [done|].
  by rewrite IH.
Qed.

Lemma fillna_frame_id m :
  isnull_any (columns m).*2 = false → fillna_frame m = m.
Proof.
  destruct m as [idx cols]. unfold fillna_frame. simpl. intros H. f_equal.
  apply isnull_any_false in H. induction cols as [|[g c] cols IH]; simpl in *; [done|].
  apply Forall_cons in H as [Hc H]. unfold prod_map at 1. simpl.
  rewrite (fillna_id c) by done. f_equal. by apply IH.
Qed.

Lemma gene_cols_lookup r g c :
  genes r !! g = Some c → c ∈ gene_cols r.
Proof.
  intros H. unfold gene_cols. apply list_elem_of_fmap. exists (g, c). split; [done|].
  by apply elem_of_map_to_list.
Qed.

Lemma fillna_expr_id r :
  isnull_any (gene_cols r) = false → fillna_expr r = r.
Proof.
  destruct r as [ids gs]. unfold fillna_expr. simpl. intros H. f_equal.
  apply isnull_any_false in H. rewrite Forall_forall in H.
  apply map_eq. intros g. rewrite lookup_fmap.
  destruct (gs !! g) as [c|] eqn:Hg; simpl; [|done].
  f_equal. apply fillna_id, H. by apply (gene_cols_lookup {| pat_id := ids; genes := gs |} g).
Qed.

Lemma finite_col_no_inf col : finite_col col → no_inf col.
Proof.
  intros H. unfold finite_col in H. rewrite Forall_forall in H.
  split; intros Hin; by destruct (H _ Hin).
Qed.

Lemma finite_col_no_nan col : finite_col col → has_nan col = false.
Proof.
  intros H. apply has_nan_false. eapply Forall_impl; [exact H|].
  intros y [x ->]. by eexists.
Qed.

(** A normalized column of finite numbers: doubles between 0 and 1. *)
Lemma normalize_unit col :
  finite_col col → no_overflow col →
  Forall (λ y, ∃ v, y = Some (Fin v) ∧ (0 <= v <= 1)%Q ∧ (rnd v == v)%Q)
         (min_max_normalize col).
Proof.
  intros Hf Hov. apply Forall_lookup. intros i y Hy.
  assert (i < length col) as Hlt.
  { rewrite <- min_max_normalize_length. by eapply lookup_lt_Some. }
  apply lookup_lt_is_Some in Hlt as [c Hc].
  unfold finite_col in Hf. rewrite Forall_forall in Hf.
  destruct (Hf c) as [x ->]; [by eapply list_elem_of_lookup_2|].
  destruct (normalize_number col i x) as (v & Hv & Hu & Hrep);
    [by apply finite_col_no_inf, Forall_forall|done|done|].
  rewrite Hv in Hy. injection Hy as <-. by exists v.
Qed.

(** *** Re-indexing and column selection *)

Lemma take_row_elem ids (col : list cell) s :
  s ∈ ids → length col = length ids → take_row ids col s ∈ col.
Proof.
  intros Hs Hlen. unfold take_row.
  destruct (list_find_elem_of (λ k, k = s) ids s Hs eq_refl) as [[i k] Hf].
  rewrite Hf. apply list_find_Some in Hf as (Hi & _ & _).
  apply lookup_lt_Some in Hi. rewrite <- Hlen in Hi.
  apply lookup_lt_is_Some in Hi as [x Hx]. rewrite Hx. simpl.
  by eapply list_elem_of_lookup_2.
Qed.

Lemma reindex_clean ids target (cols : gmap string (list cell)) :
  NoDup ids → (∀ s, s ∈ target → s ∈ ids) →
  map_Forall (λ _, clean_col (length ids)) cols →
  ∃ clean, reindex ids target cols = Ok clean ∧
    (∀ g, is_Some (cols !! g) → is_Some (clean !! g)) ∧
    map_Forall (λ _, clean_col (length target)) clean.
Proof.
  intros Hnd Hcov Hc. unfold reindex. destruct (decide (ids = target)) as [->|Hne].
  { exists cols. done. }
  destruct (decide (NoDup ids)); [|done].
  eexists. split; [done|]. split.
  - intros g [c Hg]. rewrite lookup_fmap, Hg. by eexists.
  - intros g c'. rewrite lookup_fmap. intros Hg.
    destruct (cols !! g) as [c|] eqn:Hcg; simpl in Hg; [|done].
    inversion Hg; subst. destruct (Hc _ _ Hcg) as (Hlen & Hfin & Hov).
    assert (∀ y, y ∈ map (take_row ids c) target → y ∈ c) as Hsub.
    { intros y Hy. apply list_elem_of_fmap in Hy as (s & -> & Hs).
      apply take_row_elem; auto. }
    split; [by rewrite length_map|]. split.
    + apply Forall_forall. intros y Hy. unfold finite_col in Hfin.
      rewrite Forall_forall in Hfin. by apply Hfin, Hsub.
    + intros x y Hx Hy. apply Hov; by apply Hsub.
Qed.

Lemma select_columns_ok (cols : gmap string (list cell)) ls n :
  (∀ g, g ∈ ls → is_Some (cols !! g)) →
  map_Forall (λ _, clean_col n) cols →
  ∃ sel, select_columns cols ls = Ok sel ∧ length sel = length ls ∧
         Forall (clean_col n) sel.
Proof.
  intros Hdom Hc. unfold select_columns.
  destruct (traverse_ok (λ g, match cols !! g with Some c => Ok c | None => Raise KeyError end) ls)
    as [sel Hsel].
  { intros g Hg. destruct (Hdom g Hg) as [c ->]. eauto. }
  exists sel. split; [done|]. split; [by eapply traverse_length|].
  apply Forall_lookup. intros i c Hi.
  assert (i < length ls) as Hlt.
  { erewrite <- traverse_length by done. by eapply lookup_lt_Some. }
  apply lookup_lt_is_Some in Hlt as [g Hg].
  destruct (traverse_lookup _ _ _ _ _ Hsel Hg) as (c' & Hc' & Hi').
  rewrite Hi in Hi'. inversion Hi'; subst.
  destruct (cols !! g) as [c0|] eqn:Hg0; [|done]. inversion Hc'; subst.
  by eapply Hc.
Qed.

Lemma rna_norm_ok sm rna :
  rect_expr rna → finite_ranges rna → aligned sm rna →
  ∃ norm, rna_norm sm rna = Ok norm ∧ length norm = length (columns sm) ∧
    Forall (λ c, length c = length (index sm) ∧
                 Forall (λ y, ∃ v, y = Some (Fin v) ∧ (0 <= v <= 1)%Q ∧
                                   (rnd v == v)%Q) c) norm.
Proof.
  intros Hrect Hfin (Hg & Hs & Hnd). unfold rna_norm.
  destruct (reindex_clean (pat_id rna) (index sm)
              (filter (λ kv, kv.1 ∈ labels sm) (genes rna))) as (clean & -> & Hdom & Hclean);
    [done|done| |].
  { intros g c Hgc. apply map_lookup_filter_Some in Hgc as [Hgc _].
    destruct (Hfin _ _ Hgc). split; [by eapply Hrect|done]. }
  simpl.
  destruct (select_columns_ok clean (labels sm) (length (index sm))) as (sel & -> & Hlen & Hsel);
    [|done|].
  { intros g Hin. apply Hdom. destruct (Hg g Hin) as [c Hc]. exists c.
    apply map_lookup_filter_Some. done. }
  simpl. eexists. split; [done|]. split.
  - rewrite length_fmap, Hlen. unfold labels. by rewrite length_fmap.
  - apply Forall_fmap. eapply Forall_impl; [exact Hsel|].
    intros c (Hl & Hf & Hov). simpl. split.
    + by rewrite min_max_normalize_length.
    + by apply normalize_unit.
Qed.

Lemma finite_ranges_no_nan rna :
  finite_ranges rna → isnull_any (gene_cols rna) = false.
Proof.
  intros H. apply isnull_any_false, Forall_forall. intros c Hc.
  unfold gene_cols in Hc. apply list_elem_of_fmap in Hc as ([g c'] & -> & Hin).
  apply elem_of_map_to_list in Hin. destruct (H _ _ Hin) as [Hf _].
  by apply finite_col_no_nan.
Qed.

(** *** The checks of [calc_combined_matrix] *)

Lemma beta_check beta :
  Qlt_bool beta 0 || Qlt_bool 1 beta = true ↔ (beta < 0 ∨ 1 < beta)%Q.
Proof. by rewrite orb_true_iff, !Qlt_bool_iff. Qed.

Lemma select_columns_exn cols ls e :
  select_columns cols ls = Raise e → e = KeyError.
Proof.
  unfold select_columns. induction ls as [|g ls IH]; simpl; [done|].
  destruct (cols !! g); simpl.
  - destruct (traverse _ ls); simpl; [done|]. intros [= <-]. by apply IH.
  - by intros [= <-].
Qed.

Lemma rna_norm_exn sm rna e :
  rna_norm sm rna = Raise e →
  e = KeyError ∨ e = ValueError "cannot reindex on an axis with duplicate labels".
Proof.
  unfold rna_norm, reindex.
  destruct (decide _); simpl.
  - destruct (select_columns _ _) eqn:E; simpl; [done|].
    intros [= <-]. left. by eapply select_columns_exn.
  - destruct (decide _); simpl; [|intros [= <-]; by right].
    destruct (select_columns _ _) eqn:E; simpl; [done|].
    intros [= <-]. left. by eapply select_columns_exn.
Qed.

(** Claim C5: [calc_combined_matrix] raises the blending-weight
    [ValueError] ("Alpha must be a value between 0 and 1, inclusive") when
    and only when [beta] is strictly below 0 or strictly above 1; on that
    error nothing is computed and the file system is left as it was.  In
    particular [beta] equal to 0 or to 1 never raises it. *)
Theorem beta_validation sm_mat rna_mat beta replace_nan save_args fs :
  ((calc_combined_matrix sm_mat rna_mat beta replace_nan save_args fs).1
     = Raise (ValueError msg_beta) ↔ (beta < 0 ∨ 1 < beta)%Q) ∧
  ((beta < 0 ∨ 1 < beta)%Q →
     calc_combined_matrix sm_mat rna_mat beta replace_nan save_args fs
     = (Raise (ValueError msg_beta), fs)).
Proof.
  unfold calc_combined_matrix, combine.
  destruct (Qlt_bool beta 0 || Qlt_bool 1 beta) eqn:Hb.
  - apply beta_check in Hb. simpl. split; [done|done].
  - assert (¬ (beta < 0 ∨ 1 < beta)%Q) as Hn.
    { intros H. apply beta_check in H. congruence. }
    split; [|done]. split; [|done]. intros H. exfalso.
    destruct (isnull_any _); [simpl in H; discriminate|].
    destruct (isnull_any _); [simpl in H; discriminate|].
    destruct (rna_norm _ _) as [norm|e] eqn:E; simpl in H.
    + destruct (save_path _); simpl in H; discriminate.
    + apply rna_norm_exn in E as [->| ->]; simpl in H; discriminate.
Qed.

Lemma weighted_sum_entry beta sm norm j i g sc nc s r :
  columns sm !! j = Some (g, sc) → norm !! j = Some nc →
  sc !! i = Some s → nc !! i = Some r →
  entry (weighted_sum beta sm norm) j i = Some (blend beta s r).
Proof.
  intros Hc Hn Hs Hr. unfold entry, weighted_sum. simpl.
  rewrite lookup_zip_with, Hc. simpl. rewrite Hn. simpl.
  rewrite lookup_zip_with, Hs. simpl. by rewrite Hr.
Qed.

Lemma combine_ok sm rna beta rn :
  (0 <= beta <= 1)%Q →
  isnull_any (columns sm).*2 = false → isnull_any (gene_cols rna) = false →
  combine sm rna beta rn =
    let* norm := rna_norm sm rna in Ok (weighted_sum beta sm norm).
Proof.
  intros Hb Hs Hr. unfold combine.
  destruct (Qlt_bool beta 0 || Qlt_bool 1 beta) eqn:E.
  { apply beta_check in E. lra. }
  rewrite Hs, Hr. destruct rn; [|done].
  by rewrite fillna_frame_id, fillna_expr_id.
Qed.

Lemma calc_result sm rna beta rn args fs :
  (calc_combined_matrix sm rna beta rn args fs).1 = combine sm rna beta rn.
Proof.
  unfold calc_combined_matrix. destruct (combine _ _ _ _); [|done].
  by destruct (save_path _).
Qed.

Lemma weighted_sum_labels beta sm norm :
  length norm = length (columns sm) →
  labels (weighted_sum beta sm norm) = labels sm.
Proof.
  unfold labels, weighted_sum. simpl.
  generalize (columns sm). intros cs. revert norm.
  induction cs as [|c cs IH]; intros [|n norm] Hl; simplify_eq/=; [done|].
  f_equal. by apply IH.
Qed.

(** *** The weighted sum *)

(** The four operations of [beta * s + (1 - beta) * r] on numbers in
    range. *)
Lemma blend_fin beta s r :
  (- fmax <= rnd (beta * s) <= fmax)%Q →
  (- fmax <= rnd (1 - beta) <= fmax)%Q →
  (- fmax <= rnd (rnd (1 - beta) * r) <= fmax)%Q →
  (- fmax <= rnd (rnd (beta * s) + rnd (rnd (1 - beta) * r)) <= fmax)%Q →
  blend beta (Some (Fin s)) (Some (Fin r))
  = Some (Fin (rnd (rnd (beta * s) + rnd (rnd (1 - beta) * r)))).
Proof.
  intros H1 H2 H3 H4. unfold blend. simpl.
  change (1 + - beta)%Q with (1 - beta)%Q.
  rewrite (round_fin _ H1), (round_fin _ H2). simpl.
  rewrite (round_fin _ H3). simpl. by rewrite (round_fin _ H4).
Qed.

(** The convex combination of a 0 or 1 and a number between 0 and 1, with
    a weight that is a double between 0 and 1, is between 0 and 1. *)
Lemma blend_unit beta s r :
  (0 <= beta <= 1)%Q → (rnd beta == beta)%Q →
  (s == 0 ∨ s == 1)%Q → (0 <= r <= 1)%Q →
  blend beta (Some (Fin s)) (Some (Fin r))
  = Some (Fin (rnd (rnd (beta * s) + rnd (rnd (1 - beta) * r)))) ∧
  (0 <= rnd (rnd (beta * s) + rnd (rnd (1 - beta) * r)) <= 1)%Q.
Proof.
  intros Hb Hrep Hs Hr. pose proof fmax_ge_1 as Hf.
  assert (0 <= rnd (1 - beta) <= 1)%Q as Hu.
  { split; [apply rnd_nonneg; lra|apply rnd_le_1; lra]. }
  assert (0 <= rnd (rnd (1 - beta) * r) <= rnd (1 - beta))%Q as Ht.
  { split; [apply rnd_nonneg; nra|].
    eapply Qle_trans; [apply (rnd_mono _ (rnd (1 - beta))); nra|].
    pose proof (rnd_idem (1 - beta)). lra. }
  assert (0 <= rnd (beta * s) <= 1)%Q as Hp.
  { split; [apply rnd_nonneg; destruct Hs as [-> | ->]; lra|
            apply rnd_le_1; destruct Hs as [-> | ->]; lra]. }
  assert (0 <= rnd (rnd (beta * s) + rnd (rnd (1 - beta) * r)) <= 1)%Q as Hv.
  { split; [apply rnd_nonneg; lra|]. destruct Hs as [Hs|Hs].
    - assert (rnd (beta * s) == 0)%Q as E by (apply rnd_zero; rewrite Hs; ring).
      apply rnd_le_1. lra.
    - assert (rnd (beta * s) == beta)%Q as E.
      { apply rnd_double; [rewrite Hs; ring|done]. }
      eapply Qle_trans; [|apply (rnd_compl beta Hb)].
      apply rnd_mono. lra. }
  split; [|done]. apply blend_fin; lra.
Qed.

(** With weight 1 the sum is the first number, if that is a double. *)
Lemma blend_one s r :
  is_double s → (- fmax <= r <= fmax)%Q →
  cell_eqv (blend 1 (Some (Fin s)) (Some (Fin r))) (Some (Fin s)).
Proof.
  intros [Hrep Hs] Hr. pose proof fmax_pos as Hf.
  assert (rnd (1 * s) == s)%Q as E1 by (apply rnd_double; [ring|done]).
  assert (rnd (1 - 1) == 0)%Q as E2 by (apply rnd_zero; ring).
  assert (rnd (rnd (1 - 1) * r) == 0)%Q as E3
    by (apply rnd_zero; rewrite E2; ring).
  assert (rnd (rnd (1 * s) + rnd (rnd (1 - 1) * r)) == s)%Q as E4.
  { apply rnd_double; [rewrite E1, E3; ring|done]. }
  rewrite blend_fin by lra. by constructor.
Qed.

(** With weight 0 the sum is the second number, if that is a double. *)
Lemma blend_zero s r :
  (- fmax <= s <= fmax)%Q → is_double r →
  cell_eqv (blend 0 (Some (Fin s)) (Some (Fin r))) (Some (Fin r)).
Proof.
  intros Hs [Hrep Hr]. pose proof fmax_pos as Hf. pose proof fmax_ge_1.
  assert (rnd (0 * s) == 0)%Q as E1 by (apply rnd_zero; ring).
  assert (rnd (1 - 0) == 1)%Q as E2 by (apply rnd_one; ring).
  assert (rnd (rnd (1 - 0) * r) == r)%Q as E3.
  { apply rnd_double; [rewrite E2; ring|done]. }
  assert (rnd (rnd (0 * s) + rnd (rnd (1 - 0) * r)) == r)%Q as E4.
  { apply rnd_double; [rewrite E1, E3; ring|done]. }
  rewrite blend_fin by lra. by constructor.
Qed.

Lemma blend_col sc nc :
  length sc = length nc →
  Forall (λ y, ∃ x, y = Some (Fin x) ∧ is_double x) sc →
  Forall (λ y, ∃ x, y = Some (Fin x) ∧ is_double x) nc →
  col_eqv (zip_with (blend 1) sc nc) sc ∧
  col_eqv (zip_with (blend 0) sc nc) nc.
Proof.
  intros Hlen Hs Hn. rewrite Forall_forall in Hs, Hn.
  assert (∀ beta i y, zip_with (blend beta) sc nc !! i = Some y →
            ∃ sv rv, sc !! i = Some (Some (Fin sv)) ∧ nc !! i = Some (Some (Fin rv)) ∧
                     is_double sv ∧ is_double rv ∧
                     y = blend beta (Some (Fin sv)) (Some (Fin rv))) as Hz.
  { intros beta i y Hy. apply lookup_zip_with_Some in Hy as (s & r & -> & Hsi & Hri).
    destruct (Hs s) as (sv & -> & ?). { by eapply list_elem_of_lookup_2. }
    destruct (Hn r) as (rv & -> & ?). { by eapply list_elem_of_lookup_2. }
    by exists sv, rv. }
  split; apply Forall2_same_length_lookup.
  - split. { rewrite length_zip_with. lia. }
    intros i y z Hy Hzz. apply Hz in Hy as (sv & rv & Hsi & Hri & Hds & Hdr & ->).
    rewrite Hsi in Hzz. inversion Hzz; subst. apply blend_one; [done|apply Hdr].
  - split. { rewrite length_zip_with. lia. }
    intros i y z Hy Hzz. apply Hz in Hy as (sv & rv & Hsi & Hri & Hds & Hdr & ->).
    rewrite Hri in Hzz. inversion Hzz; subst. apply blend_zero; [apply Hds|done].
Qed.

(** Claim C3, as amended: for NaN-free input matrices where [sm_mat] is
    binary, the expression values are finite with a range per gene that
    does not overflow, and [rna_mat] covers [sm_mat] (every gene of
    [sm_mat] is a gene column of [rna_mat], every sample of [sm_mat] is among
    the distinct patient identifiers of [rna_mat]), and every double [beta]
    in the unit interval, [calc_combined_matrix] returns a matrix with the
    labels of [sm_mat] whose every entry is the convex combination
    [beta * s + (1 - beta) * r], as the doubles compute it, of the mutation
    entry [s] and the normalized expression entry [r], and lies in the unit
    interval. *)
Theorem combined_in_unit_interval sm_mat rna_mat beta replace_nan save_args fs :
  rect sm_mat → rect_expr rna_mat →
  isnull_any (columns sm_mat).*2 = false →
  isnull_any (gene_cols rna_mat) = false →
  binary sm_mat → (0 <= beta <= 1)%Q → (rnd beta == beta)%Q →
  aligned sm_mat rna_mat → finite_ranges rna_mat →
  ∃ norm M,
    rna_norm sm_mat rna_mat = Ok norm ∧
    (calc_combined_matrix sm_mat rna_mat beta replace_nan save_args fs).1 = Ok M ∧
    index M = index sm_mat ∧ labels M = labels sm_mat ∧
    ∀ j i, j < length (columns sm_mat) → i < length (index sm_mat) →
      ∃ s r v,
        entry sm_mat j i = Some (Some (Fin s)) ∧
        norm_entry norm j i = Some (Some (Fin r)) ∧
        entry M j i = Some (Some (Fin v)) ∧
        (v == rnd (rnd (beta * s) + rnd (rnd (1 - beta) * r)))%Q ∧
        (0 <= r <= 1)%Q ∧ (0 <= v <= 1)%Q.
Proof.
  intros Hrect Hrect' Hsn Hrn Hbin Hb Hrep Hal Hfin.
  destruct (rna_norm_ok sm_mat rna_mat Hrect' Hfin Hal) as (norm & Hnorm & Hlen & Hunit).
  exists norm, (weighted_sum beta sm_mat norm).
  split; [done|]. split.
  { rewrite calc_result, combine_ok by done. by rewrite Hnorm. }
  split; [done|]. split; [by apply weighted_sum_labels|].
  intros j i Hj Hi.
  apply lookup_lt_is_Some in Hj as [[g sc] Hsc].
  assert (j < length norm) as [nc Hnc]%lookup_lt_is_Some.
  { rewrite Hlen. by eapply lookup_lt_Some. }
  rewrite Forall_forall in Hunit.
  destruct (Hunit nc) as [Hl Hu]; [by eapply list_elem_of_lookup_2|].
  unfold rect in Hrect. rewrite Forall_forall in Hrect.
  assert (length sc = length (index sm_mat)) as Hlsc.
  { apply (Hrect (g, sc)). by eapply list_elem_of_lookup_2. }
  assert (i < length sc) as [s Hs]%lookup_lt_is_Some by lia.
  assert (i < length nc) as [r Hr]%lookup_lt_is_Some by lia.
  unfold binary in Hbin. rewrite Forall_forall in Hbin.
  specialize (Hbin (g, sc)). simpl in Hbin. rewrite Forall_forall in Hbin.
  destruct (Hbin ltac:(by eapply list_elem_of_lookup_2) s) as (b & -> & Hbv);
    [by eapply list_elem_of_lookup_2|].
  rewrite Forall_forall in Hu.
  destruct (Hu r) as (rv & -> & Hrv & _); [by eapply list_elem_of_lookup_2|].
  destruct (blend_unit beta b rv Hb Hrep Hbv Hrv) as [Hblend Hv].
  exists b, rv, (rnd (rnd (beta * b) + rnd (rnd (1 - beta) * rv))).
  split. { unfold entry. rewrite Hsc. simpl. done. }
  split. { unfold norm_entry. rewrite Hnc. simpl. done. }
  split. { erewrite weighted_sum_entry by done. by rewrite Hblend. }
  split; [reflexivity|]. split; [done|done].
Qed.

(** Claim C2, as amended: for NaN-free input matrices of finite doubles
    where [rna_mat] covers [sm_mat] and the range of every gene's expression
    values does not overflow, [calc_combined_matrix] returns a matrix; with
    [beta = 1] it is [sm_mat] unchanged and with [beta = 0] it is the
    column-wise min-max normalized expression matrix aligned to the rows and
    columns of [sm_mat]. *)
Theorem combine_beta_extremes sm_mat rna_mat replace_nan save_args fs :
  rect sm_mat → rect_expr rna_mat →
  isnull_any (columns sm_mat).*2 = false →
  isnull_any (gene_cols rna_mat) = false →
  aligned sm_mat rna_mat → double_frame sm_mat → finite_ranges rna_mat →
  ∃ norm M1 M0,
    rna_norm sm_mat rna_mat = Ok norm ∧
    (calc_combined_matrix sm_mat rna_mat 1 replace_nan save_args fs).1 = Ok M1 ∧
    frame_eqv M1 sm_mat ∧
    (calc_combined_matrix sm_mat rna_mat 0 replace_nan save_args fs).1 = Ok M0 ∧
    frame_eqv M0 (norm_frame sm_mat norm).
Proof.
  intros Hrect Hrect' Hsn Hrn Hal Hdf Hfin.
  destruct (rna_norm_ok sm_mat rna_mat Hrect' Hfin Hal) as (norm & Hnorm & Hlen & Hunit).
  exists norm, (weighted_sum 1 sm_mat norm), (weighted_sum 0 sm_mat norm).
  split; [done|].
  assert (∀ beta, (0 <= beta <= 1)%Q →
            (calc_combined_matrix sm_mat rna_mat beta replace_nan save_args fs).1
            = Ok (weighted_sum beta sm_mat norm)) as Hcalc.
  { intros beta Hb. rewrite calc_result, combine_ok by done. by rewrite Hnorm. }
  unfold rect in Hrect. rewrite Forall_forall in Hrect.
  unfold double_frame in Hdf. rewrite Forall_forall in Hdf.
  rewrite Forall_forall in Hunit. pose proof fmax_ge_1 as Hf.
  assert (∀ j c d, columns sm_mat !! j = Some c → norm !! j = Some d →
            col_eqv (zip_with (blend 1) c.2 d) c.2 ∧
            col_eqv (zip_with (blend 0) c.2 d) d) as Hcols.
  { intros j c d Hc Hd.
    destruct (Hunit d) as [Hl Hu]; [by eapply list_elem_of_lookup_2|].
    apply blend_col.
    - rewrite Hl. apply Hrect. by eapply list_elem_of_lookup_2.
    - apply (Hdf c). by eapply list_elem_of_lookup_2.
    - eapply Forall_impl; [exact Hu|]. intros y (v & -> & Hv & Hrep).
      exists v. split; [done|]. split; [done|lra]. }
  split; [apply Hcalc; lra|]. split; [|split; [apply Hcalc; lra|]].
  - unfold frame_eqv, weighted_sum. simpl. split; [done|].
    apply Forall2_same_length_lookup.
    split; [rewrite length_zip_with; lia|]. intros j y z Hy Hz.
    apply lookup_zip_with_Some in Hy as (c & d & -> & Hc & Hd).
    rewrite Hc in Hz. inversion Hz; subst. simpl. split; [done|].
    by destruct (Hcols j z d Hc Hd).
  - unfold frame_eqv, norm_frame, weighted_sum, labels. simpl. split; [done|].
    apply Forall2_same_length_lookup.
    split; [rewrite length_zip_with, length_zip, length_fmap; lia|]. intros j y z Hy Hz.
    apply lookup_zip_with_Some in Hy as (c & d & -> & Hc & Hd).
    apply lookup_zip_with_Some in Hz as (g & d' & -> & Hg & Hd').
    rewrite Hd in Hd'. inversion Hd'; subst. simpl.
    rewrite list_lookup_fmap, Hc in Hg. inversion Hg; subst. split; [done|].
    by destruct (Hcols j c d' Hc Hd).
Qed.

(** *** Further properties of [calc_combined_matrix] *)

(** Whatever [replace_nan] says, a missing value in [sm_mat] is rejected
    once [beta] has passed its test. *)
Lemma missing_values_rejected sm_mat rna_mat beta replace_nan :
  (0 <= beta <= 1)%Q → isnull_any (columns sm_mat).*2 = true →
  combine sm_mat rna_mat beta replace_nan = Raise (ValueError msg_sm_nan).
Proof.
  intros Hb Hn. unfold combine.
  destruct (Qlt_bool beta 0 || Qlt_bool 1 beta) eqn:E.
  { apply beta_check in E. lra. }
  by rewrite Hn.
Qed.

(** A column without any number stays as it is: its range is NaN, which is
    not equal to 0, and every quotient is NaN. *)
Lemma min_max_normalize_all_nan col :
  Forall (λ x, x = None) col → min_max_normalize col = col.
Proof.
  intros H. unfold min_max_normalize.
  assert (col_max col = None) as ->.
  { induction H as [|x col -> _ IH]; simpl; [done|]. by rewrite IH. }
  simpl. induction H as [|x col -> _ IH]; simpl; [done|]. by rewrite IH.
Qed.

(** Property X8: the flag [replace_nan] never changes what
    [calc_combined_matrix] returns or writes: the two checks for missing
    values come before the branch that would fill them, so that branch only
    ever sees frames without missing values. *)
Theorem replace_nan_irrelevant sm_mat rna_mat beta save_args fs :
  calc_combined_matrix sm_mat rna_mat beta true save_args fs
  = calc_combined_matrix sm_mat rna_mat beta false save_args fs.
Proof.
  unfold calc_combined_matrix, combine.
  destruct (Qlt_bool beta 0 || Qlt_bool 1 beta); [done|].
  destruct (isnull_any (columns sm_mat).*2) eqn:H1; [done|].
  destruct (isnull_any (gene_cols rna_mat)) eqn:H2; [done|].
  by rewrite fillna_frame_id, fillna_expr_id.
Qed.

Lemma select_columns_missing (cols : gmap string (list cell)) ls g :
  g ∈ ls → cols !! g = None → select_columns cols ls = Raise KeyError.
Proof.
  intros Hg Hn. destruct (select_columns cols ls) as [sel|e] eqn:E.
  - apply list_elem_of_lookup in Hg as [i Hi].
    destruct (traverse_lookup _ _ _ _ _ E Hi) as (b & Hb & _).
    by rewrite Hn in Hb.
  - by rewrite (select_columns_exn _ _ _ E).
Qed.

Lemma reindex_lookup ids target (cols clean : gmap string (list cell)) g :
  reindex ids target cols = Ok clean →
  (is_Some (clean !! g) ↔ is_Some (cols !! g)).
Proof.
  unfold reindex. intros H. repeat case_decide; simplify_eq; [done|].
  rewrite lookup_fmap. by rewrite fmap_is_Some.
Qed.

Lemma select_columns_total (cols : gmap string (list cell)) ls :
  (∀ g, g ∈ ls → is_Some (cols !! g)) →
  ∃ sel, select_columns cols ls = Ok sel.
Proof.
  intros H. apply traverse_ok. intros g Hg.
  destruct (H g Hg) as [c ->]. by eexists.
Qed.

(** Property X9: what [calc_combined_matrix] does once [beta] and the two
    frames have passed the checks.  If the patient identifiers of [rna_mat]
    differ from the samples of [sm_mat] and some identifier is repeated,
    pandas refuses to reindex ([ValueError]); otherwise a gene of [sm_mat]
    that is no column of [rna_mat] gives [KeyError]; otherwise the function
    returns a frame.  Nothing is written when it raises. *)
Theorem outcome_after_checks sm_mat rna_mat beta replace_nan save_args fs :
  (0 <= beta <= 1)%Q →
  isnull_any (columns sm_mat).*2 = false →
  isnull_any (gene_cols rna_mat) = false →
  let run := calc_combined_matrix sm_mat rna_mat beta replace_nan save_args fs in
  if decide (pat_id rna_mat ≠ index sm_mat ∧ ¬ NoDup (pat_id rna_mat)) then
    run = (Raise (ValueError "cannot reindex on an axis with duplicate labels"), fs)
  else if decide (Forall (λ g, is_Some (genes rna_mat !! g)) (labels sm_mat)) then
    ∃ M, run.1 = Ok M
  else run = (Raise KeyError, fs).
Proof.
  intros Hb H1 H2 run. subst run. unfold calc_combined_matrix.
  rewrite (combine_ok _ _ _ _ Hb H1 H2). unfold rna_norm, reindex.
  destruct (decide (pat_id rna_mat ≠ index sm_mat ∧ ¬ NoDup (pat_id rna_mat)))
    as [[Hne Hd]|Hok].
  { rewrite decide_False by done. by rewrite decide_False by done. }
  set (filtered := filter (λ kv, kv.1 ∈ labels sm_mat) (genes rna_mat)).
  assert (∃ clean,
    (if decide (pat_id rna_mat = index sm_mat) then Ok filtered
     else if decide (NoDup (pat_id rna_mat)) then
       Ok ((λ col, map (take_row (pat_id rna_mat) col) (index sm_mat)) <$> filtered)
     else Raise (ValueError "cannot reindex on an axis with duplicate labels"))
    = Ok clean ∧
    ∀ g, g ∈ labels sm_mat →
         (is_Some (clean !! g) ↔ is_Some (genes rna_mat !! g)))
    as (clean & -> & Hclean).
  { assert (∀ g, g ∈ labels sm_mat →
              (is_Some (filtered !! g) ↔ is_Some (genes rna_mat !! g))) as Hf.
    { intros g Hg. unfold filtered, is_Some.
      setoid_rewrite map_lookup_filter_Some. naive_solver. }
    destruct (decide (pat_id rna_mat = index sm_mat)); [by eexists|].
    destruct (decide (NoDup (pat_id rna_mat))); [|exfalso; by apply Hok].
    eexists. split; [done|]. intros g Hg.
    rewrite lookup_fmap, fmap_is_Some. by apply Hf. }
  simpl. destruct (decide (Forall _ _)) as [Hall|Hmiss].
  - rewrite Forall_forall in Hall.
    assert (∀ g, g ∈ labels sm_mat → is_Some (clean !! g)) as Hsome.
    { intros g Hg. apply Hclean; auto. }
    destruct (select_columns_total clean (labels sm_mat) Hsome) as [sel ->].
    simpl. destruct (save_path save_args); by eexists.
  - apply not_Forall_Exists in Hmiss; [|apply _].
    apply Exists_exists in Hmiss as (g & Hg & Hn).
    rewrite (select_columns_missing clean _ g); [done|done|].
    apply eq_None_not_Some. intros Hs. apply Hn. by apply Hclean.
Qed.

(** Property X10: whatever the inputs, a frame returned by
    [calc_combined_matrix] carries the row labels and the column labels of
    [sm_mat], in [sm_mat]'s order; with an [outdir] that same frame is
    stored under [outdir + job_name + 'combined_mat.csv'] ([job_name] alone
    is ignored) and no other path is touched; when the function raises,
    nothing is written. *)
Theorem result_labels_and_file sm_mat rna_mat beta replace_nan save_args fs :
  match calc_combined_matrix sm_mat rna_mat beta replace_nan save_args fs with
  | (Ok M, fs') =>
      index M = index sm_mat ∧ labels M = labels sm_mat ∧
      match outdir save_args with
      | Some d =>
          fs' = <[d +:+ default "" (job_name save_args) +:+ "combined_mat.csv"
                  := M]> fs
      | None => fs' = fs
      end
  | (Raise _, fs') => fs' = fs
  end.
Proof.
  unfold calc_combined_matrix.
  destruct (combine sm_mat rna_mat beta replace_nan) as [M|e] eqn:E; [|done].
  assert (index M = index sm_mat ∧ labels M = labels sm_mat) as [Hi Hl].
  { unfold combine in E.
    destruct (Qlt_bool beta 0 || Qlt_bool 1 beta); [done|].
    destruct (isnull_any (columns sm_mat).*2) eqn:H1; [done|].
    destruct (isnull_any (gene_cols rna_mat)) eqn:H2; [done|].
    rewrite fillna_frame_id, fillna_expr_id in E by done.
    assert ((if replace_nan then sm_mat else sm_mat) = sm_mat) as Es
      by by destruct replace_nan.
    assert ((if replace_nan then rna_mat else rna_mat) = rna_mat) as Er
      by by destruct replace_nan.
    rewrite Es, Er in E.
    destruct (rna_norm sm_mat rna_mat) as [norm|] eqn:En; [|done].
    simpl in E. injection E as <-. split; [done|].
    apply weighted_sum_labels.
    unfold rna_norm in En.
    destruct (reindex _ _ _) as [clean|]; [|done]. simpl in En.
    destruct (select_columns _ _) as [sel|] eqn:Hsel; [|done].
    simpl in En. injection En as <-.
    apply traverse_length in Hsel. rewrite length_fmap, Hsel.
    unfold labels. by rewrite length_fmap. }
  unfold save_path.
  destruct (outdir save_args) as [d|]; [|done].
  destruct (job_name save_args) as [j|]; simpl; [done|].
  split; [done|]. split; [done|]. done.
Qed.

(** Property X12: every finite number of a column is normalized to a
    number between 0 and 1 at the same position, whatever other entries of
    the column are missing, provided the column holds no infinity and its
    range does not overflow. *)
Theorem min_max_normalize_bounds (col : list cell) (i : nat) (x : Q) :
  no_inf col → no_overflow col →
  col !! i = Some (Some (Fin x)) →
  ∃ y, min_max_normalize col !! i = Some (Some (Fin y)) ∧ (0 <= y <= 1)%Q.
Proof.
  intros Hni Hov Hi.
  destruct (normalize_number col i x Hni Hov Hi) as (y & Hy & Hu & _).
  by exists y.
Qed.

End Normalize.

(** *** The claims at concrete inputs

    The examples are computed in [binary64_rounding], the arithmetic of
    the doubles. *)

Ltac elem_cases H :=
  repeat (apply elem_of_cons in H as [H|H]; [inversion H; subst; clear H|]);
  try (by apply elem_of_nil in H).

Lemma rect_three : rect sm_three.
Proof. repeat constructor. Qed.
Lemma rect_expr_three : rect_expr rna_three.
Proof. apply map_Forall_singleton. reflexivity. Qed.
Lemma binary_three : binary sm_three.
Proof.
  repeat constructor; simpl; eexists; (split; [reflexivity|]);
    first [left; reflexivity | right; reflexivity].
Qed.
Lemma aligned_three : aligned sm_three rna_three.
Proof.
  split; [|split].
  - intros g Hg. apply list_elem_of_singleton in Hg as ->. by eexists.
  - intros s Hs. simpl in *. rewrite !elem_of_cons in Hs. rewrite !elem_of_cons.
    destruct Hs as [->|[->|[->|Hs]]]; auto; by apply elem_of_nil in Hs.
  - apply (bool_decide_unpack _). vm_compute. reflexivity.
Qed.
Lemma double_frame_three : double_frame sm_three.
Proof.
  repeat constructor; simpl; eexists; (split; [reflexivity|]);
    (split; [reflexivity|split; by vm_compute]).
Qed.
Lemma finite_ranges_three : finite_ranges rna_three.
Proof.
  apply map_Forall_singleton. split.
  - repeat constructor; by eexists.
  - intros x y Hx Hy. elem_cases Hx; elem_cases Hy; by vm_compute.
Qed.

Lemma binary_two : binary sm_two.
Proof.
  repeat constructor; simpl; eexists; (split; [reflexivity|]);
    first [left; reflexivity | right; reflexivity].
Qed.
Lemma aligned_far : aligned sm_two rna_far.
Proof.
  split; [|split].
  - intros g Hg. apply list_elem_of_singleton in Hg as ->. by eexists.
  - intros s Hs. done.
  - apply (bool_decide_unpack _). vm_compute. reflexivity.
Qed.

(** Claim C1 at its failing input: a mutation matrix with one missing
    value, [replace_nan = True].  The matrix is rejected with the
    missing-value [ValueError]; nothing is replaced and nothing combined. *)
Lemma replace_nan_still_rejected :
  has_nan [Some (Fin 1); None] = true ∧
  calc_combined_matrix sm_missing rna_two (4#5) true no_save ∅
  = (Raise (ValueError msg_sm_nan), ∅).
Proof. split; vm_compute; reflexivity. Qed.

(** Claim C2, as stated, fails in two ways.  On [sm_three] and [rna_two]
    both inputs are NaN-free, but sample [s3] of [sm_mat] is no patient of
    [rna_mat]; re-indexing fills its row with NaN, and with [beta = 1] the
    result holds NaN where [sm_mat] holds 1.  On [sm_two] and [rna_far] the
    samples and genes agree, but the expression values [-2^1023] and
    [2^1023] have a range beyond the largest double: the second one is
    normalized to NaN, and [1 * 1 + 0 * NaN] is NaN. *)
Lemma combine_beta_one_counterexample :
  (isnull_any (columns sm_three).*2 = false ∧
   isnull_any (gene_cols rna_two) = false ∧
   ∃ M, (calc_combined_matrix sm_three rna_two 1 false no_save ∅).1 = Ok M ∧
        entry sm_three 0 2 = Some (Some (Fin 1)) ∧ entry M 0 2 = Some None ∧
        ¬ frame_eqv M sm_three) ∧
  (isnull_any (columns sm_two).*2 = false ∧
   isnull_any (gene_cols rna_far) = false ∧
   aligned sm_two rna_far ∧
   ∃ M, (calc_combined_matrix sm_two rna_far 1 false no_save ∅).1 = Ok M ∧
        entry sm_two 0 1 = Some (Some (Fin 1)) ∧ entry M 0 1 = Some None).
Proof.
  split.
  - split; [vm_compute; reflexivity|]. split; [vm_compute; reflexivity|].
    eexists. split; [vm_compute; reflexivity|].
    split; [reflexivity|]. split; [reflexivity|].
    intros [_ H]. simpl in H.
    apply Forall2_cons in H as [[_ H] _]. simpl in H.
    apply Forall2_cons in H as [_ H]. apply Forall2_cons in H as [_ H].
    apply Forall2_cons in H as [H _]. inversion H.
  - split; [vm_compute; reflexivity|]. split; [vm_compute; reflexivity|].
    split; [exact aligned_far|].
    eexists. split; [vm_compute; reflexivity|]. split; reflexivity.
Qed.

(** Claim C3, as stated, fails on the same inputs: the returned matrix has a
    NaN entry, which lies in no interval. *)
Lemma combined_unit_interval_counterexample :
  (isnull_any (columns sm_three).*2 = false ∧
   isnull_any (gene_cols rna_two) = false ∧
   binary sm_three ∧
   ∃ M, (calc_combined_matrix sm_three rna_two (1#2) false no_save ∅).1 = Ok M ∧
        entry M 0 2 = Some None) ∧
  (isnull_any (columns sm_two).*2 = false ∧
   isnull_any (gene_cols rna_far) = false ∧
   binary sm_two ∧ aligned sm_two rna_far ∧
   ∃ M, (calc_combined_matrix sm_two rna_far (1#2) false no_save ∅).1 = Ok M ∧
        entry M 0 1 = Some None).
Proof.
  split.
  - split; [vm_compute; reflexivity|]. split; [vm_compute; reflexivity|].
    split; [exact binary_three|].
    eexists. split; [vm_compute; reflexivity|]. reflexivity.
  - split; [vm_compute; reflexivity|]. split; [vm_compute; reflexivity|].
    split; [exact binary_two|]. split; [exact aligned_far|].
    eexists. split; [vm_compute; reflexivity|]. reflexivity.
Qed.

(** Claim C4, as stated, fails: the column holds the two doubles [-2^1023]
    and [2^1023] and is not constant, but its range [2^1024] is beyond the
    largest double, so [col.max() - col.min()] is infinite; the maximum is
    mapped to [inf / inf], which is NaN and not 1. *)
Lemma min_max_normalize_overflow_counterexample :
  is_min col_far (- inject_Z (2 ^ 1023)) ∧
  is_max col_far (inject_Z (2 ^ 1023)) ∧
  ¬ (inject_Z (2 ^ 1023) == - inject_Z (2 ^ 1023))%Q ∧
  col_far !! 1 = Some (Some (Fin (inject_Z (2 ^ 1023)))) ∧
  min_max_normalize col_far !! 1 = Some None.
Proof.
  split; [|split; [|split; [|split]]].
  - split; [by left|]. intros x Hx. unfold col_far in Hx. elem_cases Hx.
    + apply Qle_refl.
    + by vm_compute.
  - split; [right; by left|]. intros x Hx. unfold col_far in Hx. elem_cases Hx.
    + by vm_compute.
    + apply Qle_refl.
  - intros H. vm_compute in H. discriminate.
  - reflexivity.
  - vm_compute. reflexivity.
Qed.

Lemma combined_in_unit_interval_witness :
  ∃ norm M,
    rna_norm sm_three rna_three = Ok norm ∧
    (calc_combined_matrix sm_three rna_three (1#2) false no_save ∅).1 = Ok M ∧
    index M = index sm_three ∧ labels M = labels sm_three ∧
    ∀ j i, j < length (columns sm_three) → i < length (index sm_three) →
      ∃ s r v,
        entry sm_three j i = Some (Some (Fin s)) ∧
        norm_entry norm j i = Some (Some (Fin r)) ∧
        entry M j i = Some (Some (Fin v)) ∧
        (v == rnd (rnd ((1#2) * s) + rnd (rnd (1 - (1#2)) * r)))%Q ∧
        (0 <= r <= 1)%Q ∧ (0 <= v <= 1)%Q.
Proof.
  apply (combined_in_unit_interval sm_three rna_three (1#2) false no_save ∅).
  - exact rect_three.
  - exact rect_expr_three.
  - vm_compute; reflexivity.
  - vm_compute; reflexivity.
  - exact binary_three.
  - split; discriminate.
  - reflexivity.
  - exact aligned_three.
  - exact finite_ranges_three.
Defined.

Lemma combine_beta_extremes_witness :
  ∃ norm M1 M0,
    rna_norm sm_three rna_three = Ok norm ∧
    (calc_combined_matrix sm_three rna_three 1 false no_save ∅).1 = Ok M1 ∧
    frame_eqv M1 sm_three ∧
    (calc_combined_matrix sm_three rna_three 0 false no_save ∅).1 = Ok M0 ∧
    frame_eqv M0 (norm_frame sm_three norm).
Proof.
  apply (combine_beta_extremes sm_three rna_three false no_save ∅).
  - exact rect_three.
  - exact rect_expr_three.
  - vm_compute; reflexivity.
  - vm_compute; reflexivity.
  - exact aligned_three.
  - exact double_frame_three.
  - exact finite_ranges_three.
Defined.

Lemma no_inf_gaps : no_inf col_gaps.
Proof. split; intros H; unfold col_gaps in H; elem_cases H. Qed.

Lemma min_max_normalize_spec_witness :
  ((5 == 1)%Q → min_max_normalize col_gaps = map (λ _, Some (Fin 0)) col_gaps) ∧
  (¬ (5 == 1)%Q →
     ∀ i x, col_gaps !! i = Some x →
       match x with
       | Some (Fin x) =>
           ∃ y, min_max_normalize col_gaps !! i = Some (Some (Fin y)) ∧
                (y == rnd (rnd (x - 1) / rnd (5 - 1)))%Q ∧
                ((x == 1)%Q → (y == 0)%Q) ∧
                ((x == 5)%Q → (y == 1)%Q)
       | _ => min_max_normalize col_gaps !! i = Some None
       end).
Proof.
  apply (min_max_normalize_spec col_gaps 1 5).
  - exact no_inf_gaps.
  - intros x Hx. unfold col_gaps in Hx.
    elem_cases Hx; (split; [reflexivity|split; by vm_compute]).
  - split; [by left|]. intros x Hx. unfold col_gaps in Hx.
    elem_cases Hx; by vm_compute.
  - split; [right; right; by left|]. intros x Hx. unfold col_gaps in Hx.
    elem_cases Hx; by vm_compute.
  - by vm_compute.
Defined.

Lemma outcome_after_checks_witness :
  ∃ M, (calc_combined_matrix sm_three rna_three (1#2) false no_save ∅).1 = Ok M.
Proof.
  assert (0 <= 1#2 <= 1)%Q as Hb by lra.
  pose proof (outcome_after_checks sm_three rna_three (1#2) false no_save ∅
                Hb eq_refl eq_refl) as H.
  cbv zeta in H.
  destruct (decide (pat_id rna_three ≠ index sm_three ∧ ¬ NoDup (pat_id rna_three)))
    as [[_ Hd]|_].
  { exfalso. apply Hd. apply (bool_decide_unpack _). vm_compute. reflexivity. }
  destruct (decide (Forall (λ g, is_Some (genes rna_three !! g)) (labels sm_three)))
    as [_|Hn]; [exact H|].
  exfalso. apply Hn. repeat constructor. by eexists.
Defined.

Lemma min_max_normalize_bounds_witness :
  ∃ y, min_max_normalize col_gaps !! 3 = Some (Some (Fin y)) ∧ (0 <= y <= 1)%Q.
Proof.
  apply (min_max_normalize_bounds col_gaps 3 3).
  - exact no_inf_gaps.
  - intros x y Hx Hy. unfold col_gaps in Hx, Hy.
    elem_cases Hx; elem_cases Hy; by vm_compute.
  - reflexivity.
Defined.

End CombineFacts.

(* ================================================================== *)
(** * Properties of [load_binary_mutation_data] *)
(* ================================================================== *)

Module MutationsFacts.
Import Combine Mutations.

Lemma insert_sorted_perm a l : insert_sorted a l ≡ₚ a :: l.
Proof.
  induction l as [|b l IH]; simpl; [done|].
  destruct (String.leb a b); [done|]. rewrite IH. apply Permutation_swap.
Qed.

Lemma sort_labels_perm l : sort_labels l ≡ₚ l.
Proof.
  induction l as [|a l IH]; simpl; [done|].
  by rewrite insert_sorted_perm, IH.
Qed.

Lemma elem_of_levels x l : x ∈ levels l ↔ x ∈ l.
Proof. unfold levels. by rewrite sort_labels_perm, elem_of_remove_dups. Qed.

Lemma NoDup_levels l : NoDup (levels l).
Proof. unfold levels. rewrite sort_labels_perm. apply NoDup_remove_dups. Qed.

Lemma labels_built (f : string → list cell) (h : list cell → list cell)
    (l : list string) :
  (prod_map id h <$> ((λ g, (g, f g)) <$> l)).*1 = l.
Proof. induction l as [|g l IH]; csimpl; [done|]. by rewrite IH. Qed.




(** *** Further properties of the pair-list reader *)
Import CombineFacts.

Lemma split_on_plain sep s : occurs sep s = false → split_on sep s = [s].
Proof.
  induction s as [|c s IH]; simpl; [done|].
  intros H. apply orb_false_iff in H as [-> H]. by rewrite (IH H).
Qed.

Lemma split_on_app sep a s :
  occurs sep a = false →
  split_on sep (a +:+ String sep s) = a :: split_on sep s.
Proof.
  induction a as [|c a IH]; simpl.
  - intros _. by rewrite Ascii.eqb_refl.
  - intros H. apply orb_false_iff in H as [-> H]. by rewrite (IH H).
Qed.

Lemma split_on_occurs sep s :
  occurs sep s = true → ∃ a b rest, split_on sep s = a :: b :: rest.
Proof.
  induction s as [|c s IH]; simpl; [done|].
  destruct (Ascii.eqb c sep); simpl.
  - intros _. destruct (split_on sep s) as [|w ws] eqn:E.
    + by destruct s; simpl in E; [|destruct (Ascii.eqb _ _), (split_on sep _)].
    + by eexists _, _, _.
  - intros H. destruct (IH H) as (a & b & rest & ->). by eexists _, _, _.
Qed.

Lemma parse_line_IndexError line :
  parse_line line = Raise IndexError ↔ occurs tab line = false.
Proof.
  unfold parse_line. split.
  - intros H. destruct (occurs tab line) eqn:E; [|done].
    destruct (split_on_occurs _ _ E) as (a & b & rest & Hs). by rewrite Hs in H.
  - intros H. by rewrite split_on_plain.
Qed.

Lemma parse_line_exn line e : parse_line line = Raise e → e = IndexError.
Proof.
  unfold parse_line. destruct (split_on tab line) as [|a [|b l]]; congruence.
Qed.

Lemma parse_line_tabbed a b :
  occurs tab a = false → occurs tab b = false →
  parse_line (tabbed a b) = Ok (a, b).
Proof.
  intros Ha Hb. unfold parse_line, tabbed.
  by rewrite split_on_app, split_on_plain.
Qed.

(** Property X13: how a line of a pair-list file is read.  A line [a<TAB>b]
    gives the pair [(a, b)]; further tab-separated fields are ignored; a
    line without a tab, a blank line included, has no second field
    ([IndexError]), and that is the only way a line fails. *)
Theorem parse_line_spec (a b : string) :
  occurs tab a = false → occurs tab b = false →
  parse_line (a +:+ String tab b) = Ok (a, b) ∧
  (∀ rest, parse_line (a +:+ String tab (b +:+ String tab rest)) = Ok (a, b)) ∧
  (∀ line, parse_line line = Raise IndexError ↔ occurs tab line = false) ∧
  (∀ line e, parse_line line = Raise e → e = IndexError).
Proof.
  intros Ha Hb. split; [by apply parse_line_tabbed|]. split.
  - intros rest. unfold parse_line. by rewrite !split_on_app.
  - split; [apply parse_line_IndexError|apply parse_line_exn].
Qed.

Lemma parse_line_spec_witness :
  parse_line ("p1" +:+ String tab "TP53") = Ok ("p1", "TP53")%string ∧
  (∀ rest, parse_line ("p1" +:+ String tab ("TP53" +:+ String tab rest))
           = Ok ("p1", "TP53")%string) ∧
  (∀ line, parse_line line = Raise IndexError ↔ occurs tab line = false) ∧
  (∀ line e, parse_line line = Raise e → e = IndexError).
Proof. apply (parse_line_spec "p1" "TP53"); reflexivity. Defined.

Lemma traverse_raise {A B} (f : A → result B) l e :
  traverse f l = Raise e → ∃ a, a ∈ l ∧ f a = Raise e.
Proof.
  induction l as [|a l IH]; simpl; [done|].
  destruct (f a) as [b|e'] eqn:Ea; simpl.
  - destruct (traverse f l) as [bs|e'']; simpl; [done|].
    intros [= ->]. destruct IH as (a' & ? & ?); [done|].
    exists a'. split; [by right|done].
  - intros [= ->]. exists a. split; [by left|done].
Qed.

Lemma traverse_fmap {A B} (f : A → result B) (g : A → B) l :
  (∀ a, a ∈ l → f a = Ok (g a)) → traverse f l = Ok (g <$> l).
Proof.
  induction l as [|a l IH]; simpl; [done|]. intros H.
  rewrite (H a) by by left. simpl. rewrite IH; [done|].
  intros a' Ha'. apply H. by right.
Qed.

Lemma parse_lines_raise lines :
  Exists (λ l, occurs tab l = false) lines →
  traverse parse_line lines = Raise IndexError.
Proof.
  intros H. destruct (traverse parse_line lines) as [pairs|e] eqn:E.
  - apply Exists_exists in H as (l & Hl & Hn).
    apply list_elem_of_lookup in Hl as [i Hi].
    destruct (traverse_lookup _ _ _ _ _ E Hi) as (p & Hp & _).
    apply parse_line_IndexError in Hn. congruence.
  - destruct (traverse_raise _ _ _ E) as (l & _ & Hl).
    by rewrite (parse_line_exn _ _ Hl).
Qed.

Lemma parse_lines_ok lines :
  Forall (λ l, occurs tab l = true) lines →
  ∃ pairs, traverse parse_line lines = Ok pairs ∧ length pairs = length lines.
Proof.
  intros H. rewrite Forall_forall in H.
  destruct (traverse_ok parse_line lines) as [pairs Hp].
  - intros l Hl. destruct (parse_line l) as [p|e] eqn:E; [by eexists|].
    rewrite (parse_line_exn _ _ E) in E. apply parse_line_IndexError in E.
    specialize (H l Hl). congruence.
  - exists pairs. split; [done|]. by eapply traverse_length.
Qed.

Lemma parse_lines_fmap lines pairs :
  traverse parse_line lines = Ok pairs →
  pairs = (λ l, match parse_line l with Ok p => p | Raise _ => (l, l) end) <$> lines.
Proof.
  revert pairs. induction lines as [|l lines IH]; simpl; intros pairs.
  - by intros [= <-].
  - destruct (parse_line l) as [p|]; simpl; [|done].
    destruct (traverse parse_line lines) as [ps|]; simpl; [|done].
    intros [= <-]. csimpl. f_equal. by apply IH.
Qed.

(** Property X14: the ways the pair-list reader fails, and what it makes of
    an empty file.  A line without a tab (a blank line, a trailing empty
    line) gives [IndexError]; a file whose lines all have a tab but which
    lists a pair twice, for one by repeating a line, gives the
    [ValueError] of a failed reshape; a file without lines gives a matrix
    without rows and columns. *)
Theorem load_list_errors
    (read_csv_int : list string → string → result DataFrame)
    (lines : list string) (delimiter : string) :
  let load := load_binary_mutation_data read_csv_int lines "list" delimiter in
  (Exists (λ l, occurs tab l = false) lines → load = Raise IndexError) ∧
  (lines = [] → load = Ok {| index := []; columns := [] |}) ∧
  (Forall (λ l, occurs tab l = true) lines →
     ∃ pairs, traverse parse_line lines = Ok pairs ∧
       (¬ NoDup pairs → load = Raise (ValueError msg_duplicates)) ∧
       (¬ NoDup lines → load = Raise (ValueError msg_duplicates))).
Proof.
  intros load. subst load. unfold load_binary_mutation_data.
  rewrite decide_True by done. split; [|split].
  - intros H. by rewrite (parse_lines_raise _ H).
  - by intros ->.
  - intros Ht. destruct (parse_lines_ok _ Ht) as (pairs & Hp & Hlen).
    exists pairs. split; [done|]. rewrite Hp. simpl.
    assert (¬ NoDup pairs →
            (let* binary_mat := unstack pairs in Ok (fillna_frame binary_mat))
            = Raise (ValueError msg_duplicates)) as Hdup.
    { intros Hd. unfold unstack. by rewrite decide_False. }
    split; [done|]. intros Hd. apply Hdup. intros Hnd. apply Hd.
    rewrite (parse_lines_fmap _ _ Hp) in Hnd. by apply NoDup_fmap_1 in Hnd.
Qed.

Lemma load_list_errors_witness :
  ∃ pairs, traverse parse_line [tabbed "p1" "TP53"; tabbed "p1" "TP53"] = Ok pairs ∧
    (¬ NoDup pairs →
       load_binary_mutation_data (λ _ _, Raise TypeError)
         [tabbed "p1" "TP53"; tabbed "p1" "TP53"] "list" ","
       = Raise (ValueError msg_duplicates)) ∧
    (¬ NoDup [tabbed "p1" "TP53"; tabbed "p1" "TP53"] →
       load_binary_mutation_data (λ _ _, Raise TypeError)
         [tabbed "p1" "TP53"; tabbed "p1" "TP53"] "list" ","
       = Raise (ValueError msg_duplicates)).
Proof.
  apply (load_list_errors (λ _ _, Raise TypeError)
           [tabbed "p1" "TP53"; tabbed "p1" "TP53"] ",").
  repeat constructor.
Defined.

(** [String.leb] is a total order. *)
Lemma ascii_compare_N a b :
  Ascii.compare a b = N.compare (N_of_ascii a) (N_of_ascii b).
Proof. done. Qed.

Lemma ascii_compare_refl a : Ascii.compare a a = Eq.
Proof. rewrite ascii_compare_N. apply N.compare_refl. Qed.

Lemma string_compare_refl s : String.compare s s = Eq.
Proof.
  induction s as [|c s IH]; simpl; [done|]. by rewrite ascii_compare_refl.
Qed.

Lemma string_compare_trans c s1 s2 s3 :
  String.compare s1 s2 = c → String.compare s2 s3 = c → String.compare s1 s3 = c.
Proof.
  revert s2 s3. induction s1 as [|a1 s1 IH]; intros [|a2 s2] [|a3 s3]; simpl;
    try congruence.
  rewrite !ascii_compare_N.
  destruct (N.compare_spec (N_of_ascii a1) (N_of_ascii a2)) as [E12|L12|L12];
  destruct (N.compare_spec (N_of_ascii a2) (N_of_ascii a3)) as [E23|L23|L23];
    try congruence.
  - rewrite E12, E23, N.compare_refl. apply IH.
  - intros _ <-.
    assert ((N_of_ascii a1 ?= N_of_ascii a3)%N = Lt) as ->; [|done].
    apply N.compare_lt_iff. lia.
  - intros _ <-.
    assert ((N_of_ascii a1 ?= N_of_ascii a3)%N = Gt) as ->; [|done].
    apply N.compare_gt_iff. lia.
  - intros <- _.
    assert ((N_of_ascii a1 ?= N_of_ascii a3)%N = Lt) as ->; [|done].
    apply N.compare_lt_iff. lia.
  - intros <- _.
    assert ((N_of_ascii a1 ?= N_of_ascii a3)%N = Lt) as ->; [|done].
    apply N.compare_lt_iff. lia.
  - intros <- _.
    assert ((N_of_ascii a1 ?= N_of_ascii a3)%N = Gt) as ->; [|done].
    apply N.compare_gt_iff. lia.
  - intros <- _.
    assert ((N_of_ascii a1 ?= N_of_ascii a3)%N = Gt) as ->; [|done].
    apply N.compare_gt_iff. lia.
Qed.

#[local] Instance label_le_trans : Transitive label_le.
Proof.
  intros s1 s2 s3. unfold label_le, String.leb.
  destruct (String.compare s1 s2) eqn:E12; [| |done];
  destruct (String.compare s2 s3) eqn:E23; try done; intros _ _.
  - by rewrite (string_compare_trans _ _ _ _ E12 E23).
  - apply String.compare_eq_iff in E12 as ->. by rewrite E23.
  - apply String.compare_eq_iff in E23 as <-. by rewrite E12.
  - by rewrite (string_compare_trans _ _ _ _ E12 E23).
Qed.

#[local] Instance label_le_antisym : AntiSymm (=) label_le.
Proof. intros s1 s2 H1 H2. by apply String.leb_antisym. Qed.

Lemma insert_sorted_sorted a l :
  StronglySorted label_le l → StronglySorted label_le (insert_sorted a l).
Proof.
  induction 1 as [|b l Hl IH Hb]; simpl; [by repeat constructor|].
  destruct (String.leb a b) eqn:E.
  - constructor; [by constructor|]. constructor; [done|].
    eapply Forall_impl; [exact Hb|]. intros c Hc. by etrans.
  - constructor; [done|]. rewrite insert_sorted_perm. constructor; [|done].
    destruct (String.leb_total a b) as [H|H]; [congruence|done].
Qed.

Lemma sort_labels_sorted l : StronglySorted label_le (sort_labels l).
Proof.
  induction l as [|a l IH]; simpl; [constructor|].
  by apply insert_sorted_sorted.
Qed.

Lemma levels_sorted l : StronglySorted label_le (levels l).
Proof. apply sort_labels_sorted. Qed.

Lemma levels_perm l l' : l ≡ₚ l' → levels l = levels l'.
Proof.
  intros H. apply (StronglySorted_unique label_le);
    [apply levels_sorted..|].
  apply NoDup_Permutation; [apply NoDup_levels..|].
  intros x. rewrite !elem_of_levels. by rewrite H.
Qed.

Lemma traverse_perm {A B} (f : A → result B) (g : A → B) l l' :
  l ≡ₚ l' → traverse f l = Ok (g <$> l) → traverse f l' = Ok (g <$> l').
Proof.
  intros Hp H. apply traverse_fmap. intros a Ha.
  rewrite <- Hp in Ha. apply list_elem_of_lookup in Ha as [i Hi].
  destruct (traverse_lookup _ _ _ _ _ H Hi) as (b & Hb & Hbi).
  rewrite list_lookup_fmap, Hi in Hbi. simpl in Hbi. congruence.
Qed.

(** Property X15: the matrix read from a pair-list file does not depend on
    the order of the file's lines: rows and columns come out in ascending
    order of their labels, and a file that is rejected is rejected in the
    same way in any order of its lines. *)
Theorem load_list_order_irrelevant
    (read_csv_int : list string → string → result DataFrame)
    (lines lines' : list string) (delimiter : string) :
  lines ≡ₚ lines' →
  load_binary_mutation_data read_csv_int lines "list" delimiter
  = load_binary_mutation_data read_csv_int lines' "list" delimiter ∧
  ∀ M, load_binary_mutation_data read_csv_int lines "list" delimiter = Ok M →
       StronglySorted label_le (index M) ∧ StronglySorted label_le (labels M).
Proof.
  intros Hp. unfold load_binary_mutation_data. rewrite decide_True by done.
  split.
  - destruct (traverse parse_line lines) as [pairs|e] eqn:E.
    + pose proof (parse_lines_fmap _ _ E) as Ep. rewrite Ep in E.
      rewrite (traverse_perm _ _ _ _ Hp E). simpl.
      set (g := λ l, match parse_line l with Ok p => p | Raise _ => (l, l) end) in *.
      assert (g <$> lines ≡ₚ g <$> lines') as Hq by by rewrite Hp.
      rewrite <- Ep in *. clear Ep E. revert Hq.
      generalize (g <$> lines'). intros pairs' Hq.
      unfold unstack.
      destruct (decide (NoDup pairs)) as [Hn|Hn].
      * rewrite decide_True by by rewrite <- Hq. simpl. do 2 f_equal.
        rewrite (levels_perm pairs.*1 pairs'.*1) by by rewrite Hq.
        rewrite (levels_perm pairs.*2 pairs'.*2) by by rewrite Hq.
        f_equal. apply list_fmap_ext. intros _ gname _. f_equal.
        apply list_fmap_ext. intros _ s _.
        destruct (decide ((s, gname) ∈ pairs)) as [Hin|Hin].
        -- by rewrite decide_True by by rewrite <- Hq.
        -- by rewrite decide_False by by rewrite <- Hq.
      * by rewrite decide_False by by rewrite <- Hq.
    + destruct (traverse_raise _ _ _ E) as (l & Hl & Hr).
      pose proof (parse_line_exn _ _ Hr) as ->.
      rewrite (parse_lines_raise lines'); [done|].
      apply Exists_exists. exists l. split; [by rewrite <- Hp|].
      by apply parse_line_IndexError.
  - intros M. destruct (traverse parse_line lines) as [pairs|e]; [|done].
    simpl. unfold unstack. destruct (decide (NoDup pairs)); [|done]. simpl.
    intros [= <-]. unfold labels. simpl. rewrite labels_built.
    split; apply levels_sorted.
Qed.

Lemma load_list_order_irrelevant_witness :
  load_binary_mutation_data (λ _ _, Raise TypeError) three_lines "list" ","
  = load_binary_mutation_data (λ _ _, Raise TypeError) (reverse three_lines) "list" "," ∧
  ∀ M, load_binary_mutation_data (λ _ _, Raise TypeError) three_lines "list" ","
       = Ok M →
       StronglySorted label_le (index M) ∧ StronglySorted label_le (labels M).
Proof.
  apply (load_list_order_irrelevant (λ _ _, Raise TypeError)
           three_lines (reverse three_lines) ",").
  symmetry. apply reverse_Permutation.
Defined.

End MutationsFacts.

(* ================================================================== *)
(** * Properties of [filter_weighted_network] *)
(* ================================================================== *)

Module EdgesFacts.
Import Arith Edges.

(** Claim C8 fails on the code for every input: the table is read with
    [pd.read_csv(..., header=-1)], and pandas refuses a negative [header]
    with a [ValueError] before it reads anything.  Whatever the file holds
    and whatever the columns and [q] are, [filter_weighted_network] raises
    that error and writes nothing; the filtering of lines 162-168 is never
    reached. *)
Theorem filter_weighted_network_raises
    (quantile : list value → Q → result (option num))
    (contents : Table) (save_path : string)
    (nodeA_col nodeB_col score_col : nat) (q : Q) (fs : gmap string Table) :
  filter_weighted_network quantile contents save_path nodeA_col nodeB_col
    score_col q fs
  = (Raise (ValueError msg_header), fs).
Proof. reflexivity. Qed.

End EdgesFacts.

(* ================================================================== *)
(** * Properties of [degree_shuffNet] and [label_shuffNet] *)
(* ================================================================== *)

Module NetFacts.
Import Net.

(** *** Adjacency after the graph operations *)

Lemma adj_lookup (G : Graph) u ns : G !! u = Some ns → adj G u = ns.
Proof. unfold adj. by intros ->. Qed.

Lemma adj_insert (G : Graph) u ns n :
  adj (<[u := ns]> G) n = if decide (n = u) then ns else adj G n.
Proof.
  unfold adj. destruct (decide (n = u)) as [->|Hne].
  - by rewrite lookup_insert_eq.
  - by rewrite lookup_insert_ne.
Qed.

Lemma adj_elem_dom (G : Graph) u v : v ∈ adj G u → u ∈ dom G.
Proof.
  unfold adj. intros H. apply elem_of_dom. destruct (G !! u); [done|].
  simpl in H. set_solver.
Qed.

Lemma adj_add_node n (G : Graph) m : adj (add_node n G) m = adj G m.
Proof.
  unfold add_node. destruct (G !! n) eqn:Hn; [done|].
  rewrite adj_insert. case_decide; [|done]. subst. unfold adj. by rewrite Hn.
Qed.

Lemma dom_add_node n (G : Graph) : dom (add_node n G) = {[n]} ∪ dom G.
Proof.
  unfold add_node. destruct (G !! n) eqn:Hn.
  - assert (n ∈ dom G) by (apply elem_of_dom; eauto). set_solver.
  - by rewrite dom_insert_L.
Qed.

Lemma elem_adj_add_edge a b (G : Graph) n m :
  m ∈ adj (add_edge a b G) n ↔
  m ∈ adj G n ∨ (n = a ∧ m = b) ∨ (n = b ∧ m = a).
Proof.
  unfold add_edge. rewrite !adj_insert.
  repeat case_decide; subst; rewrite ?adj_insert, ?adj_add_node;
    repeat case_decide; subst; rewrite ?adj_add_node; set_solver.
Qed.

Lemma dom_add_edge a b (G : Graph) : dom (add_edge a b G) = {[a; b]} ∪ dom G.
Proof.
  unfold add_edge. rewrite !dom_insert_L, !dom_add_node. set_solver.
Qed.

Lemma remove_edge_ok a b (G : Graph) :
  b ∈ adj G a → a ∈ adj G b →
  ∃ G', remove_edge a b G = (G', true) ∧ dom G' = dom G ∧
    ∀ n m, m ∈ adj G' n ↔ m ∈ adj G n ∧ ¬ (n = a ∧ m = b) ∧ ¬ (n = b ∧ m = a).
Proof.
  intros Hb Ha. unfold remove_edge.
  pose proof (adj_elem_dom _ _ _ Hb) as Hda.
  pose proof (adj_elem_dom _ _ _ Ha) as Hdb.
  destruct (decide (b ∈ adj G a)) as [_|?]; [|done].
  destruct (decide (a = b)) as [->|Hne].
  - eexists. split; [done|]. split.
    + rewrite dom_insert_L. set_solver.
    + intros k m. rewrite adj_insert. case_decide; set_solver.
  - rewrite adj_insert. destruct (decide (b = a)) as [?|_]; [done|].
    destruct (decide (a ∈ adj G b)) as [_|?]; [|done].
    eexists. split; [done|]. split.
    + rewrite !dom_insert_L. set_solver.
    + intros k m. rewrite !adj_insert. repeat case_decide; set_solver.
Qed.

Lemma size_replace (X : gset node) a b :
  a ∉ X → b ∈ X → size ({[a]} ∪ (X ∖ {[b]})) = size X.
Proof.
  intros Ha Hb. rewrite size_union by set_solver.
  rewrite size_singleton, size_difference by set_solver.
  rewrite size_singleton.
  assert (size X ≠ 0); [|lia].
  intros H0. apply size_empty_inv in H0. set_solver.
Qed.

(** The four graph operations of one swap, on a symmetric graph without
    self-loops, when the drawn nodes pass the tests of the loop. *)
Lemma swap_ops (g : Graph) u x v y :
  wf g → loopless g →
  u ≠ x → v ≠ y → v ∈ adj g u → y ∈ adj g x → x ∉ adj g u → y ∉ adj g v →
  ∃ g3 g4,
    remove_edge u v (add_edge v y (add_edge u x g)) = (g3, true) ∧
    remove_edge x y g3 = (g4, true) ∧
    wf g4 ∧ loopless g4 ∧ dom g4 = dom g ∧ ∀ n, degree g4 n = degree g n.
Proof.
  intros Hwf Hll Hux Hvy Hv Hy Hx Hyv.
  assert (u ≠ v) as Huv by (intros ->; by apply (Hll v)).
  assert (x ≠ y) as Hxy by (intros ->; by apply (Hll y)).
  assert (x ≠ v) as Hxv by (intros ->; done).
  assert (y ≠ u) as Hyu by (intros ->; apply Hx; by apply Hwf).
  pose proof (Hwf _ _ Hv) as Hv'. pose proof (Hwf _ _ Hy) as Hy'.
  assert (u ∉ adj g x) as Hx' by (intros ?; apply Hx; by apply Hwf).
  assert (v ∉ adj g y) as Hyv' by (intros ?; apply Hyv; by apply Hwf).
  destruct (remove_edge_ok u v (add_edge v y (add_edge u x g)))
    as (g3 & E3 & D3 & A3).
  { rewrite !elem_adj_add_edge. auto. }
  { rewrite !elem_adj_add_edge. auto. }
  destruct (remove_edge_ok x y g3) as (g4 & E4 & D4 & A4).
  { rewrite A3, !elem_adj_add_edge. naive_solver. }
  { rewrite A3, !elem_adj_add_edge. naive_solver. }
  exists g3, g4. split; [done|]. split; [done|].
  assert (∀ n m, m ∈ adj g4 n ↔
            (m ∈ adj g n ∧ ¬ (n = u ∧ m = v) ∧ ¬ (n = v ∧ m = u)
                         ∧ ¬ (n = x ∧ m = y) ∧ ¬ (n = y ∧ m = x))
            ∨ (n = u ∧ m = x) ∨ (n = x ∧ m = u)
            ∨ (n = v ∧ m = y) ∨ (n = y ∧ m = v)) as A.
  { intros n m. rewrite A4, A3, !elem_adj_add_edge. naive_solver. }
  assert (loopless g4) as Hll4.
  { intros n. rewrite A. specialize (Hll n). naive_solver. }
  split.
  { intros a b. rewrite !A. intros H. specialize (Hwf a b). naive_solver. }
  split; [done|]. split.
  { rewrite D4, D3, !dom_add_edge.
    apply adj_elem_dom in Hv, Hy, Hv', Hy'. set_solver. }
  intros n. unfold degree.
  destruct (decide (n ∈ adj g4 n)) as [H|_]; [by apply Hll4 in H|].
  destruct (decide (n ∈ adj g n)) as [H|_]; [by apply Hll in H|].
  f_equal.
  destruct (decide (n = u)) as [->|Hnu].
  { rewrite <- (size_replace (adj g u) x v) by done. f_equal.
    apply set_eq. intros m. rewrite A. set_unfold. naive_solver. }
  destruct (decide (n = x)) as [->|Hnx].
  { rewrite <- (size_replace (adj g x) u y) by done. f_equal.
    apply set_eq. intros m. rewrite A. set_unfold. naive_solver. }
  destruct (decide (n = v)) as [->|Hnv].
  { rewrite <- (size_replace (adj g v) y u) by done. f_equal.
    apply set_eq. intros m. rewrite A. set_unfold. naive_solver. }
  destruct (decide (n = y)) as [->|Hny].
  { rewrite <- (size_replace (adj g y) v x) by done. f_equal.
    apply set_eq. intros m. rewrite A. set_unfold. naive_solver. }
  f_equal. apply set_eq. intros m. rewrite A. naive_solver.
Qed.

Lemma length_NoDup_size (l : list node) (X : gset node) :
  NoDup l → (∀ x, x ∈ l ↔ x ∈ X) → length l = size X.
Proof.
  intros Hnd Hl. rewrite <- (size_list_to_set (C := gset node) l) by done.
  f_equal. apply set_eq. intros x. rewrite elem_of_list_to_set. apply Hl.
Qed.

Lemma length_unseen (seen ns : gset node) :
  length (filter (λ nbr, nbr ∉ seen) (elements ns)) = size (ns ∖ seen).
Proof.
  apply length_NoDup_size.
  - apply NoDup_filter, NoDup_elements.
  - intros x. rewrite list_elem_of_filter, elem_of_elements. set_solver.
Qed.

Lemma sum_ind_filter {A} (P : A → Prop) `{∀ a, Decision (P a)} (l : list A) :
  sum_list_with (λ a, ind (P a)) l = length (filter P l).
Proof.
  induction l as [|a l IH]; simpl; [done|].
  rewrite filter_cons. unfold ind at 1. destruct (decide (P a)); simpl; lia.
Qed.

Lemma size_unseen_step (seen ns : gset node) k :
  k ∉ seen → size (ns ∖ seen) = size (ns ∖ ({[k]} ∪ seen)) + ind (k ∈ ns).
Proof.
  intros Hk. unfold ind. destruct (decide (k ∈ ns)).
  - replace (ns ∖ seen) with ({[k]} ∪ (ns ∖ ({[k]} ∪ seen))).
    + rewrite size_union, size_singleton by set_solver. lia.
    + apply set_eq. intros m. set_unfold. destruct (decide (m = k)); naive_solver.
  - replace (ns ∖ ({[k]} ∪ seen)) with (ns ∖ seen) by set_solver. lia.
Qed.

Lemma deg_from_split seen k (rest : list (node * gset node)) :
  k ∉ seen →
  sum_list_with (deg_from seen) rest =
  sum_list_with (deg_from ({[k]} ∪ seen)) rest
  + sum_list_with (λ p, ind (k ∈ p.2)) rest.
Proof.
  intros Hk. induction rest as [|p rest IH]; simpl; [done|].
  rewrite IH. unfold deg_from at 1 3. rewrite (size_unseen_step seen p.2 k) by done.
  lia.
Qed.

Lemma count_nbrs seen k (ks : gset node) (rest : list (node * gset node)) :
  NoDup rest.*1 →
  (∀ p, p ∈ rest → (p.1 ∉ seen) ∧ p.1 ≠ k) →
  (∀ m, m ∈ ks → m ∈ seen ∨ m = k ∨ m ∈ rest.*1) →
  (∀ p, p ∈ rest → k ∈ p.2 ↔ p.1 ∈ ks) →
  sum_list_with (λ p, ind (k ∈ p.2)) rest = size (ks ∖ seen ∖ {[k]}).
Proof.
  intros Hnd Hfresh Hclosed Hsym.
  transitivity (sum_list_with (λ p : node * gset node, ind (p.1 ∈ ks)) rest).
  { clear -Hsym. induction rest as [|p rest IH]; simpl; [done|].
    rewrite IH by (intros; apply Hsym; by right). f_equal.
    unfold ind. specialize (Hsym p ltac:(left)).
    destruct (decide (k ∈ p.2)), (decide (p.1 ∈ ks)); tauto. }
  rewrite sum_ind_filter.
  transitivity (length (filter (λ m, m ∈ ks) rest.*1)).
  { clear. induction rest as [|p rest IH]; simpl; [done|].
    rewrite !filter_cons. simpl. destruct (decide (p.1 ∈ ks)); simpl; by rewrite IH. }
  apply length_NoDup_size.
  - by apply NoDup_filter.
  - intros m. rewrite list_elem_of_filter. split.
    + intros [Hm Hin]. apply list_elem_of_fmap in Hin as (p & -> & Hp).
      destruct (Hfresh p Hp). set_solver.
    + intros Hm. split; [set_solver|].
      destruct (Hclosed m) as [?|[?|?]]; set_solver.
Qed.

(** Handshake lemma for the edge iteration. *)
Lemma handshake_from seen (l : list (node * gset node)) :
  NoDup l.*1 →
  (∀ p, p ∈ l → p.1 ∉ seen) →
  (∀ p m, p ∈ l → m ∈ p.2 → m ∈ seen ∨ m ∈ l.*1) →
  (∀ p q, p ∈ l → q ∈ l → q.1 ∈ p.2 ↔ p.1 ∈ q.2) →
  2 * length (edges_from seen l) = sum_list_with (deg_from seen) l.
Proof.
  revert seen. induction l as [|[k ks] rest IH]; intros seen Hnd Hfresh Hclosed Hsym;
    simpl; [done|].
  apply NoDup_cons in Hnd as [Hk Hnd].
  rewrite length_app, length_fmap, length_unseen.
  assert (k ∉ seen) as Hks by (apply (Hfresh (k, ks)); left).
  rewrite (deg_from_split seen k rest) by done.
  rewrite (count_nbrs seen k ks rest); first last.
  { intros p Hp. symmetry. apply (Hsym (k, ks) p); [left|by right]. }
  { intros m Hm. destruct (Hclosed (k, ks) m) as [?|Hin]; [left|done|by left|].
    simpl in Hin. apply elem_of_cons in Hin as [?|?]; auto. }
  { intros p Hp. split; [apply Hfresh; by right|].
    intros E. apply Hk. apply list_elem_of_fmap. by exists p. }
  { done. }
  rewrite <- IH; first last.
  { intros p q Hp Hq. apply Hsym; by right. }
  { intros p m Hp Hm. destruct (Hclosed p m) as [?|Hin]; [by right|done|set_solver|].
    simpl in Hin. apply elem_of_cons in Hin as [->|?]; set_solver. }
  { intros p Hp. assert (p.1 ≠ k).
    { intros E. apply Hk. apply list_elem_of_fmap. by exists p. }
    specialize (Hfresh p ltac:(by right)). set_solver. }
  { done. }
  unfold deg_from at 1. simpl.
  assert (size (ks ∖ seen) = size (ks ∖ seen ∖ {[k]}) + ind (k ∈ ks)) as ->; [|lia].
  unfold ind. destruct (decide (k ∈ ks)).
  - rewrite (size_difference (ks ∖ seen) {[k]}) by set_solver.
    rewrite size_singleton.
    assert (size (ks ∖ seen) ≠ 0); [|lia].
    intros H0. apply size_empty_inv in H0. set_solver.
  - replace (ks ∖ seen ∖ {[k]}) with (ks ∖ seen) by set_solver. lia.
Qed.

Lemma elem_map_to_list_adj (G : Graph) p :
  p ∈ map_to_list G → adj G p.1 = p.2.
Proof.
  destruct p as [k ks]. intros H. apply elem_of_map_to_list in H.
  simpl. unfold adj. by rewrite H.
Qed.

Lemma elem_nodes (G : Graph) n : n ∈ nodes G ↔ n ∈ dom G.
Proof.
  unfold nodes. rewrite elem_of_dom. split.
  - intros (p & -> & Hp)%list_elem_of_fmap. destruct p as [k ks].
    apply elem_of_map_to_list in Hp. by eexists.
  - intros [ks Hk]. apply list_elem_of_fmap. exists (n, ks). split; [done|].
    by apply elem_of_map_to_list.
Qed.

Lemma NoDup_nodes (G : Graph) : NoDup (nodes G).
Proof. apply NoDup_fst_map_to_list. Qed.

Lemma handshake (G : Graph) :
  wf G → 2 * length (edges G) = sum_list_with (degree G) (nodes G).
Proof.
  intros Hwf. unfold edges. rewrite handshake_from.
  - unfold nodes. generalize (elem_map_to_list_adj G).
    induction (map_to_list G) as [|p l IH]; intros Hadj; simpl; [done|].
    rewrite IH by (intros; apply Hadj; by right). f_equal.
    unfold deg_from, degree, ind. rewrite (Hadj p) by left.
    replace (p.2 ∖ ∅) with p.2 by set_solver. done.
  - apply NoDup_fst_map_to_list.
  - set_solver.
  - intros p m Hp Hm. right. apply elem_nodes.
    rewrite <- (elem_map_to_list_adj G p Hp) in Hm.
    apply Hwf in Hm. by eapply adj_elem_dom.
  - intros p q Hp Hq.
    rewrite <- (elem_map_to_list_adj G p Hp), <- (elem_map_to_list_adj G q Hq).
    split; apply Hwf.
Qed.

(** Graphs with the same nodes and the same degrees have as many edges. *)
Lemma same_degrees_same_edges (G H : Graph) :
  wf G → wf H → dom H = dom G → (∀ n, degree H n = degree G n) →
  length (edges H) = length (edges G).
Proof.
  intros HG HH Hdom Hdeg.
  assert (2 * length (edges H) = 2 * length (edges G)); [|lia].
  rewrite !handshake by done.
  transitivity (sum_list_with (degree G) (nodes H)).
  { induction (nodes H) as [|n l IH]; simpl; [done|]. by rewrite IH, Hdeg. }
  assert (nodes H ≡ₚ nodes G) as Hp.
  { apply NoDup_Permutation; [apply NoDup_nodes..|].
    intros n. by rewrite !elem_nodes, Hdom. }
  clear -Hp. induction Hp; simpl; lia.
Qed.

(** *** Rules for the store computations *)

Lemma wp_ret {A} (a : A) Q st : Q (Ret a) st → wp (ret a) Q st.
Proof. done. Qed.

Lemma wp_raise {A} e (Q : outcome A → state → Prop) st :
  Q (Exn e) st → wp (raise e) Q st.
Proof. done. Qed.

Lemma wp_bind {A B} (m : M A) (k : A → M B) Q st :
  wp m (λ r st', match r with
                 | Ret a => wp (k a) Q st'
                 | Exn e => Q (Exn e) st'
                 | OutOfFuel => Q OutOfFuel st'
                 end) st →
  wp (bind m k) Q st.
Proof. unfold wp, bind. by destruct (m st) as [[a|e|] st']. Qed.

Lemma wp_mono {A} (m : M A) (Q Q' : outcome A → state → Prop) st :
  (∀ r st', Q r st' → Q' r st') → wp m Q st → wp m Q' st.
Proof. unfold wp. auto. Qed.

Lemma frame_refl G st : frame G st st.
Proof. done. Qed.

Lemma frame_heap_eq G st st' : heap st' = heap st → frame G st st'.
Proof. intros E. unfold frame. by rewrite E. Qed.

Lemma frame_trans G st1 st2 st3 :
  frame G st1 st2 → frame G st2 st3 → frame G st1 st3.
Proof.
  intros [L1 H1] [L2 H2]. split; [congruence|].
  intros l Hl. by rewrite H2, H1.
Qed.

Lemma wp_randbelow n Q st :
  (∀ r st', (n ≠ 0 → r < n) → heap st' = heap st →
            skipped st' = skipped st → Q (Ret r) st') →
  wp (randbelow n) Q st.
Proof.
  intros H. apply H; [|done..]. intros Hn. by apply Nat.mod_upper_bound.
Qed.

Lemma wp_note_skip Q st :
  (∀ st', heap st' = heap st → skipped st' = S (skipped st) → Q (Ret ()) st') →
  wp note_skip Q st.
Proof. intros H. by apply H. Qed.

Lemma wp_get_graph G Q st :
  (∀ g, heap st !! G = Some g → Q (Ret g) st) →
  (heap st !! G = None → Q (Exn TypeError) st) →
  wp (get_graph G) Q st.
Proof.
  intros H1 H2. unfold wp, get_graph.
  destruct (heap st !! G) eqn:E; simpl; auto.
Qed.

Lemma wp_choice {A} (seq : list A) Q st :
  (∀ a st', a ∈ seq → heap st' = heap st → skipped st' = skipped st →
            Q (Ret a) st') →
  (∀ st', heap st' = heap st → skipped st' = skipped st →
          Q (Exn IndexError) st') →
  wp (choice seq) Q st.
Proof.
  intros H1 H2. destruct seq as [|a0 seq]; [by apply H2|].
  unfold choice. apply wp_bind, wp_randbelow. intros r st' _ Hh Hs.
  destruct ((a0 :: seq) !! r) as [a|] eqn:E.
  - apply wp_ret, H1; [|done..]. by eapply list_elem_of_lookup_2.
  - apply wp_raise. by apply H2.
Qed.

Lemma wp_add_edge_at G u v Q st :
  (∀ g, heap st !! G = Some g →
        Q (Ret ()) (with_heap (<[G := add_edge u v g]> (heap st)) st)) →
  (heap st !! G = None → Q (Exn TypeError) st) →
  wp (add_edge_at G u v) Q st.
Proof.
  intros H1 H2. unfold wp, add_edge_at.
  destruct (heap st !! G) eqn:E; simpl; auto.
Qed.

Lemma wp_remove_edge_at G u v Q st :
  (∀ g g' ok, heap st !! G = Some g → remove_edge u v g = (g', ok) →
        Q (if ok then Ret () else Exn NetworkXError)
          (with_heap (<[G := g']> (heap st)) st)) →
  (heap st !! G = None → Q (Exn TypeError) st) →
  wp (remove_edge_at G u v) Q st.
Proof.
  intros H1 H2. unfold wp, remove_edge_at.
  destruct (heap st !! G) eqn:E; simpl; auto.
  destruct (remove_edge u v g) as [g' ok] eqn:Er. simpl. by eapply H1.
Qed.

Lemma frame_insert G g st st0 :
  frame G st0 st → frame G st0 (with_heap (<[G := g]> (heap st)) st).
Proof.
  intros [L H]. split; simpl.
  - by rewrite length_insert.
  - intros l Hl. rewrite list_lookup_insert_ne by done. by apply H.
Qed.

Lemma try_swap_spec G u x v y sc st :
  wp (try_swap G u x v y sc)
     (λ r st', r ≠ OutOfFuel ∧ frame G st st' ∧ skipped st' = skipped st ∧
        ∀ g0 g, good g0 G (heap st) → heap st !! G = Some g →
                u ≠ x → v ≠ y → v ∈ adj g u → y ∈ adj g x →
                good g0 G (heap st')) st.
Proof.
  unfold try_swap. apply wp_bind, wp_get_graph; [|by intros ?].
  intros g Hg. destruct (decide _) as [[Hx Hy]|_]; cycle 1.
  { apply wp_ret. split; [done|]. split; [apply frame_refl|]. split; [done|]. auto. }
  apply wp_bind, wp_add_edge_at; [|congruence].
  intros g_ Hg_. rewrite Hg in Hg_. injection Hg_ as <-.
  assert (G < length (heap st)) as HG by (by eapply lookup_lt_Some).
  apply wp_bind, wp_add_edge_at; simpl;
    [|rewrite list_lookup_insert_eq by done; congruence].
  intros g1. rewrite list_lookup_insert_eq by done. intros [= <-].
  rewrite list_insert_insert_eq.
  apply wp_bind, wp_remove_edge_at; simpl;
    [|rewrite list_lookup_insert_eq by done; congruence].
  intros g2 g3 ok3. rewrite list_lookup_insert_eq by done. intros [= <-] E3.
  rewrite list_insert_insert_eq.
  assert (∀ g', frame G st (with_heap (<[G := g']> (heap st)) st)) as Hfr.
  { intros g'. apply frame_insert, frame_refl. }
  destruct ok3; cycle 1.
  { split; [done|]. split; [apply Hfr|]. split; [done|].
    intros g0 g' (g'' & Hg'' & Hwf & Hll & _) Hg' Hux Hvy Hv Hy'.
    rewrite Hg in Hg', Hg''. injection Hg' as <-. injection Hg'' as <-.
    destruct (swap_ops g u x v y) as (g3' & g4 & E3' & _); try done.
    congruence. }
  apply wp_bind, wp_remove_edge_at; simpl;
    [|rewrite list_lookup_insert_eq by done; congruence].
  intros g3_ g4 ok4. rewrite list_lookup_insert_eq by done. intros [= <-] E4.
  rewrite list_insert_insert_eq.
  assert (∀ g0 g', good g0 G (heap st) → heap st !! G = Some g' →
            u ≠ x → v ≠ y → v ∈ adj g' u → y ∈ adj g' x →
            ok4 = true ∧ good g0 G (<[G := g4]> (heap st))) as Hgood.
  { intros g0 g' (g'' & Hg'' & Hwf & Hll & Hdom & Hdeg) Hg' Hux Hvy Hv Hy'.
    rewrite Hg in Hg', Hg''. injection Hg' as <-. injection Hg'' as <-.
    destruct (swap_ops g u x v y) as (g3' & g4' & E3' & E4' & Hwf4 & Hll4 & Hd4 & Hdeg4);
      try done.
    rewrite E3 in E3'. injection E3' as <-. rewrite E4 in E4'. injection E4' as <- <-.
    split; [done|]. exists g4. rewrite list_lookup_insert_eq by done.
    split; [done|]. split; [done|]. split; [done|]. split; [congruence|].
    intros n. by rewrite Hdeg4. }
  destruct ok4.
  - apply wp_ret. split; [done|]. split; [apply Hfr|]. split; [done|].
    intros g0 g' H1 H2 H3 H4 H5 H6. by eapply Hgood.
  - split; [done|]. split; [apply Hfr|]. split; [done|].
    intros g0 g' H1 H2 H3 H4 H5 H6.
    by destruct (Hgood g0 g' H1 H2 H3 H4 H5 H6).
Qed.

Lemma loop_post_stop G mt fuel n st (r : outcome unit) st' :
  r ≠ OutOfFuel → heap st' = heap st → skipped st' = skipped st →
  loop_post G mt fuel n st r st'.
Proof.
  intros Hr Hh Hs. split; [by apply frame_heap_eq|].
  split; [by rewrite Hh|]. split; [lia|done].
Qed.

Lemma loop_post_step G mt fuel fuel' n n' st st1 (r : outcome unit) st' :
  frame G st st1 →
  (∀ g0, good g0 G (heap st) → good g0 G (heap st1)) →
  skipped st ≤ skipped st1 →
  (n ≤ mt → n' ≤ mt ∧ fuel + skipped st + n ≤ fuel' + skipped st1 + n') →
  loop_post G mt fuel' n' st1 r st' →
  loop_post G mt fuel n st r st'.
Proof.
  intros Hf Hg Hs Hn (Hf' & Hg' & Hs' & Hb).
  split; [by eapply frame_trans|]. split; [auto|]. split; [lia|].
  intros Hr Hle. destruct (Hn Hle) as [Hle' Hlt]. specialize (Hb Hr Hle'). lia.
Qed.

Lemma swap_loop_spec G keys nswap mt :
  NoDup keys → keys ≠ [] →
  ∀ fuel n sc st,
    wp (swap_loop fuel G keys nswap mt n sc) (loop_post G mt fuel n st) st.
Proof.
  intros Hnd Hne. induction fuel as [|fuel IH]; intros n sc st; simpl.
  { destruct (decide (sc < nswap)).
    - unfold wp. simpl. split; [apply frame_refl|]. split; [done|]. split; lia.
    - apply wp_ret. by apply loop_post_stop. }
  destruct (decide (sc < nswap)); [|apply wp_ret; by apply loop_post_stop].
  assert (length keys ≠ 0) as Hlen by (by destruct keys).
  apply wp_bind, wp_randbelow. intros ui st1 Hui1 Hh1 Hs1.
  apply wp_bind, wp_randbelow. intros xi st2 Hxi1 Hh2 Hs2.
  destruct (decide (ui = xi)) as [_|Hui].
  { apply wp_bind, wp_note_skip. intros st3 Hh3 Hs3.
    eapply wp_mono; [|apply IH]. intros r st'.
    apply loop_post_step.
    - apply frame_heap_eq. congruence.
    - intros g0. by rewrite Hh3, Hh2, Hh1.
    - lia.
    - lia. }
  assert (ui < length keys) as [u Hu]%lookup_lt_is_Some by auto.
  assert (xi < length keys) as [x Hx]%lookup_lt_is_Some by auto.
  rewrite Hu, Hx. simpl.
  assert (u ≠ x) as Hux.
  { intros ->. apply Hui. by eapply NoDup_lookup. }
  apply wp_bind, wp_get_graph; cycle 1.
  { intros _. apply loop_post_stop; [done|congruence..]. }
  intros g Hg.
  apply wp_bind, wp_choice; cycle 1.
  { intros st3 Hh3 Hs3. apply loop_post_stop; [done|congruence..]. }
  intros v st3 Hv Hh3 Hs3. apply elem_of_elements in Hv.
  apply wp_bind, wp_choice; cycle 1.
  { intros st4 Hh4 Hs4. apply loop_post_stop; [done|congruence..]. }
  intros y st4 Hy Hh4 Hs4. apply elem_of_elements in Hy.
  destruct (decide (v = y)) as [_|Hvy].
  { apply wp_bind, wp_note_skip. intros st5 Hh5 Hs5.
    eapply wp_mono; [|apply IH]. intros r st'.
    apply loop_post_step.
    - apply frame_heap_eq. congruence.
    - intros g0. by rewrite Hh5, Hh4, Hh3, Hh2, Hh1.
    - lia.
    - lia. }
  apply wp_bind. eapply wp_mono; [|apply try_swap_spec].
  intros r5 st5 (Hr5 & Hf5 & Hs5 & Hg5).
  assert (heap st4 = heap st) as Hh by congruence.
  assert (frame G st st5) as Hf.
  { eapply frame_trans; [|exact Hf5]. by apply frame_heap_eq. }
  assert (∀ g0, good g0 G (heap st) → good g0 G (heap st5)) as Hgd.
  { intros g0 Hg0. apply (Hg5 g0 g); try done; [by rewrite Hh|congruence]. }
  destruct r5 as [sc'|e|]; [| |done].
  - destruct (decide (mt ≤ n)).
    + apply wp_raise. split; [done|]. split; [done|]. split; [lia|done].
    + eapply wp_mono; [|apply IH]. intros r st'.
      apply loop_post_step; [done|done|lia|lia].
  - split; [done|]. split; [done|]. split; [lia|done].
Qed.

Lemma wp_try_except {A} (m h : M A) Q st :
  wp m (λ r st', match r with Exn _ => wp h Q st' | _ => Q r st' end) st →
  wp (try_except m h) Q st.
Proof. unfold wp, try_except. by destruct (m st) as [[a|e|] st']. Qed.

Lemma wp_alloc g Q st :
  Q (Ret (length (heap st))) (with_heap (heap st ++ [g]) st) →
  wp (alloc g) Q st.
Proof. done. Qed.

Lemma nodes_nonempty (g : Graph) : size g ≠ 0 → nodes g ≠ [].
Proof.
  intros Hs Hn. apply Hs. rewrite <- length_map_to_list.
  unfold nodes in Hn. apply fmap_nil_inv in Hn. by rewrite Hn.
Qed.

Lemma double_edge_swap_spec fuel G nswap mt st :
  wp (double_edge_swap fuel G nswap mt) (swap_post G mt fuel st) st.
Proof.
  assert (∀ e, swap_post G mt fuel st (Exn e) st) as Hstop.
  { intros e. split; [apply frame_refl|]. split; [done|]. split; [lia|done]. }
  unfold double_edge_swap. apply wp_bind, wp_get_graph; [|by intros _].
  intros g Hg.
  destruct (decide (mt < nswap)); [by apply wp_raise|].
  destruct (decide (size g < 4)); [by apply wp_raise|].
  destruct (decide (length (edges g) < 2)); [by apply wp_raise|].
  destruct (decide (_ = 0)); [by apply wp_raise|].
  eapply wp_mono; [|apply swap_loop_spec].
  - intros r st' (Hf & Hgd & Hs & Hb). split; [done|]. split; [done|].
    split; [done|]. intros Hr. specialize (Hb Hr). lia.
  - apply NoDup_nodes.
  - apply nodes_nonempty. lia.
Qed.

Lemma good_init (g : Graph) G h :
  h !! G = Some g → wf g → loopless g → good g G h.
Proof. intros. by exists g. Qed.

Lemma degree_shuffNet_spec fuel network verbose st :
  wp (degree_shuffNet fuel network verbose)
     (λ r st',
        (∀ l g, heap st !! l = Some g → heap st' !! l = Some g) ∧
        (∀ s, r = Ret s → heap st !! s = None) ∧
        ∀ g, heap st !! network = Some g →
          match r with
          | Ret s =>
              wf g → loopless g → good g s (heap st')
          | Exn e =>
              e = ZeroDivisionError ∧ verbose = true ∧ edges g = []
          | OutOfFuel =>
              fuel + skipped st ≤ skipped st' + length (edges g) * 10
          end) st.
Proof.
  unfold degree_shuffNet. apply wp_bind, wp_get_graph; cycle 1.
  { intros Hn. split; [done|]. split; [done|]. intros g. congruence. }
  intros g Hg. unfold copy.
  apply wp_bind, wp_bind, wp_get_graph; [|congruence].
  intros g_ Hg_. rewrite Hg in Hg_. injection Hg_ as <-.
  apply wp_alloc. set (s := length (heap st)).
  set (st1 := with_heap (heap st ++ [g]) st).
  assert (heap st1 !! s = Some g) as Hs1.
  { unfold st1, s. simpl. by rewrite lookup_app_r, Nat.sub_diag. }
  assert (∀ st2, frame s st1 st2 →
            ∀ l g', heap st !! l = Some g' → heap st2 !! l = Some g') as Hkeep.
  { intros st2 [_ Hf] l g' Hl.
    assert (l < s) as Hlt by (by eapply lookup_lt_Some).
    rewrite Hf by lia. unfold st1. simpl. by rewrite lookup_app_l. }
  assert (heap st !! s = None) as Hnew by (by apply lookup_ge_None).
  apply wp_bind, wp_try_except.
  eapply wp_mono; [|apply double_edge_swap_spec].
  intros r st2 (Hf & Hgd & Hsk & Hb).
  assert (∀ st3, heap st3 = heap st2 → skipped st3 = skipped st2 →
            wp (let! _ := report_similarity verbose (length (edges g)) in ret s)
               (λ r st',
                  (∀ l g, heap st !! l = Some g → heap st' !! l = Some g) ∧
                  (∀ s, r = Ret s → heap st !! s = None) ∧
                  ∀ g, heap st !! network = Some g →
                    match r with
                    | Ret s => wf g → loopless g → good g s (heap st')
                    | Exn e => e = ZeroDivisionError ∧ verbose = true ∧ edges g = []
                    | OutOfFuel =>
                        fuel + skipped st ≤ skipped st' + length (edges g) * 10
                    end) st3) as Hrest.
  { intros st3 Hh3 Hs3. apply wp_bind. unfold report_similarity.
    assert (∀ l g', heap st !! l = Some g' → heap st3 !! l = Some g') as Hk3.
    { rewrite Hh3. by apply Hkeep. }
    destruct verbose.
    - destruct (decide (length (edges g) = 0)) as [E|_].
      + apply wp_raise. split; [done|]. split; [done|].
        intros g' Hg'. rewrite Hg in Hg'. injection Hg' as <-.
        split; [done|]. split; [done|]. by apply nil_length_inv.
      + apply wp_ret, wp_ret. split; [done|]. split; [by intros ? [= <-]|].
        intros g' Hg'. rewrite Hg in Hg'. injection Hg' as <-.
        intros Hwf Hll. rewrite Hh3. by apply Hgd, good_init.
    - apply wp_ret, wp_ret. split; [done|]. split; [by intros ? [= <-]|].
      intros g' Hg'. rewrite Hg in Hg'. injection Hg' as <-.
      intros Hwf Hll. rewrite Hh3. by apply Hgd, good_init. }
  destruct r as [[]|e|].
  - by apply Hrest.
  - apply wp_ret. by apply Hrest.
  - split; [by apply Hkeep|]. split; [done|].
    intros g' Hg'. rewrite Hg in Hg'. injection Hg' as <-.
    specialize (Hb eq_refl). simpl in Hb. lia.
Qed.

(** *** [random.shuffle] permutes *)

Lemma exchange_perm i j (x : list node) : exchange i j x ≡ₚ x.
Proof.
  unfold exchange.
  destruct (x !! i) as [xi|] eqn:Hi; [|done].
  destruct (x !! j) as [xj|] eqn:Hj; [|done].
  pose proof (lookup_lt_Some _ _ _ Hi) as Hli.
  pose proof (lookup_lt_Some _ _ _ Hj) as Hlj.
  apply Permutation_inj. split; [by rewrite !length_insert|].
  exists (λ n, if decide (n = i) then j else if decide (n = j) then i else n).
  split.
  - intros a b. repeat case_decide; congruence.
  - intros n. destruct (decide (n = j)) as [->|Hnj].
    + rewrite list_lookup_insert_eq by (by rewrite length_insert).
      repeat case_decide; subst; congruence.
    + rewrite list_lookup_insert_ne by done.
      destruct (decide (n = i)) as [->|Hni].
      * by rewrite list_lookup_insert_eq.
      * by rewrite list_lookup_insert_ne.
Qed.

Lemma shuffle_from_spec i x st :
  wp (shuffle_from i x)
     (λ r st', ∃ x', r = Ret x' ∧ x' ≡ₚ x ∧ heap st' = heap st) st.
Proof.
  revert x st. induction i as [|i IH]; intros x st; simpl.
  { apply wp_ret. by exists x. }
  apply wp_bind, wp_randbelow. intros j st1 _ Hh1 _.
  eapply wp_mono; [|apply IH]. intros r st' (x' & -> & Hp & Hh).
  exists x'. split; [done|]. split; [|congruence].
  by rewrite Hp, exchange_perm.
Qed.

Lemma shuffle_times_spec k x st :
  wp (shuffle_times k x)
     (λ r st', ∃ x', r = Ret x' ∧ x' ≡ₚ x ∧ heap st' = heap st) st.
Proof.
  revert x st. induction k as [|k IH]; intros x st; simpl.
  { apply wp_ret. by exists x. }
  apply wp_bind. eapply wp_mono; [|apply shuffle_from_spec].
  intros r st1 (x1 & -> & Hp1 & Hh1).
  eapply wp_mono; [|apply IH]. intros r st' (x' & -> & Hp & Hh).
  exists x'. split; [done|]. split; [by rewrite Hp|congruence].
Qed.

(** *** The relabelling map is a permutation of the node labels *)

Lemma dict_of_lookup keys values i k v :
  NoDup keys → length keys = length values →
  keys !! i = Some k → values !! i = Some v →
  dict_of keys values !! k = Some v.
Proof.
  intros Hnd Hlen Hk Hv. unfold dict_of.
  apply elem_of_list_to_map.
  - rewrite fmap_reverse, fst_zip by lia. by rewrite reverse_Permutation.
  - apply elem_of_reverse. apply list_elem_of_lookup. exists i.
    rewrite lookup_zip_with, Hk. simpl. by rewrite Hv.
Qed.

Lemma dict_of_None keys values k :
  length keys = length values → k ∉ keys → dict_of keys values !! k = None.
Proof.
  intros Hlen Hk. unfold dict_of. apply not_elem_of_list_to_map.
  rewrite fmap_reverse, fst_zip by lia. by rewrite elem_of_reverse.
Qed.

Lemma relabel_perm keys values :
  NoDup keys → values ≡ₚ keys →
  let f := relabel (dict_of keys values) in
  Inj (=) (=) f ∧
  (∀ n, n ∈ keys → f n ∈ keys) ∧
  (∀ n', n' ∈ keys → ∃ n, n ∈ keys ∧ n' = f n) ∧
  (∀ n, n ∉ keys → f n = n).
Proof.
  intros Hnd Hp f.
  assert (length keys = length values) as Hlen by (by rewrite Hp).
  assert (NoDup values) as Hndv by (by rewrite Hp).
  assert (∀ i k, keys !! i = Some k → ∃ v, values !! i = Some v ∧ f k = v) as Hin.
  { intros i k Hk.
    assert (i < length values) as [v Hv]%lookup_lt_is_Some.
    { rewrite <- Hlen. by eapply lookup_lt_Some. }
    exists v. split; [done|]. unfold f, relabel.
    by rewrite (dict_of_lookup keys values i k v). }
  assert (∀ n, n ∉ keys → f n = n) as Hout.
  { intros n Hn. unfold f, relabel. by rewrite dict_of_None. }
  assert (∀ n, n ∈ keys → f n ∈ keys) as Hclosed.
  { intros n (i & Hi)%list_elem_of_lookup.
    destruct (Hin i n Hi) as (v & Hv & ->). rewrite <- Hp.
    by eapply list_elem_of_lookup_2. }
  split; [|split; [done|split; [|done]]].
  - intros a b Hab.
    destruct (decide (a ∈ keys)) as [Ha|Ha], (decide (b ∈ keys)) as [Hb|Hb].
    + apply list_elem_of_lookup in Ha as [i Hi]. apply list_elem_of_lookup in Hb as [j Hj].
      destruct (Hin i a Hi) as (va & Hva & Ea). destruct (Hin j b Hj) as (vb & Hvb & Eb).
      assert (i = j) as -> by (eapply NoDup_lookup; [exact Hndv|done|congruence]).
      congruence.
    + exfalso. apply Hb. rewrite <- (Hout b Hb), <- Hab. by apply Hclosed.
    + exfalso. apply Ha. rewrite <- (Hout a Ha), Hab. by apply Hclosed.
    + by rewrite <- (Hout a Ha), <- (Hout b Hb).
  - intros n' Hn'. rewrite <- Hp in Hn'.
    apply list_elem_of_lookup in Hn' as [i Hi].
    assert (i < length keys) as [k Hk]%lookup_lt_is_Some.
    { rewrite Hlen. by eapply lookup_lt_Some. }
    exists k. split; [by eapply list_elem_of_lookup_2|].
    destruct (Hin i k Hk) as (v & Hv & ->). congruence.
Qed.

(** *** The edges listed by [G.edges] *)

Lemma elem_edges_from seen l n m :
  (n, m) ∈ edges_from seen l → ∃ ns, (n, ns) ∈ l ∧ m ∈ ns.
Proof.
  revert seen. induction l as [|[k ks] rest IH]; intros seen; simpl.
  { by intros ?%elem_of_nil. }
  rewrite elem_of_app. intros [H|H].
  - apply list_elem_of_fmap in H as (m' & [= -> ->] & Hm).
    apply list_elem_of_filter in Hm as [_ Hm]. apply elem_of_elements in Hm.
    exists ks. split; [left|done].
  - destruct (IH _ H) as (ns & Hin & Hm). exists ns. split; [by right|done].
Qed.

Lemma edges_from_complete seen l n m ns ms :
  NoDup l.*1 → (n, ns) ∈ l → (m, ms) ∈ l → m ∈ ns → n ∈ ms →
  n ∉ seen → m ∉ seen →
  (n, m) ∈ edges_from seen l ∨ (m, n) ∈ edges_from seen l.
Proof.
  revert seen. induction l as [|[k ks] rest IH]; intros seen Hnd Hn Hm Hmn Hnm Hns Hms.
  { by apply elem_of_nil in Hn. }
  simpl in *. apply NoDup_cons in Hnd as [Hk Hnd].
  rewrite !elem_of_app.
  apply elem_of_cons in Hn as [[= -> ->]|Hn].
  { left. left. apply list_elem_of_fmap. exists m. split; [done|].
    apply list_elem_of_filter. split; [done|]. by apply elem_of_elements. }
  apply elem_of_cons in Hm as [[= -> ->]|Hm].
  { right. left. apply list_elem_of_fmap. exists n. split; [done|].
    apply list_elem_of_filter. split; [done|]. by apply elem_of_elements. }
  assert (n ≠ k).
  { intros ->. apply Hk. apply list_elem_of_fmap. by exists (k, ns). }
  assert (m ≠ k).
  { intros ->. apply Hk. apply list_elem_of_fmap. by exists (k, ms). }
  destruct (IH ({[k]} ∪ seen)) as [?|?]; auto; set_solver.
Qed.

Lemma elem_edges (G : Graph) n m : (n, m) ∈ edges G → m ∈ adj G n.
Proof.
  intros (ns & Hin & Hm)%elem_edges_from.
  apply elem_of_map_to_list in Hin. by rewrite (adj_lookup _ _ _ Hin).
Qed.

Lemma edges_complete (G : Graph) n m :
  wf G → m ∈ adj G n → (n, m) ∈ edges G ∨ (m, n) ∈ edges G.
Proof.
  intros Hwf Hm. pose proof (Hwf _ _ Hm) as Hn.
  assert (∃ ns, G !! n = Some ns) as [ns Hns].
  { apply elem_of_dom. by eapply adj_elem_dom. }
  assert (∃ ms, G !! m = Some ms) as [ms Hms].
  { apply elem_of_dom. by eapply adj_elem_dom. }
  rewrite (adj_lookup _ _ _ Hns) in Hm. rewrite (adj_lookup _ _ _ Hms) in Hn.
  apply (edges_from_complete ∅ (map_to_list G) n m ns ms); try done.
  - apply NoDup_fst_map_to_list.
  - by apply elem_of_map_to_list.
  - by apply elem_of_map_to_list.
Qed.

(** *** The relabelled copy *)

Lemma add_nodes_spec (f : node → node) (l : list node) (H : Graph) :
  let H' := foldl (λ H n, add_node (f n) H) H l in
  (∀ n, adj H' n = adj H n) ∧ dom H' = dom H ∪ list_to_set (f <$> l).
Proof.
  revert H. induction l as [|a l IH]; intros H; simpl.
  { split; [done|]. set_solver. }
  destruct (IH (add_node (f a) H)) as [IH1 IH2]. split.
  - intros n. by rewrite IH1, adj_add_node.
  - rewrite IH2, dom_add_node. set_solver.
Qed.

Lemma add_edges_spec (f : node → node) (es : list (node * node)) (H : Graph) :
  let H' := foldl (λ H e, add_edge (f e.1) (f e.2) H) H es in
  (∀ n' m', m' ∈ adj H' n' ↔
     m' ∈ adj H n' ∨
     ∃ e, e ∈ es ∧ ((n' = f e.1 ∧ m' = f e.2) ∨ (n' = f e.2 ∧ m' = f e.1))) ∧
  (∀ n', n' ∈ dom H' ↔
     n' ∈ dom H ∨ ∃ e, e ∈ es ∧ (n' = f e.1 ∨ n' = f e.2)).
Proof.
  revert H. induction es as [|e es IH]; intros H; simpl.
  { split; intros; set_solver. }
  destruct (IH (add_edge (f e.1) (f e.2) H)) as [IH1 IH2]. split.
  - intros n' m'. rewrite IH1, elem_adj_add_edge. set_solver.
  - intros n'. rewrite IH2, dom_add_edge. set_solver.
Qed.

Lemma relabel_copy_iso (g : Graph) mapping :
  wf g → Inj (=) (=) (relabel mapping) →
  wf (relabel_copy g mapping) ∧
  isomorphism (relabel mapping) g (relabel_copy g mapping).
Proof.
  intros Hwf Hinj. unfold relabel_copy.
  set (f := relabel mapping) in *.
  destruct (add_nodes_spec f (nodes g) ∅) as [A0 D0].
  destruct (add_edges_spec f (edges g)
              (foldl (λ H n, add_node (f n) H) ∅ (nodes g))) as [A1 D1].
  set (H := foldl _ _ (edges g)) in *.
  assert (∀ n' m', m' ∈ adj H n' ↔ ∃ n m, m ∈ adj g n ∧ n' = f n ∧ m' = f m) as A.
  { intros n' m'. rewrite A1, A0. split.
    - intros [Hm|(e & He & [[-> ->]|[-> ->]])].
      + unfold adj in Hm. rewrite lookup_empty in Hm. set_solver.
      + destruct e as [a b]. apply elem_edges in He. by exists a, b.
      + destruct e as [a b]. apply elem_edges in He. apply Hwf in He. by exists b, a.
    - intros (n & m & Hm & -> & ->). right.
      destruct (edges_complete g n m Hwf Hm) as [He|He].
      + exists (n, m). split; [done|]. by left.
      + exists (m, n). split; [done|]. by right. }
  split; [|split; [done|split]].
  - intros u v. rewrite !A. intros (n & m & Hm & -> & ->).
    exists m, n. split; [by apply Hwf|done].
  - intros n'. rewrite D1, D0. split.
    + intros [Hn|(e & He & Hn)].
      * rewrite dom_empty_L, elem_of_union, elem_of_list_to_set in Hn.
        destruct Hn as [Hn|Hn]; [set_solver|].
        apply list_elem_of_fmap in Hn as (n & -> & Hn). exists n.
        split; [by apply elem_nodes|done].
      * destruct e as [a b]. apply elem_edges in He. simpl in Hn.
        destruct Hn as [->| ->].
        -- exists a. split; [by eapply adj_elem_dom|done].
        -- exists b. split; [|done]. apply Hwf in He. by eapply adj_elem_dom.
    + intros (n & Hn & ->). left. rewrite elem_of_union, elem_of_list_to_set.
      right. apply list_elem_of_fmap. exists n. split; [done|]. by apply elem_nodes.
  - intros a b. rewrite A. split.
    + intros Hb. by exists a, b.
    + intros (n & m & Hm & ->%Hinj & ->%Hinj). done.
Qed.

(** An isomorphism keeps the degrees and the number of edges. *)
Lemma iso_degree f (g h : Graph) n :
  wf h → isomorphism f g h → degree h (f n) = degree g n.
Proof.
  intros Hwf (Hinj & Hdom & Hadj). unfold degree. f_equal.
  - transitivity (length (f <$> elements (adj g n))).
    + symmetry. apply length_NoDup_size.
      * apply (NoDup_fmap_2 f), NoDup_elements.
      * intros m'. rewrite list_elem_of_fmap. split.
        -- intros (m & -> & Hm). apply elem_of_elements in Hm. by apply Hadj.
        -- intros Hm'.
           assert (m' ∈ dom h) as Hd.
           { apply Hwf in Hm'. by eapply adj_elem_dom. }
           apply Hdom in Hd as (m & _ & ->). exists m. split; [done|].
           apply elem_of_elements. by apply Hadj.
    + by rewrite length_fmap.
  - destruct (decide (f n ∈ adj h (f n))) as [H1|H1],
             (decide (n ∈ adj g n)) as [H2|H2]; try done.
    + by apply Hadj in H1.
    + by apply Hadj in H2.
Qed.

Lemma iso_edges f (g h : Graph) :
  wf g → wf h → isomorphism f g h → length (edges h) = length (edges g).
Proof.
  intros Hg Hh Hiso. pose proof Hiso as (Hinj & Hdom & Hadj).
  assert (2 * length (edges h) = 2 * length (edges g)); [|lia].
  rewrite !handshake by done.
  assert (nodes h ≡ₚ f <$> nodes g) as Hp.
  { apply NoDup_Permutation.
    - apply NoDup_nodes.
    - apply (NoDup_fmap_2 f), NoDup_nodes.
    - intros n'. rewrite elem_nodes, Hdom, list_elem_of_fmap.
      split; intros (n & H1 & H2); exists n.
      + split; [done|]. by apply elem_nodes.
      + split; [|done]. by apply elem_nodes. }
  transitivity (sum_list_with (degree h) (f <$> nodes g)).
  { clear -Hp. induction Hp; simpl; lia. }
  clear Hp. induction (nodes g) as [|n l IH]; csimpl; [done|].
  f_equal; [by apply iso_degree|done].
Qed.

Lemma iso_dom_perm f (g h : Graph) :
  isomorphism f g h → (∀ n, n ∈ dom g → f n ∈ dom g) →
  (∀ n', n' ∈ dom g → ∃ n, n ∈ dom g ∧ n' = f n) → dom h = dom g.
Proof.
  intros (_ & Hdom & _) H1 H2. apply set_eq. intros n'. rewrite Hdom. split.
  - intros (n & Hn & ->). by apply H1.
  - apply H2.
Qed.

Lemma wp_relabel_nodes G mapping Q st :
  (∀ g, heap st !! G = Some g →
        Q (Ret (length (heap st)))
          (with_heap (heap st ++ [relabel_copy g mapping]) st)) →
  (heap st !! G = None → Q (Exn TypeError) st) →
  wp (relabel_nodes G mapping) Q st.
Proof.
  intros H1 H2. unfold relabel_nodes. apply wp_bind, wp_get_graph; [|done].
  intros g Hg. by apply wp_alloc, H1.
Qed.

Lemma label_shuffNet_spec network verbose st :
  wp (label_shuffNet network verbose)
     (λ r st',
        (∀ l g, heap st !! l = Some g → heap st' !! l = Some g) ∧
        (∀ s, r = Ret s → heap st !! s = None) ∧
        ∀ g, heap st !! network = Some g → wf g →
          match r with
          | Ret s => ∃ h, heap st' !! s = Some h ∧ relabelled g h
          | Exn e => e = ZeroDivisionError ∧ verbose = true ∧ edges g = []
          | OutOfFuel => False
          end) st.
Proof.
  unfold label_shuffNet. apply wp_bind, wp_get_graph; cycle 1.
  { intros Hn. split; [done|]. split; [done|]. intros g. congruence. }
  intros g Hg. apply wp_bind.
  eapply wp_mono; [|apply shuffle_times_spec].
  intros r st1 (shuff_nodes & -> & Hp & Hh1).
  apply wp_bind, wp_relabel_nodes; [|congruence].
  intros g_ Hg_. rewrite Hh1, Hg in Hg_. injection Hg_ as <-.
  rewrite Hh1. set (s := length (heap st)).
  set (mapping := dict_of (nodes g) shuff_nodes).
  set (st2 := with_heap _ st1).
  assert (heap st2 = heap st ++ [relabel_copy g mapping]) as Hh2 by done.
  assert (∀ l g', heap st !! l = Some g' → heap st2 !! l = Some g') as Hkeep.
  { intros l g' Hl. rewrite Hh2.
    rewrite lookup_app_l; [done|]. by eapply lookup_lt_Some. }
  assert (heap st !! s = None) as Hnew by (by apply lookup_ge_None).
  assert (heap st2 !! s = Some (relabel_copy g mapping)) as Hs.
  { rewrite Hh2. unfold s. by rewrite lookup_app_r, Nat.sub_diag. }
  assert (wf g → relabelled g (relabel_copy g mapping)) as Hrel.
  { intros Hwf.
    destruct (relabel_perm (nodes g) shuff_nodes (NoDup_nodes g) Hp)
      as (Hinj & Hin & Hsurj & _).
    destruct (relabel_copy_iso g mapping Hwf Hinj) as [Hwf' Hiso].
    split; [done|]. exists (relabel mapping). split; [done|]. split.
    - intros n Hn. apply elem_nodes, Hin. by apply elem_nodes.
    - intros n' Hn'. apply elem_nodes in Hn'.
      destruct (Hsurj n' Hn') as (n & Hn & ->). exists n.
      split; [by apply elem_nodes|done]. }
  apply wp_bind. unfold report_similarity.
  destruct verbose.
  - destruct (decide (length (edges g) = 0)) as [E|_].
    + apply wp_raise. split; [done|]. split; [done|].
      intros g' Hg' _. rewrite Hg in Hg'. injection Hg' as <-.
      split; [done|]. split; [done|]. by apply nil_length_inv.
    + apply wp_ret, wp_ret. split; [done|]. split; [by intros ? [= <-]|].
      intros g' Hg' Hwf. rewrite Hg in Hg'. injection Hg' as <-.
      exists (relabel_copy g mapping). auto.
  - apply wp_ret, wp_ret. split; [done|]. split; [by intros ? [= <-]|].
    intros g' Hg' Hwf. rewrite Hg in Hg'. injection Hg' as <-.
    exists (relabel_copy g mapping). auto.
Qed.

(** *** Graphs built from edge lists *)

Lemma wf_add_edge a b (G : Graph) : wf G → wf (add_edge a b G).
Proof.
  intros Hwf u v. rewrite !elem_adj_add_edge. specialize (Hwf u v). naive_solver.
Qed.

Lemma loopless_add_edge a b (G : Graph) :
  a ≠ b → loopless G → loopless (add_edge a b G).
Proof.
  intros Hab Hll u. rewrite elem_adj_add_edge. specialize (Hll u). naive_solver.
Qed.

Lemma wf_graph_of es : wf (graph_of es).
Proof.
  unfold graph_of. assert (wf (∅ : Graph)) as H0.
  { intros u v. unfold adj. rewrite lookup_empty. set_solver. }
  revert H0. generalize (∅ : Graph).
  induction es as [|e es IH]; intros G HG; simpl; [done|].
  by apply IH, wf_add_edge.
Qed.

Lemma loopless_graph_of es :
  Forall (λ e, e.1 ≠ e.2) es → loopless (graph_of es).
Proof.
  unfold graph_of. assert (loopless (∅ : Graph)) as H0.
  { intros u. unfold adj. rewrite lookup_empty. set_solver. }
  revert H0. generalize (∅ : Graph).
  induction es as [|e es IH]; intros G HG Hes; simpl; [done|].
  apply Forall_cons in Hes as [He Hes]. by apply IH; [apply loopless_add_edge|].
Qed.




(** Claim C7: for every input graph [label_shuffNet] returns a new graph
    that is the image of the input under a permutation [f] of its node
    labels: it has the same nodes, as many edges, and [f] is an isomorphism
    from the input onto it.  (The one call that returns nothing is a report
    under [verbose] on a graph without edges, which divides by zero.) *)
Theorem label_shuffNet_isomorphic network verbose st g :
  heap st !! network = Some g → wf g →
  match (label_shuffNet network verbose st).1 with
  | Ret shuff_net =>
      ∃ h, heap (label_shuffNet network verbose st).2 !! shuff_net = Some h ∧
           length (edges h) = length (edges g) ∧
           length (nodes h) = length (nodes g) ∧
           dom h = dom g ∧
           ∃ f, isomorphism f g h ∧ (∀ n, n ∈ dom g → f n ∈ dom g)
  | Exn e => e = ZeroDivisionError ∧ verbose = true ∧ edges g = []
  | OutOfFuel => False
  end.
Proof.
  intros Hg Hwf.
  pose proof (label_shuffNet_spec network verbose st) as (_ & _ & H).
  specialize (H g Hg Hwf).
  destruct (label_shuffNet network verbose st) as [[s|e|] st']; simpl in *;
    [|done..].
  destruct H as (h & Hh & Hwfh & f & Hiso & Hin & Hsurj).
  assert (dom h = dom g) as Hdom by (by eapply iso_dom_perm).
  exists h. split; [done|]. split; [by eapply iso_edges|]. split.
  { unfold nodes. rewrite !length_fmap, !length_map_to_list.
    by rewrite <- !size_dom, Hdom. }
  split; [done|]. by exists f.
Qed.

Lemma label_shuffNet_isomorphic_witness :
  match (label_shuffNet 0 true (store path5 mix)).1 with
  | Ret shuff_net =>
      ∃ h, heap (label_shuffNet 0 true (store path5 mix)).2 !! shuff_net = Some h ∧
           length (edges h) = length (edges path5) ∧
           length (nodes h) = length (nodes path5) ∧
           dom h = dom path5 ∧
           ∃ f, isomorphism f path5 h ∧ (∀ n, n ∈ dom path5 → f n ∈ dom path5)
  | Exn e => e = ZeroDivisionError ∧ true = true ∧ edges path5 = []
  | OutOfFuel => False
  end.
Proof.
  apply (label_shuffNet_isomorphic 0 true (store path5 mix) path5).
  - reflexivity.
  - apply wf_graph_of.
Defined.

(** Claim C10: [degree_shuffNet] and [label_shuffNet] leave every graph
    object of the caller as it was, the one passed to them included, and
    the graph they return is a new object. *)
Theorem shuffles_leave_input_unchanged fuel network verbose st :
  ((∀ l g, heap st !! l = Some g →
           heap (degree_shuffNet fuel network verbose st).2 !! l = Some g) ∧
   (∀ shuff_net, (degree_shuffNet fuel network verbose st).1 = Ret shuff_net →
                 heap st !! shuff_net = None)) ∧
  ((∀ l g, heap st !! l = Some g →
           heap (label_shuffNet network verbose st).2 !! l = Some g) ∧
   (∀ shuff_net, (label_shuffNet network verbose st).1 = Ret shuff_net →
                 heap st !! shuff_net = None)).
Proof.
  pose proof (degree_shuffNet_spec fuel network verbose st) as (H1 & H2 & _).
  pose proof (label_shuffNet_spec network verbose st) as (H3 & H4 & _).
  done.
Qed.


(** *** Edge cases of the two shuffles *)

Lemma lookup_new_object (h : list Graph) g : (h ++ [g]) !! length h = Some g.
Proof. by rewrite lookup_app_r, Nat.sub_diag. Qed.

Lemma wp_run {A} (m : M A) st x :
  wp m (λ r st', (r, st') = x) st → m st = x.
Proof. unfold wp. by destruct (m st). Qed.

Lemma double_edge_swap_small fuel G nswap st g :
  heap st !! G = Some g → size g < 4 ∨ length (edges g) < 2 →
  wp (double_edge_swap fuel G nswap (nswap * 10))
     (λ r st', ∃ e, r = Exn e ∧ st' = st) st.
Proof.
  intros Hg Hsmall. unfold double_edge_swap.
  apply wp_bind, wp_get_graph; [|congruence].
  intros g_ Hg_. rewrite Hg in Hg_. injection Hg_ as <-.
  destruct (decide (nswap * 10 < nswap)); [lia|].
  destruct (decide (size g < 4)); [apply wp_raise; by eexists|].
  destruct (decide (length (edges g) < 2)); [apply wp_raise; by eexists|].
  lia.
Qed.

(** Property X1: for a graph with fewer than four nodes or fewer than two
    edges [double_edge_swap] raises before it draws anything;
    [degree_shuffNet] swallows the exception and returns an exact copy of
    its input. *)
Theorem degree_shuffNet_small_graph fuel network verbose st g :
  heap st !! network = Some g →
  size g < 4 ∨ length (edges g) < 2 →
  (verbose = true → edges g ≠ []) →
  degree_shuffNet fuel network verbose st
  = (Ret (length (heap st)), with_heap (heap st ++ [g]) st).
Proof.
  intros Hg Hsmall Hv. apply wp_run.
  unfold degree_shuffNet. apply wp_bind, wp_get_graph; [|congruence].
  intros g_ Hg_. rewrite Hg in Hg_. injection Hg_ as <-.
  unfold copy. apply wp_bind, wp_bind, wp_get_graph; [|congruence].
  intros g_ Hg_. rewrite Hg in Hg_. injection Hg_ as <-.
  apply wp_alloc, wp_bind, wp_try_except.
  eapply wp_mono; [|apply (double_edge_swap_small _ _ _ _ g)]; cycle 1.
  { simpl. apply lookup_new_object. }
  { done. }
  intros r st' (e & -> & ->). apply wp_ret, wp_bind.
  unfold report_similarity. destruct verbose; [|by apply wp_ret, wp_ret].
  destruct (decide (length (edges g) = 0)) as [E|_]; [|by apply wp_ret, wp_ret].
  apply nil_length_inv in E. by destruct Hv.
Qed.

Lemma degree_shuffNet_small_graph_witness :
  degree_shuffNet 5 0 true (store (graph_of [("a", "b")]%string) mix)
  = (Ret (length (heap (store (graph_of [("a", "b")]%string) mix))),
     with_heap (heap (store (graph_of [("a", "b")]%string) mix)
                ++ [graph_of [("a", "b")]%string])
               (store (graph_of [("a", "b")]%string) mix)).
Proof.
  apply (degree_shuffNet_small_graph 5 0 true _ (graph_of [("a", "b")]%string)).
  - reflexivity.
  - left. vm_compute. lia.
  - intros _. vm_compute. discriminate.
Defined.

Lemma label_shuffNet_raises network verbose st g :
  heap st !! network = Some g →
  wp (label_shuffNet network verbose)
     (λ r _, ∀ e, r = Exn e ↔
                  e = ZeroDivisionError ∧ verbose = true ∧ edges g = []) st.
Proof.
  intros Hg.
  unfold label_shuffNet. apply wp_bind, wp_get_graph; [|congruence].
  intros g_ Hg_. rewrite Hg in Hg_. injection Hg_ as <-.
  apply wp_bind. eapply wp_mono; [|apply shuffle_times_spec].
  intros r st1 (x' & -> & _ & Hh1).
  apply wp_bind, wp_relabel_nodes; [|congruence].
  intros g_ _. apply wp_bind. unfold report_similarity.
  destruct verbose.
  - destruct (decide (length (edges g) = 0)) as [E|E].
    + apply wp_raise. apply nil_length_inv in E. intros e. split.
      * by intros [= <-].
      * by intros (-> & _ & _).
    + apply wp_ret, wp_ret. intros e. split; [done|].
      intros (_ & _ & He). by rewrite He in E.
  - apply wp_ret, wp_ret. intros e. split; [done|]. by intros (_ & ? & _).
Qed.

Lemma degree_shuffNet_raises fuel network verbose st g :
  heap st !! network = Some g →
  ∀ e, (degree_shuffNet fuel network verbose st).1 = Exn e ↔
       e = ZeroDivisionError ∧ verbose = true ∧ edges g = [].
Proof.
  intros Hg e. split.
  - intros Hr.
    pose proof (degree_shuffNet_spec fuel network verbose st) as (_ & _ & H).
    specialize (H g Hg). by rewrite Hr in H.
  - intros (-> & -> & He).
    assert (wp (degree_shuffNet fuel network true)
               (λ r _, r = Exn ZeroDivisionError) st) as H; [|exact H].
    unfold degree_shuffNet. apply wp_bind, wp_get_graph; [|congruence].
    intros g_ Hg_. rewrite Hg in Hg_. injection Hg_ as <-.
    unfold copy. apply wp_bind, wp_bind, wp_get_graph; [|congruence].
    intros g_ Hg_. rewrite Hg in Hg_. injection Hg_ as <-.
    apply wp_alloc, wp_bind, wp_try_except.
    eapply wp_mono; [|apply (double_edge_swap_small _ _ _ _ g)]; cycle 1.
    { simpl. apply lookup_new_object. }
    { right. rewrite He. simpl. lia. }
    intros r st' (e & -> & ->). apply wp_ret, wp_bind.
    rewrite He. simpl. done.
Qed.

(** Property X2: under [verbose] both shuffles report the share of kept
    edges, [shared_edges/float(edge_len)], outside any [try].  That division
    is the one way either function raises: each ends in an exception exactly
    when [verbose] is set and the graph has no edge, and the exception is
    [ZeroDivisionError]; no exception of [double_edge_swap] escapes,
    whatever the graph. *)
Theorem shuffles_raise_iff fuel network verbose st g :
  heap st !! network = Some g →
  (∀ e, (degree_shuffNet fuel network verbose st).1 = Exn e ↔
        e = ZeroDivisionError ∧ verbose = true ∧ edges g = []) ∧
  (∀ e, (label_shuffNet network verbose st).1 = Exn e ↔
        e = ZeroDivisionError ∧ verbose = true ∧ edges g = []).
Proof.
  intros Hg. split.
  - by apply degree_shuffNet_raises.
  - exact (label_shuffNet_raises network verbose st g Hg).
Qed.

Lemma shuffles_raise_iff_witness :
  (∀ e, (degree_shuffNet 5 0 true (store ∅ mix)).1 = Exn e ↔
        e = ZeroDivisionError ∧ true = true ∧ edges (∅ : Graph) = []) ∧
  (∀ e, (label_shuffNet 0 true (store ∅ mix)).1 = Exn e ↔
        e = ZeroDivisionError ∧ true = true ∧ edges (∅ : Graph) = []).
Proof.
  apply (shuffles_raise_iff 5 0 true (store ∅ mix) ∅). reflexivity.
Defined.

(** Property X3: a simple graph stays simple under [degree_shuffNet]: the
    returned graph is symmetric, has no self-loop, and between two nodes at
    most the one edge its adjacency sets can hold. *)
Theorem degree_shuffNet_keeps_simple fuel network verbose st g shuff_net :
  heap st !! network = Some g → wf g → loopless g →
  (degree_shuffNet fuel network verbose st).1 = Ret shuff_net →
  ∃ h, heap (degree_shuffNet fuel network verbose st).2 !! shuff_net = Some h ∧
       wf h ∧ loopless h.
Proof.
  intros Hg Hwf Hll Hr.
  pose proof (degree_shuffNet_spec fuel network verbose st) as (_ & _ & H).
  specialize (H g Hg). rewrite Hr in H.
  destruct (H Hwf Hll) as (h & Hh & Hwfh & Hllh & _). by exists h.
Qed.

Lemma degree_shuffNet_keeps_simple_witness :
  ∃ h, heap (degree_shuffNet 200 0 true (store path5 mix)).2 !! 1 = Some h ∧
       wf h ∧ loopless h.
Proof.
  apply (degree_shuffNet_keeps_simple 200 0 true (store path5 mix) path5 1).
  - reflexivity.
  - apply wf_graph_of.
  - apply loopless_graph_of. repeat constructor; discriminate.
  - vm_compute. reflexivity.
Defined.

(** Property X4: [label_shuffNet] moves every degree with its label: the
    returned graph has the degree sequence of the input, self-loops
    included. *)
Theorem label_shuffNet_degrees network verbose st g shuff_net :
  heap st !! network = Some g → wf g →
  (label_shuffNet network verbose st).1 = Ret shuff_net →
  ∃ h, heap (label_shuffNet network verbose st).2 !! shuff_net = Some h ∧
       same_degree_sequence g h.
Proof.
  intros Hg Hwf Hr.
  pose proof (label_shuffNet_spec network verbose st) as (_ & _ & H).
  specialize (H g Hg Hwf). rewrite Hr in H.
  destruct H as (h & Hh & Hwfh & f & Hiso & _).
  exists h. split; [done|]. exists f. pose proof Hiso as (Hinj & Hdom & _).
  split; [done|]. split; [done|]. intros n. by apply iso_degree.
Qed.

Lemma label_shuffNet_degrees_witness :
  ∃ h, heap (label_shuffNet 0 false (store two_loops mix)).2 !! 1 = Some h ∧
       same_degree_sequence two_loops h.
Proof.
  apply (label_shuffNet_degrees 0 false (store two_loops mix) two_loops 1).
  - reflexivity.
  - apply wf_graph_of.
  - vm_compute. reflexivity.
Defined.

(** *** [load_network_file] *)

Lemma graph_of_spec es :
  (∀ a b, b ∈ adj (graph_of es) a ↔ (a, b) ∈ es ∨ (b, a) ∈ es) ∧
  (∀ n, n ∈ dom (graph_of es) ↔ ∃ e, e ∈ es ∧ (n = e.1 ∨ n = e.2)).
Proof.
  destruct (add_edges_spec id es ∅) as [A D]. split.
  - intros a b. unfold graph_of. etrans; [apply A|]. split.
    + intros [H|(e & He & [[-> ->]|[-> ->]])].
      * unfold adj in H. rewrite lookup_empty in H. set_solver.
      * left. by destruct e.
      * right. by destruct e.
    + intros [H|H]; right; eexists; (split; [exact H|]); simpl; auto.
  - intros n. unfold graph_of. etrans; [apply D|]. split.
    + intros [H|H]; [set_solver|done].
    + intros H. by right.
Qed.

Lemma same_degree_sequence_refl g : same_degree_sequence g g.
Proof.
  exists id. split; [apply _|]. split; [|done].
  intros n'. split; [intros; by exists n'|]. by intros (n & Hn & ->).
Qed.

Lemma same_degree_sequence_trans g h k :
  same_degree_sequence g h → same_degree_sequence h k →
  same_degree_sequence g k.
Proof.
  intros (f1 & I1 & D1 & G1) (f2 & I2 & D2 & G2). exists (f2 ∘ f1).
  split; [apply _|]. split.
  - intros n'. rewrite D2. split.
    + intros (m & Hm & ->). apply D1 in Hm as (n & Hn & ->). by exists n.
    + intros (n & Hn & ->). exists (f1 n). split; [|done]. apply D1. by exists n.
  - intros n. simpl. by rewrite G2, G1.
Qed.

Lemma same_degrees_sequence g h :
  dom h = dom g → (∀ n, degree h n = degree g n) → same_degree_sequence g h.
Proof.
  intros Hd Hdeg. exists id. split; [apply _|]. split; [|done].
  intros n'. rewrite Hd. split; [intros; by exists n'|]. by intros (n & Hn & ->).
Qed.

(** Property X5: what [load_network_file] returns for an edge list: a new
    symmetric graph with as many edges as the graph of the file and its
    degree sequence, up to the names of the nodes, whichever shuffles are
    asked for.  A degree shuffle needs a file without self-loops, and a
    shuffle under [verbose] a file with an edge.  The call can only run on
    while the swap loop keeps skipping draws. *)
Theorem load_network_file_degrees fuel edge_list degree_shuffle label_shuffle
    verbose st :
  (degree_shuffle = true → Forall (λ e, e.1 ≠ e.2) edge_list) →
  (verbose = true → degree_shuffle = true ∨ label_shuffle = true →
   edges (graph_of edge_list) ≠ []) →
  match (load_network_file fuel edge_list degree_shuffle label_shuffle verbose st).1 with
  | Ret network =>
      ∃ h, heap (load_network_file fuel edge_list degree_shuffle label_shuffle
                   verbose st).2 !! network = Some h ∧
           wf h ∧
           length (edges h) = length (edges (graph_of edge_list)) ∧
           same_degree_sequence (graph_of edge_list) h
  | Exn _ => False
  | OutOfFuel =>
      degree_shuffle = true ∧
      fuel + skipped st
      ≤ skipped (load_network_file fuel edge_list degree_shuffle label_shuffle
                   verbose st).2
        + length (edges (graph_of edge_list)) * 10
  end.
Proof.
  intros Hloops Hverb. set (g := graph_of edge_list) in *.
  set (Q := λ (r : outcome loc) (st' : state),
         match r with
         | Ret network =>
             ∃ h, heap st' !! network = Some h ∧ wf h ∧
                  length (edges h) = length (edges g) ∧ same_degree_sequence g h
         | Exn _ => False
         | OutOfFuel =>
             degree_shuffle = true ∧
             fuel + skipped st ≤ skipped st' + length (edges g) * 10
         end).
  assert (wp (load_network_file fuel edge_list degree_shuffle label_shuffle verbose)
             Q st) as H; [|exact H].
  unfold load_network_file. fold g. apply wp_bind, wp_alloc.
  set (st0 := with_heap (heap st ++ [g]) st).
  assert (heap st0 !! length (heap st) = Some g) as Hg0 by apply lookup_new_object.
  assert (wf g) as Hwf by apply wf_graph_of.
  (* the label shuffle, from any state that holds a graph like [g] *)
  assert (∀ n1 st1 h1,
            heap st1 !! n1 = Some h1 → wf h1 →
            length (edges h1) = length (edges g) → same_degree_sequence g h1 →
            wp (let! network := (if label_shuffle then label_shuffNet n1 verbose
                                 else ret n1) in ret network)
               (λ r st', match r with
                         | Ret network =>
                             ∃ h, heap st' !! network = Some h ∧ wf h ∧
                                  length (edges h) = length (edges g) ∧
                                  same_degree_sequence g h
                         | Exn _ => False
                         | OutOfFuel => False
                         end) st1) as Hlabel.
  { intros n1 st1 h1 Hh1 Hwf1 He1 Hs1. apply wp_bind.
    destruct label_shuffle; cycle 1.
    { apply wp_ret, wp_ret. by exists h1. }
    pose proof (label_shuffNet_spec n1 verbose st1) as (_ & _ & H).
    specialize (H h1 Hh1 Hwf1). unfold wp.
    destruct (label_shuffNet n1 verbose st1) as [[s|e|] st2]; simpl in *; [| |done].
    - destruct H as (h & Hh & Hwfh & f & Hiso & Hin & Hsurj).
      exists h. split; [done|]. split; [done|]. split.
      + rewrite <- He1. by eapply iso_edges.
      + eapply same_degree_sequence_trans; [exact Hs1|].
        exists f. pose proof Hiso as (Hinj & Hdom & _).
        split; [done|]. split; [done|]. intros n. by apply iso_degree.
    - destruct H as (_ & -> & He). apply (Hverb eq_refl); [by right|].
      apply nil_length_inv. rewrite <- He1, He. done. }
  apply wp_bind. destruct degree_shuffle; cycle 1.
  { apply wp_ret. eapply wp_mono; [|apply (Hlabel _ st0 g); try done].
    - intros [s|e|] st'; simpl; done.
    - apply same_degree_sequence_refl. }
  pose proof (degree_shuffNet_spec fuel (length (heap st)) verbose st0) as (_ & _ & H).
  specialize (H g Hg0). unfold wp at 1.
  destruct (degree_shuffNet fuel (length (heap st)) verbose st0) as [[s|e|] st1] eqn:E;
    simpl in *.
  - destruct (H Hwf (loopless_graph_of _ (Hloops eq_refl)))
      as (h1 & Hh1 & Hwf1 & Hll1 & Hdom1 & Hdeg1).
    eapply wp_mono; [|apply (Hlabel s st1 h1); try done].
    + intros [s'|e'|] st'; simpl; done.
    + by apply same_degrees_same_edges.
    + by apply same_degrees_sequence.
  - destruct H as (_ & -> & He). apply (Hverb eq_refl); [by left|done].
  - split; [done|]. exact H.
Qed.

Lemma load_network_file_degrees_witness :
  match (load_network_file 200 [("a", "b"); ("b", "c"); ("c", "d"); ("d", "e")]%string
           true true true (empty_store mix)).1 with
  | Ret network =>
      ∃ h, heap (load_network_file 200
                   [("a", "b"); ("b", "c"); ("c", "d"); ("d", "e")]%string
                   true true true (empty_store mix)).2 !! network = Some h ∧
           wf h ∧
           length (edges h)
           = length (edges (graph_of [("a", "b"); ("b", "c"); ("c", "d"); ("d", "e")]%string)) ∧
           same_degree_sequence
             (graph_of [("a", "b"); ("b", "c"); ("c", "d"); ("d", "e")]%string) h
  | Exn _ => False
  | OutOfFuel =>
      true = true ∧
      200 + skipped (empty_store mix)
      ≤ skipped (load_network_file 200
                   [("a", "b"); ("b", "c"); ("c", "d"); ("d", "e")]%string
                   true true true (empty_store mix)).2
        + length (edges (graph_of [("a", "b"); ("b", "c"); ("c", "d"); ("d", "e")]%string)) * 10
  end.
Proof.
  apply (load_network_file_degrees 200
           [("a", "b"); ("b", "c"); ("c", "d"); ("d", "e")]%string
           true true true (empty_store mix)).
  - intros _. repeat constructor; discriminate.
  - intros _ _. vm_compute. discriminate.
Defined.

(** Property X6: without shuffles [load_network_file] returns the graph of
    the file as a new object: two nodes are adjacent exactly when some line
    lists them, in either order, and the nodes are the end points of the
    lines.  Repeated lines, the order of the two nodes and every further
    column make no difference. *)
Theorem load_network_file_plain fuel edge_list verbose st :
  load_network_file fuel edge_list false false verbose st
  = (Ret (length (heap st)), with_heap (heap st ++ [graph_of edge_list]) st) ∧
  wf (graph_of edge_list) ∧
  (∀ a b, b ∈ adj (graph_of edge_list) a ↔
          (a, b) ∈ edge_list ∨ (b, a) ∈ edge_list) ∧
  (∀ n, n ∈ dom (graph_of edge_list) ↔
        ∃ e, e ∈ edge_list ∧ (n = e.1 ∨ n = e.2)).
Proof.
  split; [done|]. split; [apply wf_graph_of|]. apply graph_of_spec.
Qed.

(** Property X7: an empty edge list with a shuffle under [verbose] (the
    default of [load_network_file]) ends in [ZeroDivisionError]: the shuffle
    reports a ratio over zero edges. *)
Theorem load_network_file_empty fuel degree_shuffle label_shuffle st :
  degree_shuffle = true ∨ label_shuffle = true →
  (load_network_file fuel [] degree_shuffle label_shuffle true st).1
  = Exn ZeroDivisionError.
Proof.
  intros Hs.
  assert (wp (load_network_file fuel [] degree_shuffle label_shuffle true)
             (λ r _, r = Exn ZeroDivisionError) st) as H; [|exact H].
  unfold load_network_file. apply wp_bind, wp_alloc. simpl.
  set (st0 := with_heap (heap st ++ [∅]) st).
  assert (heap st0 !! length (heap st) = Some (∅ : Graph)) as Hg0
    by apply lookup_new_object.
  apply wp_bind. destruct degree_shuffle.
  - pose proof (degree_shuffNet_raises fuel (length (heap st)) true st0 ∅ Hg0
                  ZeroDivisionError) as [_ H].
    specialize (H (conj eq_refl (conj eq_refl eq_refl))).
    eapply (wp_mono _ (λ r _, r = Exn ZeroDivisionError)); [|exact H].
    by intros r st' ->.
  - destruct Hs as [?| ->]; [done|]. apply wp_ret, wp_bind.
    eapply wp_mono; [|apply (label_shuffNet_raises _ true st0 ∅ Hg0)].
    intros r st' H. simpl in H. 
    destruct (H ZeroDivisionError) as [_ ->]; done.
Qed.

Lemma load_network_file_empty_witness :
  (load_network_file 5 [] false true true (empty_store mix)).1
  = Exn ZeroDivisionError.
Proof.
  apply (load_network_file_empty 5 false true (empty_store mix)). by right.
Defined.

End NetFacts.

(* ================================================================== *)
(** ** Facts about [process_TCGA_MAF] *)
(* ================================================================== *)

Module MafFacts.
Import Combine Mutations Maf MutationsFacts.

Lemma insert_by_perm {A} (leb : A → A → bool) a l : insert_by leb a l ≡ₚ a :: l.
Proof.
  induction l as [|b l IH]; simpl; [done|].
  destruct (leb a b); [done|]. rewrite IH. apply Permutation_swap.
Qed.

Lemma sort_by_perm {A} (leb : A → A → bool) l : sort_by leb l ≡ₚ l.
Proof.
  induction l as [|a l IH]; simpl; [done|]. by rewrite insert_by_perm, IH.
Qed.

Section KeysFacts.
Context {G : Type} `{EqDecision G}.
Variable gene_leb : G → G → bool.

Lemma elem_of_complete (keys : list (option string * option G)) a b :
  (a, b) ∈ complete keys ↔ (Some a, Some b) ∈ keys.
Proof.
  unfold complete. rewrite list_elem_of_omap. split.
  - intros ([[x|] [y|]] & Hin & Hk); simplify_eq/=. done.
  - intros Hin. by exists (Some a, Some b).
Qed.

Lemma elem_of_groupby keys a b :
  (a, b) ∈ groupby_size_index gene_leb keys ↔ (Some a, Some b) ∈ keys.
Proof.
  unfold groupby_size_index.
  by rewrite sort_by_perm, elem_of_remove_dups, elem_of_complete.
Qed.

Lemma NoDup_groupby keys : NoDup (groupby_size_index gene_leb keys).
Proof.
  unfold groupby_size_index. rewrite sort_by_perm. apply NoDup_remove_dups.
Qed.

Lemma prefix_substring n s : String.prefix (String.substring 0 n s) s = true.
Proof.
  revert s. induction n as [|n IH]; intros [|c s]; simpl; try done.
  destruct (ascii_dec c c); [apply IH|done].
Qed.

Lemma is_substring_trim s : is_substring (trim s) s = true.
Proof.
  unfold trim. destruct s; simpl; [done|].
  apply orb_true_iff. left.
  apply (prefix_substring 12 (String _ _)).
Qed.

Lemma value_count_fmap (f : string → string) (l : list string) id :
  value_count (f <$> l) id = length (filter (λ x, f x = id) l).
Proof.
  unfold value_count. induction l as [|x l IH]; csimpl; [done|].
  rewrite !filter_cons. destruct (decide (f x = id)); simpl; by rewrite IH.
Qed.

Lemma value_count_dup (f : string → string) (l : list string) id :
  NoDup l →
  (1 < value_count (f <$> l) id ↔
   ∃ x y, x ∈ l ∧ y ∈ l ∧ x ≠ y ∧ f x = id ∧ f y = id).
Proof.
  intros Hnd. rewrite value_count_fmap.
  assert (NoDup (filter (λ x, f x = id) l)) as Hf by by apply NoDup_filter.
  split.
  - intros Hlen.
    destruct (filter (λ x, f x = id) l) as [|x [|y k]] eqn:E; simpl in Hlen;
      [lia..|].
    assert (x ∈ filter (λ x, f x = id) l) as Hx by (rewrite E; by left).
    assert (y ∈ filter (λ x, f x = id) l) as Hy by (rewrite E; right; by left).
    apply list_elem_of_filter in Hx as [? ?], Hy as [? ?].
    exists x, y. repeat split; try done.
    intros ->. apply NoDup_cons in Hf as [Hf _]. apply Hf. by left.
  - intros (x & y & Hx & Hy & Hne & Hfx & Hfy).
    assert ([x; y] ⊆+ filter (λ x, f x = id) l) as Hsub.
    { apply NoDup_submseteq.
      - apply NoDup_cons. split; [|apply NoDup_singleton].
        by intros ->%list_elem_of_singleton.
      - intros z Hz. apply list_elem_of_filter.
        apply elem_of_cons in Hz as [->|Hz]; [done|].
        apply list_elem_of_singleton in Hz as ->. done. }
    apply submseteq_length in Hsub. simpl in Hsub. lia.
Qed.

Lemma elem_of_dup_IDs (TCGA_sm : list (string * G)) id :
  id ∈ dup_IDs TCGA_sm ↔
  ∃ bc1 bc2, bc1 ∈ TCGA_sm.*1 ∧ bc2 ∈ TCGA_sm.*1 ∧ bc1 ≠ bc2 ∧
             trim bc1 = id ∧ trim bc2 = id.
Proof.
  unfold dup_IDs, trimmed_index.
  rewrite list_elem_of_filter, elem_of_remove_dups.
  rewrite (value_count_dup trim _ id (NoDup_levels _)).
  setoid_rewrite elem_of_levels. split.
  - by intros [? _].
  - intros H'. split; [done|].
    destruct H' as (bc1 & _ & Hin & _ & _ & <- & _).
    apply list_elem_of_fmap. exists bc1. split; [done|].
    by apply elem_of_levels.
Qed.

Lemma elem_of_index_list_filt (TCGA_sm : list (string * G)) bc g :
  (bc, g) ∈ index_list_filt TCGA_sm ↔
  (bc, g) ∈ TCGA_sm ∧ ¬ clashes TCGA_sm.*1 bc.
Proof.
  unfold index_list_filt. rewrite list_elem_of_filter. simpl.
  split; intros [H1 H2]; (split; [|done]) || split; try done.
  - intros (bc1 & bc2 & Hb1 & Hb2 & Hne & Ht & Hs).
    apply not_true_iff_false in H1. apply H1.
    apply existsb_exists. exists (trim bc1). split; [|done].
    apply list_elem_of_In, elem_of_dup_IDs. by exists bc1, bc2.
  - apply not_true_iff_false. intros Hex.
    apply existsb_exists in Hex as (id & Hid & Hs).
    apply list_elem_of_In, elem_of_dup_IDs in Hid
      as (bc1 & bc2 & Hb1 & Hb2 & Hne & <- & Ht).
    apply H2. by exists bc1, bc2.
Qed.

Lemma index_list_filt_trim_inj (TCGA_sm : list (string * G)) x y :
  x ∈ index_list_filt TCGA_sm → y ∈ index_list_filt TCGA_sm →
  (trim x.1, x.2) = (trim y.1, y.2) → x = y.
Proof.
  destruct x as [bx gx], y as [b_y gy]. simpl.
  intros Hx Hy [= Ht ->]. f_equal.
  apply elem_of_index_list_filt in Hx as [Hx Hcx].
  apply elem_of_index_list_filt in Hy as [Hy _].
  destruct (decide (bx = b_y)) as [|Hne]; [done|].
  exfalso. apply Hcx. exists bx, b_y.
  split; [by apply (list_elem_of_fmap_2 fst _ (bx, gy))|].
  split; [by apply (list_elem_of_fmap_2 fst _ (b_y, gy))|].
  split; [done|]. split; [done|]. apply is_substring_trim.
Qed.

Lemma NoDup_index_list_filt (TCGA_sm : list (string * G)) :
  NoDup TCGA_sm →
  NoDup ((λ sm, (trim sm.1, sm.2)) <$> index_list_filt TCGA_sm).
Proof.
  intros Hnd. apply NoDup_fmap_2_strong.
  - intros x y. apply index_list_filt_trim_inj.
  - by apply NoDup_filter.
Qed.

End KeysFacts.

Lemma barcodes_symbol maf :
  (groupby_size_index String.leb
     ((λ r, (Tumor_Sample_Barcode r, Hugo_Symbol r)) <$> maf)).*1 ≡ barcodes maf.
Proof.
  intros bc. rewrite list_elem_of_fmap. unfold barcodes.
  rewrite list_elem_of_omap. split.
  - intros ([b g] & -> & Hin). apply elem_of_groupby in Hin.
    apply list_elem_of_fmap in Hin as (r & [= Hb Hg] & Hr).
    exists r. split; [done|]. by rewrite <- Hb, <- Hg.
  - intros (r & Hr & Hk).
    destruct (Tumor_Sample_Barcode r) as [b|] eqn:Hb; [|done].
    destruct (Hugo_Symbol r) as [g|] eqn:Hg; [|done]. simplify_eq/=.
    exists (bc, g). split; [done|]. apply elem_of_groupby.
    apply list_elem_of_fmap. exists r. by rewrite Hb, Hg.
Qed.

Lemma clashes_proper l k bc : l ≡ k → clashes l bc ↔ clashes k bc.
Proof. intros H. unfold clashes. by setoid_rewrite H. Qed.

Lemma elem_of_groupby_symbol maf bc g :
  (bc, g) ∈ groupby_size_index String.leb
              ((λ r, (Tumor_Sample_Barcode r, Hugo_Symbol r)) <$> maf)
  ↔ listed maf bc g.
Proof.
  rewrite elem_of_groupby, list_elem_of_fmap. unfold listed. split.
  - intros (r & [= Hb Hg] & Hr). by exists r.
  - intros (r & Hr & Hb & Hg). exists r. by rewrite Hb, Hg.
Qed.

Lemma process_list_run (unstack_empty : result unit)
    (matrix_csv : list MafRow → string → list string)
    (maf : list MafRow) (save_path gene_naming : string)
    (fs : gmap string (list string)) :
  gene_naming ≠ "Entrez"%string → (∃ bc g, listed maf bc g) →
  process_TCGA_MAF unstack_empty matrix_csv maf save_path "list" gene_naming fs
  = (Ok (),
     <[save_path :=
         write_list
           (index_list_filt
              (groupby_size_index String.leb
                 ((λ r, (Tumor_Sample_Barcode r, Hugo_Symbol r)) <$> maf)))]> fs).
Proof.
  intros Hn (bc0 & g0 & H0). unfold process_TCGA_MAF.
  rewrite decide_False by done.
  set (TCGA_sm := groupby_size_index String.leb _).
  assert (reshaped unstack_empty TCGA_sm = Ok ()) as ->.
  { apply elem_of_groupby_symbol in H0. fold TCGA_sm in H0.
    destruct TCGA_sm; [by apply elem_of_nil in H0|done]. }
  by rewrite decide_True.
Qed.

Lemma symbol_pairs_kept (maf : list MafRow) s g :
  (s, g) ∈ (λ sm, (trim sm.1, sm.2)) <$>
             index_list_filt
               (groupby_size_index String.leb
                  ((λ r, (Tumor_Sample_Barcode r, Hugo_Symbol r)) <$> maf))
  ↔ kept maf s g.
Proof.
  rewrite list_elem_of_fmap. unfold kept. split.
  - intros ([bc g'] & [= -> ->] & Hin).
    apply elem_of_index_list_filt in Hin as [Hin Hc].
    exists bc. split; [by apply elem_of_groupby_symbol|]. split; [done|].
    intros Hx. apply Hc.
    by apply (clashes_proper _ _ bc (barcodes_symbol maf)).
  - intros (bc & Hl & -> & Hc). exists (bc, g). split; [done|].
    apply elem_of_index_list_filt. split; [by apply elem_of_groupby_symbol|].
    intros Hx. apply Hc.
    by apply (clashes_proper _ _ bc (barcodes_symbol maf)) in Hx.
Qed.

(** Property X19: in list mode with gene symbols [process_TCGA_MAF] writes
    one line [barcode[:12]<TAB>gene] per pair it keeps, and never the same
    pair twice.  A pair (barcode, gene) of the table is kept unless two
    different barcodes of the table share their first twelve characters and
    these occur anywhere in the barcode; rows listed several times count
    once. *)
Theorem process_TCGA_MAF_list (unstack_empty : result unit)
    (matrix_csv : list MafRow → string → list string)
    (maf : list MafRow) (save_path gene_naming : string)
    (fs : gmap string (list string)) :
  gene_naming ≠ "Entrez"%string → (∃ bc g, listed maf bc g) →
  ∃ pairs,
    process_TCGA_MAF unstack_empty matrix_csv maf save_path "list" gene_naming fs
    = (Ok (), <[save_path := (λ p, tabbed p.1 p.2) <$> pairs]> fs) ∧
    NoDup pairs ∧
    ∀ s g, (s, g) ∈ pairs ↔
           ∃ bc, listed maf bc g ∧ s = trim bc ∧ ¬ clashes (barcodes maf) bc.
Proof.
  intros Hn Hl.
  rewrite (process_list_run unstack_empty matrix_csv maf save_path gene_naming
             fs Hn Hl).
  eexists. split; [|split].
  - unfold write_list. rewrite (list_fmap_compose (λ sm, (trim sm.1, sm.2))
                                  (λ p, tabbed p.1 p.2)). done.
  - apply NoDup_index_list_filt, NoDup_groupby.
  - apply symbol_pairs_kept.
Qed.

Lemma process_TCGA_MAF_list_witness :
  ∃ pairs,
    process_TCGA_MAF (Raise TypeError) (λ _ _, []) maf_three "out" "list" "Symbol" ∅
    = (Ok (), <["out"%string := (λ p, tabbed p.1 p.2) <$> pairs]> ∅) ∧
    NoDup pairs ∧
    ∀ s g, (s, g) ∈ pairs ↔
           ∃ bc, listed maf_three bc g ∧ s = trim bc ∧
                 ¬ clashes (barcodes maf_three) bc.
Proof.
  apply (process_TCGA_MAF_list (Raise TypeError) (λ _ _, []) maf_three
           "out" "Symbol" ∅).
  - discriminate.
  - exists "TCGA-AA-0001-01A"%string, "TP53"%string.
    eexists. split; [by left|]. done.
Defined.

Lemma listed_three : listed maf_three "TCGA-BB-0002-01A" "TP53".
Proof. eexists. split; [right; right; by left|]. done. Qed.

Lemma listed_entrez_three : listed_entrez maf_three "TCGA-BB-0002-01A" 7157.
Proof. eexists. split; [right; right; by left|]. done. Qed.

Lemma not_clashes_three :
  ¬ clashes
      ["TCGA-AA-0001-01A"; "TCGA-AA-0001-02A"; "TCGA-BB-0002-01A";
       "TCGA-BB-0002-01A"; "TCGA-BB-0002-01A"]%string
      "TCGA-BB-0002-01A".
Proof.
  intros (b1 & b2 & H1 & H2 & Hne & Ht & Hs).
  rewrite !elem_of_cons, elem_of_nil in H1, H2.
  destruct H1 as [->|[->|[->|[->|[->|[]]]]]];
  destruct H2 as [->|[->|[->|[->|[->|[]]]]]];
    try done; try (vm_compute in Ht; discriminate);
    vm_compute in Hs; discriminate.
Qed.

(** Property X20: with Entrez naming the list mode cannot write a line: the
    gene is a number and [str + int] raises [TypeError].  By then the file
    has been opened for writing, so an empty file is left at [save_path]. *)
Theorem process_TCGA_MAF_entrez_list (unstack_empty : result unit)
    (matrix_csv : list MafRow → string → list string)
    (maf : list MafRow) (save_path : string) (fs : gmap string (list string))
    (bc : string) (g : Z) :
  listed_entrez maf bc g →
  ¬ clashes (barcodes_entrez maf) bc →
  process_TCGA_MAF unstack_empty matrix_csv maf save_path "list" "Entrez" fs
  = (Raise TypeError, <[save_path := []]> fs).
Proof.
  intros (r & Hr & Hb & Hg) Hc. unfold process_TCGA_MAF.
  rewrite decide_True by done.
  set (TCGA_sm := groupby_size_index Z.leb _).
  assert ((bc, g) ∈ TCGA_sm) as Hin.
  { apply elem_of_groupby, list_elem_of_fmap. exists r. by rewrite Hb, Hg. }
  assert (reshaped unstack_empty TCGA_sm = Ok ()) as ->.
  { destruct TCGA_sm; [by apply elem_of_nil in Hin|done]. }
  rewrite decide_True by done.
  assert ((bc, g) ∈ index_list_filt TCGA_sm) as Hf.
  { apply elem_of_index_list_filt. split; [done|]. intros Hcl. apply Hc.
    destruct Hcl as (bc1 & bc2 & H1 & H2 & Hrest). exists bc1, bc2.
    assert (∀ b, b ∈ TCGA_sm.*1 → b ∈ barcodes_entrez maf) as Hsub.
    { intros b Hbin. apply list_elem_of_fmap in Hbin as ([b' g'] & -> & Hbin).
      apply elem_of_groupby, list_elem_of_fmap in Hbin as (r' & [= Hb' Hg'] & Hr').
      apply list_elem_of_omap. exists r'. split; [done|].
      by rewrite <- Hb', <- Hg'. }
    split; [by apply Hsub|]. split; [by apply Hsub|]. done. }
  destruct (index_list_filt TCGA_sm); [by apply elem_of_nil in Hf|done].
Qed.

Lemma process_TCGA_MAF_entrez_list_witness :
  process_TCGA_MAF (Raise TypeError) (λ _ _, []) maf_three "out" "list" "Entrez" ∅
  = (Raise TypeError, <["out"%string := []]> ∅).
Proof.
  apply (process_TCGA_MAF_entrez_list (Raise TypeError) (λ _ _, []) maf_three
           "out" ∅ "TCGA-BB-0002-01A" 7157).
  - exact listed_entrez_three.
  - exact not_clashes_three.
Defined.

Lemma traverse_section {A B} (f : A → result B) (g : B → A) (l : list B) :
  (∀ b, b ∈ l → f (g b) = Ok b) → traverse f (g <$> l) = Ok l.
Proof.
  induction l as [|b l IH]; csimpl; [done|]. intros H'.
  rewrite (H' b) by by left. simpl. rewrite IH; [done|].
  intros b' Hb'. apply H'. by right.
Qed.

Lemma load_list_ok (read_csv_int : list string → string → result DataFrame)
    (lines : list string) (delimiter : string) pairs :
  traverse parse_line lines = Ok pairs → NoDup pairs →
  ∃ M, load_binary_mutation_data read_csv_int lines "list" delimiter = Ok M ∧
    index M = levels pairs.*1 ∧ labels M = levels pairs.*2 ∧
    ∀ i j s g col,
      index M !! i = Some s → columns M !! j = Some (g, col) →
      col !! i = Some (Some (Fin (if decide ((s, g) ∈ pairs) then 1 else 0))).
Proof.
  intros Hp Hnd. unfold load_binary_mutation_data.
  rewrite decide_True by done. rewrite Hp. simpl.
  unfold unstack. rewrite decide_True by done. simpl.
  eexists. split; [done|]. unfold fillna_frame, labels. simpl.
  split; [done|]. split; [by rewrite labels_built|].
  intros i j s g col Hi Hj.
  rewrite !list_lookup_fmap in Hj.
  destruct (levels pairs.*2 !! j) as [g'|] eqn:Hg; simpl in Hj; [|done].
  injection Hj as <- <-. unfold fillna.
  rewrite list_lookup_fmap, list_lookup_fmap, Hi. simpl.
  by destruct (decide ((s, g') ∈ pairs)).
Qed.

Lemma splitlines_line line text :
  has_linebreak line = false →
  splitlines (line +:+ String "010" text) = line :: splitlines text.
Proof.
  induction line as [|c line IH]; simpl.
  - done.
  - intros H. apply orb_false_iff in H as [-> H]. by rewrite (IH H).
Qed.

(** Reading back a text written line by line gives the lines written, when
    none of them holds a line break. *)
Lemma splitlines_file_text lines :
  Forall (λ l, has_linebreak l = false) lines →
  splitlines (file_text lines) = lines.
Proof.
  induction 1 as [|l lines Hl _ IH]; simpl; [done|].
  by rewrite (splitlines_line _ _ Hl), IH.
Qed.

Lemma has_linebreak_app a b :
  has_linebreak (a +:+ b) = has_linebreak a || has_linebreak b.
Proof.
  induction a as [|c a IH]; simpl; [done|]. by rewrite IH, orb_assoc.
Qed.

Lemma has_linebreak_tabbed a b :
  has_linebreak a = false → has_linebreak b = false →
  has_linebreak (tabbed a b) = false.
Proof.
  intros Ha Hb. unfold tabbed. rewrite has_linebreak_app, Ha. simpl.
  by rewrite Hb.
Qed.

(** Property X21: the list file [process_TCGA_MAF] writes is accepted by
    [load_binary_mutation_data]: when the barcodes (up to their twelfth
    character) and the gene symbols hold no tab and no line break, the
    lines [f.read().splitlines()] finds in the written text are the lines
    written, and reading them gives a matrix whose samples are the trimmed
    barcodes kept, whose genes are their genes, and whose entry is 1 exactly
    for the pairs kept and 0 elsewhere.  The reader never meets a repeated
    pair, since clashing barcodes were filtered out. *)
Theorem process_TCGA_MAF_round_trip (unstack_empty : result unit)
    (matrix_csv : list MafRow → string → list string)
    (read_csv_int : list string → string → result DataFrame)
    (maf : list MafRow) (save_path gene_naming delimiter : string)
    (fs : gmap string (list string)) :
  gene_naming ≠ "Entrez"%string →
  (∀ bc g, listed maf bc g →
           occurs tab (trim bc) = false ∧ occurs tab g = false ∧
           has_linebreak (trim bc) = false ∧ has_linebreak g = false) →
  (∃ s g, kept maf s g) →
  ∃ lines M,
    process_TCGA_MAF unstack_empty matrix_csv maf save_path "list" gene_naming fs
    = (Ok (), <[save_path := lines]> fs) ∧
    splitlines (file_text lines) = lines ∧
    load_binary_mutation_data read_csv_int (splitlines (file_text lines))
      "list" delimiter = Ok M ∧
    (∀ s, s ∈ index M ↔ ∃ g, kept maf s g) ∧
    (∀ g, g ∈ labels M ↔ ∃ s, kept maf s g) ∧
    ∀ i j s g col,
      index M !! i = Some s → columns M !! j = Some (g, col) →
      (kept maf s g → col !! i = Some (Some (Fin 1))) ∧
      (¬ kept maf s g → col !! i = Some (Some (Fin 0))).
Proof.
  intros Hn Htab (s0 & g0 & Hk0).
  assert (∃ bc g, listed maf bc g) as Hsome.
  { destruct Hk0 as (bc & Hl & _). by exists bc, g0. }
  pose proof (process_list_run unstack_empty matrix_csv maf save_path
                gene_naming fs Hn Hsome) as Hrun.
  set (TCGA_sm := groupby_size_index String.leb
                    ((λ r, (Tumor_Sample_Barcode r, Hugo_Symbol r)) <$> maf)) in *.
  set (pairs := (λ sm, (trim sm.1, sm.2)) <$> index_list_filt TCGA_sm).
  assert (write_list (index_list_filt TCGA_sm) = (λ p, tabbed p.1 p.2) <$> pairs)
    as Hw.
  { unfold write_list, pairs. by rewrite <- list_fmap_compose. }
  rewrite Hw in Hrun.
  assert (NoDup pairs) as Hnd by apply NoDup_index_list_filt, NoDup_groupby.
  assert (∀ s g, (s, g) ∈ pairs ↔ kept maf s g) as Hpairs
    by apply symbol_pairs_kept.
  assert (splitlines (file_text ((λ p, tabbed p.1 p.2) <$> pairs))
          = (λ p, tabbed p.1 p.2) <$> pairs) as Hsplit.
  { apply splitlines_file_text, Forall_fmap, Forall_forall.
    intros [s g] Hin. simpl.
    apply Hpairs in Hin as (bc & Hl & -> & _).
    destruct (Htab bc g Hl) as (_ & _ & ? & ?). by apply has_linebreak_tabbed. }
  assert (traverse parse_line ((λ p, tabbed p.1 p.2) <$> pairs) = Ok pairs) as Hparse.
  { apply traverse_section. intros [s g] Hin. simpl.
    apply Hpairs in Hin as (bc & Hl & -> & _).
    destruct (Htab bc g Hl) as (? & ? & _). by apply parse_line_tabbed. }
  destruct (load_list_ok read_csv_int _ delimiter pairs Hparse Hnd)
    as (M & Hload & Hidx & Hlab & Hcell).
  exists ((λ p, tabbed p.1 p.2) <$> pairs), M.
  split; [done|]. split; [done|]. rewrite Hsplit. split; [done|].
  split; [|split].
  - intros s. rewrite Hidx, elem_of_levels, list_elem_of_fmap. split.
    + intros ([s' g] & -> & Hin). exists g. by apply Hpairs.
    + intros (g & Hk). exists (s, g). split; [done|]. by apply Hpairs.
  - intros g. rewrite Hlab, elem_of_levels, list_elem_of_fmap. split.
    + intros ([s g'] & -> & Hin). exists s. by apply Hpairs.
    + intros (s & Hk). exists (s, g). split; [done|]. by apply Hpairs.
  - intros i j s g col Hi Hj. rewrite (Hcell i j s g col Hi Hj). split.
    + intros Hk. apply Hpairs in Hk. by rewrite decide_True.
    + intros Hk. rewrite decide_False; [done|]. intros Hin. by apply Hk, Hpairs.
Qed.

Lemma process_TCGA_MAF_round_trip_witness :
  ∃ lines M,
    process_TCGA_MAF (Raise TypeError) (λ _ _, []) maf_three "out" "list" "Symbol" ∅
    = (Ok (), <["out"%string := lines]> ∅) ∧
    splitlines (file_text lines) = lines ∧
    load_binary_mutation_data (λ _ _, Raise TypeError)
      (splitlines (file_text lines)) "list" "," = Ok M ∧
    (∀ s, s ∈ index M ↔ ∃ g, kept maf_three s g) ∧
    (∀ g, g ∈ labels M ↔ ∃ s, kept maf_three s g) ∧
    ∀ i j s g col,
      index M !! i = Some s → columns M !! j = Some (g, col) →
      (kept maf_three s g → col !! i = Some (Some (Fin 1))) ∧
      (¬ kept maf_three s g → col !! i = Some (Some (Fin 0))).
Proof.
  apply (process_TCGA_MAF_round_trip (Raise TypeError) (λ _ _, [])
           (λ _ _, Raise TypeError) maf_three "out" "Symbol" "," ∅).
  - discriminate.
  - intros bc g (r & Hr & Hb & Hg). unfold maf_three in Hr.
    rewrite !elem_of_cons, elem_of_nil in Hr.
    destruct Hr as [->|[->|[->|[->|[->|[]]]]]]; simpl in Hb, Hg;
      injection Hb as <-; injection Hg as <-; by vm_compute.
  - exists "TCGA-BB-0002"%string, "TP53"%string, "TCGA-BB-0002-01A"%string.
    split; [exact listed_three|]. split; [reflexivity|exact not_clashes_three].
Defined.

End MafFacts.

